(** * cmu15-445: storage and concurrency core

A shallow embedding of the LRU replacer, the extendible hash table, the
lock manager, the B+ tree index and its iterator, followed by the
properties established about them.

Pointers are addresses into an explicit store, so that aliasing (several
directory slots naming one bucket, a node reachable through [pre] and
through [next]) and dangling or null pointers are visible.  Every
operation runs in the error monad [Res]: a [Fail] outcome is an assertion
failure, a C++ exception, or a step whose behaviour C++ leaves undefined. *)

From stdpp Require Import base option list gmap strings.
From Stdlib Require Import ZArith Lia.

(** ** Outcomes *)

Inductive Fault :=
| NullDeref        (* dereference of a null pointer *)
| UseAfterFree     (* dereference of a pointer to a destroyed object *)
| AssertFail       (* a failed assert(...) *)
| BadAlloc         (* throw std::bad_alloc() *)
| OutOfRange       (* throw std::out_of_range(...) *)
| IndexOutOfBounds (* vector or array access outside its bounds *)
| UndefinedShift   (* 1 << n on int with n outside 0..30 *)
| TypeConfusion    (* a page read through the class of the other page type *)
| NoSuchPage       (* fetch of a page id under which no page was ever written *)
| OutOfFuel.       (* the bound on loop iterations of the model was reached *)

Inductive Res (A : Type) :=
| Ok (a : A)
| Fail (f : Fault).
Arguments Ok {A} a.
Arguments Fail {A} f.

Definition res_bind {A B} (r : Res A) (k : A -> Res B) : Res B :=
  match r with
  | Ok a => k a
  | Fail f => Fail f
  end.

Notation "'let*' x ':=' r 'in' k" := (res_bind r (fun x => k))
  (at level 10, x pattern, r at level 100, k at level 200).

Definition assert (b : bool) : Res unit :=
  if b then Ok tt else Fail AssertFail.

#[global] Instance Fault_eq_dec : EqDecision Fault.
Proof. solve_decision. Defined.

(** ** LRU replacer (buffer/lru_replacer.cpp) *)

Module LRU.
Section Replacer.
  Context {T : Type} `{Countable T}.
  (** The value held by the dummy head node ([node()] value-initialises it). *)
  Variable dflt : T.

(** Modelled from the spec: the list node of lru_replacer.h (not part of
    the sources), with the members the .cpp file uses:
    [struct node { T data; node *pre; std::unique_ptr<node> next; }].
    A pointer is the address of a node in [heap], [None] is [nullptr]. *)
Record node := mkNode {
  data : T;
  pre : option nat;
  next : option nat
}.

(** The members of LRUReplacer that the .cpp file uses, and the store of
    the nodes. *)
Record LRUReplacer := mkLRU {
  heap : gmap nat node;      (* the live nodes *)
  fresh : nat;               (* next address handed out by make_unique *)
  head_ : nat;               (* std::unique_ptr<node> head_: the dummy *)
  tail_ : nat;               (* node *tail_ *)
  table_ : gmap T nat;       (* value -> node* *)
  size_ : Z                  (* size_t size_ *)
}.

Definition size_t_max : Z := 2 ^ 64.

(** [LRUReplacer()] *)
Definition init : LRUReplacer :=
  {| heap := {[ 0%nat := mkNode dflt None None ]};
     fresh := 1%nat; head_ := 0%nat; tail_ := 0%nat;
     table_ := ∅; size_ := 0 |}.

(** [p->...] on a raw pointer or a unique_ptr. *)
Definition deref (h : gmap nat node) (p : option nat) : Res (nat * node) :=
  match p with
  | None => Fail NullDeref
  | Some a =>
      match h !! a with
      | Some n => Ok (a, n)
      | None => Fail UseAfterFree
      end
  end.

(** Destruction of the node owned by a unique_ptr that is overwritten:
    the node and, through its [next] member, the chain it owns. *)
Fixpoint destroy (fuel : nat) (h : gmap nat node) (p : option nat)
  : gmap nat node :=
  match fuel, p with
  | S fuel', Some a =>
      match h !! a with
      | Some n => destroy fuel' (delete a h) (next n)
      | None => h
      end
  | _, _ => h
  end.

Definition set_next (a : nat) (q : option nat) (h : gmap nat node) :=
  alter (fun n => mkNode (data n) (pre n) q) a h.
Definition set_pre (a : nat) (q : option nat) (h : gmap nat node) :=
  alter (fun n => mkNode (data n) q (next n)) a h.

(** The unlinking sequence shared by [Insert] (value present) and [Erase]:
    [node *pre = it->second->pre;
     std::unique_ptr<node> cur = std::move(pre->next);
     pre->next = std::move(cur->next);
     pre->next->pre = pre;]
    Returns the heap and the address now owned by [cur]. *)
Definition unlink (h : gmap nat node) (it : nat)
  : Res (gmap nat node * nat) :=
  let* (_, n_it) := deref h (Some it) in
  let* (p, n_pre) := deref h (pre n_it) in
  (* cur = std::move(pre->next) *)
  let cur := next n_pre in
  let h1 := set_next p None h in
  (* pre->next = std::move(cur->next) *)
  let* (c, n_cur) := deref h1 cur in
  let h2 := set_next p (next n_cur) (set_next c None h1) in
  (* pre->next->pre = pre *)
  let* (_, n_pre') := deref h2 (Some p) in
  let* (q, _) := deref h2 (next n_pre') in
  Ok (set_pre q (Some p) h2, c).

Definition Insert (value : T) (s : LRUReplacer) : Res LRUReplacer :=
  match table_ s !! value with
  | None =>
      let ptr := fresh s in
      let* (t, n_t) := deref (heap s) (Some (tail_ s)) in
      let h1 := <[ ptr := mkNode value (Some (tail_ s)) None ]> (heap s) in
      let h2 := destroy (size h1) h1 (next n_t) in
      let h3 := set_next t (Some ptr) h2 in
      Ok {| heap := h3; fresh := S (fresh s); head_ := head_ s;
            tail_ := ptr; table_ := <[ value := ptr ]> (table_ s);
            size_ := (size_ s + 1) mod size_t_max |}
  | Some it =>
      let* (h1, c) := unlink (heap s) it in
      (* cur->pre = tail_ *)
      let h2 := set_pre c (Some (tail_ s)) h1 in
      (* tail_->next = std::move(cur) *)
      let* (t, n_t) := deref h2 (Some (tail_ s)) in
      let h3 := set_next t (Some c) (destroy (size h2) h2 (next n_t)) in
      (* tail_ = tail_->next.get() *)
      Ok {| heap := h3; fresh := fresh s; head_ := head_ s;
            tail_ := c; table_ := table_ s; size_ := size_ s |}
  end.

(** [bool Victim(T &value)]: [None] is the [false] return. *)
Definition Victim (s : LRUReplacer) : Res (option T * LRUReplacer) :=
  if (size_ s =? 0)%Z then
    let* _ := assert (bool_decide (head_ s = tail_ s)) in
    Ok (None, s)
  else
    let* (hd, n_hd) := deref (heap s) (Some (head_ s)) in
    let* (f, n_f) := deref (heap s) (next n_hd) in
    let value := data n_f in
    (* head_->next = std::move(head_->next->next) *)
    let h1 := set_next hd (next n_f) (set_next f None (heap s)) in
    let h2 := destroy (size h1) h1 (Some f) in
    let sz := ((size_ s - 1) mod size_t_max)%Z in
    Ok (Some value,
        {| heap := h2; fresh := fresh s; head_ := head_ s;
           tail_ := if (sz =? 0)%Z then head_ s else tail_ s;
           table_ := delete value (table_ s); size_ := sz |}).

Definition Erase (value : T) (s : LRUReplacer) : Res (bool * LRUReplacer) :=
  match table_ s !! value with
  | Some it =>
      let* (h1, c) := unlink (heap s) it in
      let sz := ((size_ s - 1) mod size_t_max)%Z in
      (* cur goes out of scope at the end of the block *)
      let h2 := destroy (size h1) h1 (Some c) in
      Ok (true,
          {| heap := h2; fresh := fresh s; head_ := head_ s;
             tail_ := if (sz =? 0)%Z then head_ s else tail_ s;
             table_ := delete value (table_ s); size_ := sz |})
  | None => Ok (false, s)
  end.

Definition Size (s : LRUReplacer) : Z := size_ s.

(** The values reachable from the dummy head through [next], LRU first. *)
Fixpoint chain (fuel : nat) (h : gmap nat node) (p : option nat) : list T :=
  match fuel, p with
  | S fuel', Some a =>
      match h !! a with
      | Some n => data n :: chain fuel' h (next n)
      | None => []
      end
  | _, _ => []
  end.

Definition contents (s : LRUReplacer) : list T :=
  match heap s !! head_ s with
  | Some n => chain (size (heap s)) (heap s) (next n)
  | None => []
  end.

(** *** The list a replacer stands for

    [lseg h p back addrs vs e]: the nodes at [addrs], in this order, are
    live in [h] and hold the values [vs]; each points forward to the next
    one, the last one to [e]; each points back to its predecessor, [p] for
    the first one, except that the back pointer of the first one is only
    required when [back] is set. *)
Fixpoint lseg (h : gmap nat node) (p : nat) (back : bool)
    (addrs : list nat) (vs : list T) (e : option nat) : Prop :=
  match addrs, vs with
  | [], [] => True
  | a :: addrs', v :: vs' =>
      exists na,
        h !! a = Some na /\ data na = v /\
        (back = true -> pre na = Some p) /\
        next na = match addrs' with
                  | [] => e
                  | a' :: _ => Some a'
                  end /\
        lseg h a true addrs' vs' e
  | _, _ => False
  end.

(** [rep s back addrs vs]: the replacer [s] holds the values [vs], least
    recently inserted first, in the nodes [addrs] chained from the dummy
    head; [tail_] is the last node, [table_] maps each value to its node,
    [size_] is the number of values.  [back] tells whether the first node
    still points back to the dummy: [Victim] does not repair that
    pointer. *)
Definition rep (s : LRUReplacer) (back : bool) (addrs : list nat)
    (vs : list T) : Prop :=
  (exists nh, heap s !! head_ s = Some nh /\ next nh = head addrs) /\
  lseg (heap s) (head_ s) back addrs vs None /\
  length addrs = length vs /\
  NoDup (head_ s :: addrs) /\
  NoDup vs /\
  tail_ s = List.last addrs (head_ s) /\
  table_ s = list_to_map (zip vs addrs) /\
  size_ s = Z.of_nat (length vs) /\
  (Z.of_nat (length vs) < size_t_max)%Z /\
  (forall a, is_Some (heap s !! a) -> (a < fresh s)%nat).

(** [Insert] of each value in turn. *)
Fixpoint insert_all (vs : list T) (s : LRUReplacer) : Res LRUReplacer :=
  match vs with
  | [] => Ok s
  | v :: vs' => let* s' := Insert v s in insert_all vs' s'
  end.

(** [n] calls of [Victim], with the values they return; a call that
    returns false ends the run. *)
Fixpoint victims (n : nat) (s : LRUReplacer) : Res (list T * LRUReplacer) :=
  match n with
  | O => Ok ([], s)
  | S n' =>
      let* (v, s') := Victim s in
      match v with
      | Some x => let* (xs, s'') := victims n' s' in Ok (x :: xs, s'')
      | None => Ok ([], s')
      end
  end.


End Replacer.
End LRU.


(** ** Lock manager (concurrency/lock_manager.cpp)

The file holds two revisions of the lock manager.  Every public function
runs under [mutex_]; [LockShared] and [LockExclusive] give the mutex up
only inside [cond.wait].  A call is therefore modelled as the atomic step
up to the wait ([*_enter]), the wait predicate ([*_ready]) and the atomic
step after it ([*_grant]).  [cond.notify_all] has no effect on the
state. *)

Module Lock.
  Local Open Scope Z_scope.

Inductive TransactionState := GROWING | SHRINKING | COMMITTED | ABORTED.
Inductive LockMode := SHARED | EXCLUSIVE.

#[global] Instance TransactionState_eq_dec : EqDecision TransactionState.
Proof. solve_decision. Defined.
#[global] Instance LockMode_eq_dec : EqDecision LockMode.
Proof. solve_decision. Defined.

(** [RID]: page id and slot number. *)
Definition RID : Type := Z * Z.

(** Modelled from the spec: the Transaction class (transaction.h is not
    part of the sources): an id, where a lower id is an older transaction,
    a state, and the two sets of locked records. *)
Record Transaction := mkTxn {
  txn_id : Z;
  state : TransactionState;
  shared_lock_set : gset RID;
  exclusive_lock_set : gset RID
}.

Definition SetState (t : Transaction) (st : TransactionState) :=
  {| txn_id := txn_id t; state := st;
     shared_lock_set := shared_lock_set t;
     exclusive_lock_set := exclusive_lock_set t |}.

(** Modelled from the spec: the Request and Waiting structs of
    lock_manager.h (not part of the sources); [exclusive_cnt] is an
    unsigned 32-bit counter that starts at 0. *)
Record Request := mkReq {
  r_txn_id : Z;
  mode : LockMode;
  granted : bool
}.

Record Waiting := mkWaiting {
  exclusive_cnt : Z;
  oldest : Z;
  w_list : list Request   (* std::list<Request> list *)
}.

Definition Waiting_default : Waiting := mkWaiting 0 0 [].

Record LockManager := mkLM {
  strict_2PL_ : bool;
  lock_table_ : gmap RID Waiting
}.

Definition set_table (lm : LockManager) (tb : gmap RID Waiting) :=
  {| strict_2PL_ := strict_2PL_ lm; lock_table_ := tb |}.

(** [lock_table_[rid]]: operator[] inserts a default entry when absent. *)
Definition at_rid (tb : gmap RID Waiting) (rid : RID) : Waiting :=
  default Waiting_default (tb !! rid).

Definition u32 (z : Z) : Z := z mod 2 ^ 32.

(** What a call has done when it gives up the mutex. *)
Inductive Step :=
| Return (b : bool) (t : Transaction) (lm : LockManager)
| Wait (t : Transaction) (lm : LockManager).

(** The wait predicate of [LockShared] (the same in both revisions):
    every request before ours is shared and granted. *)
Fixpoint shared_scan (l : list Request) (id : Z) : bool :=
  match l with
  | [] => false
  | r :: l' =>
      if bool_decide (r_txn_id r ≠ id) then
        if bool_decide (mode r ≠ SHARED) || negb (granted r) then false
        else shared_scan l' id
      else true
  end.

Definition LockShared_ready (lm : LockManager) (t : Transaction) (rid : RID)
  : bool :=
  shared_scan (w_list (at_rid (lock_table_ lm) rid)) (txn_id t).

(** [cur->granted = true] for the first request of the transaction. *)
Fixpoint grant_first (l : list Request) (id : Z) : list Request :=
  match l with
  | [] => []
  | r :: l' =>
      if bool_decide (r_txn_id r = id)
      then mkReq (r_txn_id r) (mode r) true :: l'
      else r :: grant_first l' id
  end.

Definition LockShared_grant (lm : LockManager) (t : Transaction) (rid : RID)
  : bool * Transaction * LockManager :=
  let w := at_rid (lock_table_ lm) rid in
  let w' := mkWaiting (exclusive_cnt w) (oldest w)
              (grant_first (w_list w) (txn_id t)) in
  (true,
   {| txn_id := txn_id t; state := state t;
      shared_lock_set := {[ rid ]} ∪ shared_lock_set t;
      exclusive_lock_set := exclusive_lock_set t |},
   set_table lm (<[ rid := w' ]> (lock_table_ lm))).

(** The wait predicate of [LockExclusive] and [LockUpgrade]:
    [list.front().txn_id == txn id]; [front()] of an empty list is
    undefined. *)
Definition front_ready (lm : LockManager) (t : Transaction) (rid : RID)
  : Res bool :=
  match w_list (at_rid (lock_table_ lm) rid) with
  | [] => Fail IndexOutOfBounds
  | r :: _ => Ok (bool_decide (r_txn_id r = txn_id t))
  end.

Definition LockExclusive_grant (lm : LockManager) (t : Transaction)
    (rid : RID) : Res (bool * Transaction * LockManager) :=
  let w := at_rid (lock_table_ lm) rid in
  match w_list w with
  | [] => Fail IndexOutOfBounds
  | r :: l' =>
      let* _ := assert (bool_decide (r_txn_id r = txn_id t)) in
      let w' := mkWaiting (exclusive_cnt w) (oldest w)
                  (mkReq (r_txn_id r) (mode r) true :: l') in
      Ok (true,
          {| txn_id := txn_id t; state := state t;
             shared_lock_set := shared_lock_set t;
             exclusive_lock_set := {[ rid ]} ∪ exclusive_lock_set t |},
          set_table lm (<[ rid := w' ]> (lock_table_ lm)))
  end.

(** [LockUpgrade] is the same in both revisions: the entry step only
    checks the state, the step after the wait rewrites the head request. *)
Definition LockUpgrade_enter (lm : LockManager) (t : Transaction) (rid : RID)
  : Res Step :=
  if bool_decide (state t = ABORTED) then Ok (Return false t lm)
  else
    let* _ := assert (bool_decide (state t = GROWING)) in
    Ok (Wait t lm).

Definition LockUpgrade_grant (lm : LockManager) (t : Transaction) (rid : RID)
  : Res (bool * Transaction * LockManager) :=
  let w := at_rid (lock_table_ lm) rid in
  match w_list w with
  | [] => Fail IndexOutOfBounds
  | r :: l' =>
      let* _ := assert (bool_decide (r_txn_id r = txn_id t)
                        && bool_decide (mode r = SHARED) && granted r) in
      let w' := mkWaiting (exclusive_cnt w) (oldest w)
                  (mkReq (r_txn_id r) EXCLUSIVE (granted r) :: l') in
      Ok (true,
          {| txn_id := txn_id t; state := state t;
             shared_lock_set := shared_lock_set t ∖ {[ rid ]};
             exclusive_lock_set := {[ rid ]} ∪ exclusive_lock_set t |},
          set_table lm (<[ rid := w' ]> (lock_table_ lm)))
  end.

(** The position and the request of the first entry of the transaction
    in the queue (the loop of [Unlock]). *)
Fixpoint find_req (l : list Request) (id : Z) (i : nat)
  : option (nat * Request) :=
  match l with
  | [] => None
  | r :: l' =>
      if bool_decide (r_txn_id r = id) then Some (i, r)
      else find_req l' id (S i)
  end.

(** The guard of [Unlock] under strict 2PL, as written:
    [state != COMMITTED || state != ABORTED]. *)
Definition strict_guard (st : TransactionState) : bool :=
  bool_decide (st ≠ COMMITTED) || bool_decide (st ≠ ABORTED).

(** The part of [Unlock] before the queue is touched (the same in both
    revisions): [inl] is the early [return false]. *)
Definition Unlock_state (lm : LockManager) (t : Transaction)
  : Transaction + Transaction :=
  if strict_2PL_ lm then
    if strict_guard (state t) then inl (SetState t ABORTED) else inr t
  else
    if bool_decide (state t = GROWING) then inr (SetState t SHRINKING)
    else inr t.

(** A call that does not have to wait runs to completion; [None] is a
    caller left blocked in [cond.wait]. *)
Definition finish
    (ready : LockManager -> Transaction -> Res bool)
    (grant : LockManager -> Transaction
             -> Res (bool * Transaction * LockManager))
    (st : Step) : Res (option (bool * Transaction * LockManager)) :=
  match st with
  | Return b t lm => Ok (Some (b, t, lm))
  | Wait t lm =>
      let* r := ready lm t in
      if r then let* g := grant lm t in Ok (Some g) else Ok None
  end.

Definition finish_shared (rid : RID) :=
  finish (fun lm t => Ok (LockShared_ready lm t rid))
         (fun lm t => Ok (LockShared_grant lm t rid)).
Definition finish_exclusive (rid : RID) :=
  finish (fun lm t => front_ready lm t rid)
         (fun lm t => LockExclusive_grant lm t rid).
Definition finish_upgrade (rid : RID) :=
  finish (fun lm t => front_ready lm t rid)
         (fun lm t => LockUpgrade_grant lm t rid).

(** *** First revision (lines 10-166) *)
Module V1.

Definition LockShared_enter (lm : LockManager) (t : Transaction)
    (rid : RID) : Res Step :=
  if bool_decide (state t = ABORTED) then Ok (Return false t lm)
  else
    let* _ := assert (bool_decide (state t = GROWING)) in
    let req := mkReq (txn_id t) SHARED false in
    match lock_table_ lm !! rid with
    | None =>
        let waiting := mkWaiting 0 (txn_id t) [req] in
        Ok (Wait t (set_table lm (<[ rid := waiting ]> (lock_table_ lm))))
    | Some w =>
        if bool_decide (exclusive_cnt w ≠ 0)
           && bool_decide (txn_id t > oldest w)%Z
        then Ok (Return false (SetState t ABORTED) lm)
        else
          let o := if bool_decide (oldest w > txn_id t)%Z
                   then txn_id t else oldest w in
          let w' := mkWaiting (exclusive_cnt w) o (w_list w ++ [req]) in
          Ok (Wait t (set_table lm (<[ rid := w' ]> (lock_table_ lm))))
    end.

Definition LockExclusive_enter (lm : LockManager) (t : Transaction)
    (rid : RID) : Res Step :=
  if bool_decide (state t = ABORTED) then Ok (Return false t lm)
  else
    let* _ := assert (bool_decide (state t = GROWING)) in
    let req := mkReq (txn_id t) EXCLUSIVE false in
    match lock_table_ lm !! rid with
    | None =>
        (* ++lock_table_[rid].exclusive_cnt on the fresh entry *)
        let waiting := mkWaiting (u32 (0 + 1)) (txn_id t) [req] in
        Ok (Wait t (set_table lm (<[ rid := waiting ]> (lock_table_ lm))))
    | Some w =>
        if bool_decide (txn_id t > oldest w)%Z
        then Ok (Return false (SetState t ABORTED) lm)
        else
          let w' := mkWaiting (u32 (exclusive_cnt w + 1)) (txn_id t)
                      (w_list w ++ [req]) in
          Ok (Wait t (set_table lm (<[ rid := w' ]> (lock_table_ lm))))
    end.

Definition Unlock (lm : LockManager) (t : Transaction) (rid : RID)
  : Res (bool * Transaction * LockManager) :=
  match Unlock_state lm t with
  | inl t' => Ok (false, t', lm)
  | inr t' =>
      let* _ := assert (bool_decide (is_Some (lock_table_ lm !! rid))) in
      let w := at_rid (lock_table_ lm) rid in
      match find_req (w_list w) (txn_id t') 0%nat with
      | Some (i, r) =>
          let cnt := if bool_decide (mode r = EXCLUSIVE)
                     then u32 (exclusive_cnt w - 1) else exclusive_cnt w in
          let w' := mkWaiting cnt (oldest w) (delete i (w_list w)) in
          Ok (true, t', set_table lm (<[ rid := w' ]> (lock_table_ lm)))
      | None => Ok (true, t', lm)
      end
  end.

Definition LockShared lm t rid :=
  let* st := LockShared_enter lm t rid in finish_shared rid st.

Definition LockExclusive lm t rid :=
  let* st := LockExclusive_enter lm t rid in finish_exclusive rid st.

Definition LockUpgrade lm t rid :=
  let* st := LockUpgrade_enter lm t rid in finish_upgrade rid st.

End V1.

(** *** Second revision (lines 178-332); it keeps no [exclusive_cnt] *)
Module V2.

Definition enter (m : LockMode) (lm : LockManager) (t : Transaction)
    (rid : RID) : Res Step :=
  if bool_decide (state t = ABORTED) then Ok (Return false t lm)
  else
    let* _ := assert (bool_decide (state t = GROWING)) in
    let req := mkReq (txn_id t) m false in
    match lock_table_ lm !! rid with
    | None =>
        let waiting := mkWaiting 0 (txn_id t) [req] in
        Ok (Wait t (set_table lm (<[ rid := waiting ]> (lock_table_ lm))))
    | Some w =>
        if bool_decide (txn_id t > oldest w)%Z
        then Ok (Return false (SetState t ABORTED) lm)
        else
          let w' := mkWaiting (exclusive_cnt w) (txn_id t)
                      (w_list w ++ [req]) in
          Ok (Wait t (set_table lm (<[ rid := w' ]> (lock_table_ lm))))
    end.

Definition LockShared_enter := enter SHARED.
Definition LockExclusive_enter := enter EXCLUSIVE.

Definition Unlock (lm : LockManager) (t : Transaction) (rid : RID)
  : Res (bool * Transaction * LockManager) :=
  match Unlock_state lm t with
  | inl t' => Ok (false, t', lm)
  | inr t' =>
      let* _ := assert (bool_decide (is_Some (lock_table_ lm !! rid))) in
      let w := at_rid (lock_table_ lm) rid in
      match find_req (w_list w) (txn_id t') 0%nat with
      | Some (i, r) =>
          let is_last := bool_decide (S i = length (w_list w)) in
          let l' := delete i (w_list w) in
          let o := match is_last, last l' with
                   | true, Some e => r_txn_id e
                   | _, _ => oldest w
                   end in
          let w' := mkWaiting (exclusive_cnt w) o l' in
          Ok (true, t', set_table lm (<[ rid := w' ]> (lock_table_ lm)))
      | None => Ok (true, t', lm)
      end
  end.

Definition LockShared lm t rid :=
  let* st := LockShared_enter lm t rid in finish_shared rid st.

Definition LockExclusive lm t rid :=
  let* st := LockExclusive_enter lm t rid in finish_exclusive rid st.

End V2.

(** *** Checks on a wait queue

    Boolean checks used to state what the operations keep. *)

(** The requests of the queue of [rid]. *)
Definition queue (lm : LockManager) (rid : RID) : list Request :=
  w_list (at_rid (lock_table_ lm) rid).

(** The lock manager a step leaves behind. *)
Definition lm_of (st : Step) : LockManager :=
  match st with
  | Return _ _ lm => lm
  | Wait _ lm => lm
  end.

(** What an entry step does to the queue of [rid]: nothing, or one request
    of the caller, not granted, at the back. *)
Definition enters (f : LockManager -> Transaction -> RID -> Res Step)
    (m : LockMode) : Prop :=
  forall lm t rid st,
    f lm t rid = Ok st ->
    queue (lm_of st) rid = queue lm rid \/
    queue (lm_of st) rid = queue lm rid ++ [mkReq (txn_id t) m false].

(** No request of the queue is granted. *)
Definition waiting (l : list Request) : bool :=
  forallb (fun r => negb (granted r)) l.

(** Granted shared requests, then requests that are not granted. *)
Fixpoint shared_prefix (l : list Request) : bool :=
  match l with
  | [] => true
  | r :: l' =>
      if granted r then bool_decide (mode r = SHARED) && shared_prefix l'
      else waiting l'
  end.

(** The granted requests are compatible: either the head alone is granted
    and exclusive, or the granted requests are shared and at the front. *)
Definition compatible (l : list Request) : bool :=
  match l with
  | [] => true
  | r :: l' =>
      if granted r && bool_decide (mode r = EXCLUSIVE) then waiting l'
      else shared_prefix l
  end.

(** The transaction has no request in the queue. *)
Definition absent (id : Z) (l : list Request) : bool :=
  forallb (fun r => bool_decide (r_txn_id r <> id)) l.


(** What a request contributes to the number of exclusive requests. *)
Definition weight (r : Request) : Z :=
  if bool_decide (mode r = EXCLUSIVE) then 1 else 0.

(** The number of exclusive requests of a queue. *)
Definition count_exclusive (l : list Request) : Z :=
  Z.of_nat (length (filter (fun r => mode r = EXCLUSIVE) l)).

(** [exclusive_cnt] is the number of exclusive requests. *)
Definition counted (w : Waiting) : bool :=
  bool_decide (exclusive_cnt w = count_exclusive (w_list w)).




End Lock.

(** ** Extendible hash table (hash/extendible_hash.cpp)

Keys are integers ([page_id_t], [int]).  Buckets live in [store] and
are named by their address there: directory slots and [next] links are
[std::shared_ptr]s, so several slots may name one bucket and a change to
it is seen through all of them.  [None] is a null pointer. *)

Module Hash.
  Local Open Scope Z_scope.

(** [sizeof(size_t)] on the LP64 targets the project builds for, and the
    number of bits of a [size_t]. *)
Definition sizeof_size_t : Z := 8.
Definition size_t_bits : Z := sizeof_size_t * 8.

(** [1 << n] on [int]: defined here for [0 <= n <= 30] only. *)
Definition int_shl1 (n : Z) : Res Z :=
  if bool_decide (0 <= n < 31) then Ok (2 ^ n) else Fail UndefinedShift.

Section Table.
  Context {V : Type}.
  (** [std::hash<K>()(key)], a [size_t] value. *)
  Variable HashKey : Z -> Z.

(** [std::map<K, V>]: an association list kept in increasing key order. *)
Definition Items : Type := list (Z * V).

Fixpoint map_find (k : Z) (m : Items) : option V :=
  match m with
  | [] => None
  | (k', v) :: m' => if bool_decide (k' = k) then Some v else map_find k m'
  end.

(** [m.insert({k, v})]: no effect when [k] is present. *)
Fixpoint map_insert (k : Z) (v : V) (m : Items) : Items :=
  match m with
  | [] => [(k, v)]
  | (k', v') :: m' =>
      if bool_decide (k < k') then (k, v) :: m
      else if bool_decide (k = k') then m
      else (k', v') :: map_insert k v m'
  end.

(** [m[k] = v] for a key that is present. *)
Fixpoint map_assign (k : Z) (v : V) (m : Items) : Items :=
  match m with
  | [] => []
  | (k', v') :: m' =>
      if bool_decide (k' = k) then (k', v) :: m'
      else (k', v') :: map_assign k v m'
  end.

(** [m.erase(k)]: the number of erased entries and the map. *)
Fixpoint map_erase (k : Z) (m : Items) : Z * Items :=
  match m with
  | [] => (0, [])
  | (k', v') :: m' =>
      if bool_decide (k' = k) then (1, m')
      else let '(c, r) := map_erase k m' in (c, (k', v') :: r)
  end.

(** Modelled from the spec: the Bucket struct of extendible_hash.h (not
    part of the sources), with the members the .cpp file uses. *)
Record Bucket := mkBucket {
  id : Z;                   (* size_t id *)
  depth : Z;                (* int depth: the local depth *)
  items : Items;
  next : option nat         (* std::shared_ptr<Bucket> next: overflow *)
}.

(** The members of ExtendibleHash that the .cpp file uses, and the store
    of the buckets. *)
Record ExtendibleHash := mkHash {
  bucket_size_ : Z;
  bucket_count_ : Z;
  gdepth : Z;                       (* int depth: the global depth *)
  buckets_ : list (option nat);     (* the directory *)
  store : list Bucket               (* the buckets, by address *)
}.

(** [ExtendibleHash(size)] *)
Definition init (size : Z) : ExtendibleHash :=
  {| bucket_size_ := size; bucket_count_ := 1; gdepth := 0;
     buckets_ := [Some 0%nat]; store := [mkBucket 0 0 [] None] |}.

Definition deref (st : list Bucket) (p : option nat) : Res (nat * Bucket) :=
  match p with
  | None => Fail NullDeref
  | Some a =>
      match st !! a with
      | Some b => Ok (a, b)
      | None => Fail UseAfterFree
      end
  end.

(** [buckets_[i]] *)
Definition slot (dir : list (option nat)) (i : Z) : Res (option nat) :=
  if bool_decide (0 <= i) then
    match dir !! Z.to_nat i with
    | Some p => Ok p
    | None => Fail IndexOutOfBounds
    end
  else Fail IndexOutOfBounds.

Definition set_slot (dir : list (option nat)) (i : Z) (p : option nat)
  : Res (list (option nat)) :=
  let* _ := slot dir i in
  Ok (<[ Z.to_nat i := p ]> dir).

Definition GetGlobalDepth (h : ExtendibleHash) : Z := gdepth h.

Definition GetLocalDepth (h : ExtendibleHash) (bucket_id : Z) : Res Z :=
  let* _ := assert (bool_decide (0 <= bucket_id
                                 < Z.of_nat (length (buckets_ h)))) in
  let* p := slot (buckets_ h) bucket_id in
  match p with
  | Some _ => let* (_, b) := deref (store h) p in Ok (depth b)
  | None => Ok (-1)
  end.

Definition GetNumBuckets (h : ExtendibleHash) : Z := bucket_count_ h.

Definition bucketIndex (h : ExtendibleHash) (key : Z) : Res Z :=
  let* m := int_shl1 (gdepth h) in
  Ok (Z.land (HashKey key) (m - 1)).

(** The loop [while (bucket->next)] of [Find], started at [bucket]. *)
Fixpoint find_chain (fuel : nat) (st : list Bucket) (bucket : Bucket)
    (key : Z) : Res (option V) :=
  match next bucket with
  | None => Ok None
  | Some _ =>
      match fuel with
      | O => Fail OutOfFuel
      | S fuel' =>
          let* (_, nxt) := deref st (next bucket) in
          match map_find key (items nxt) with
          | Some v => Ok (Some v)
          | None => find_chain fuel' st nxt key
          end
      end
  end.

(** [bool Find(key, value)]: [Some v] is [true] with [value = v]. *)
Definition Find (h : ExtendibleHash) (key : Z) : Res (option V) :=
  let* index := bucketIndex h key in
  let* p := slot (buckets_ h) index in
  match p with
  | Some _ =>
      let* (_, bucket) := deref (store h) p in
      match map_find key (items bucket) with
      | Some v => Ok (Some v)
      | None => find_chain (length (store h)) (store h) bucket key
      end
  | None => Ok None
  end.

Definition set_items (b : Bucket) (m : Items) : Bucket :=
  mkBucket (id b) (depth b) m (next b).

(** The loop [while (bucket->next)] of [Remove]. *)
Fixpoint remove_chain (fuel : nat) (st : list Bucket) (bucket : Bucket)
    (key : Z) (cnt : Z) : Res (Z * list Bucket) :=
  match next bucket with
  | None => Ok (cnt, st)
  | Some _ =>
      match fuel with
      | O => Fail OutOfFuel
      | S fuel' =>
          let* (a, nxt) := deref st (next bucket) in
          let '(c, m) := map_erase key (items nxt) in
          let nxt' := set_items nxt m in
          remove_chain fuel' (<[ a := nxt' ]> st) nxt' key (cnt + c)
      end
  end.

Definition Remove (h : ExtendibleHash) (key : Z)
  : Res (bool * ExtendibleHash) :=
  let* index := bucketIndex h key in
  let* p := slot (buckets_ h) index in
  match p with
  | Some _ =>
      let* (a, bucket) := deref (store h) p in
      let '(c, m) := map_erase key (items bucket) in
      let bucket' := set_items bucket m in
      let* (cnt, st) :=
        remove_chain (length (store h)) (<[ a := bucket' ]> (store h))
                     bucket' key c in
      Ok (negb (cnt =? 0),
          mkHash (bucket_size_ h) (bucket_count_ h) (gdepth h)
                 (buckets_ h) st)
  | None => Ok (false, h)
  end.

(** One pass of the [for] loop of [split] over the items of [b], at the
    already incremented local depth [d]: the items whose hash has bit
    [d - 1] set move to [res], and each move overwrites [res->id].
    Returns what stays in [b], the items of [res] and [res->id]. *)
Fixpoint scatter (d : Z) (its : Items) (res_items : Items) (res_id : Z)
  : Res (Items * Items * Z) :=
  match its with
  | [] => Ok ([], res_items, res_id)
  | (k, v) :: rest =>
      let* m := int_shl1 (d - 1) in
      if bool_decide (Z.land (HashKey k) m ≠ 0) then
        let* m' := int_shl1 d in
        scatter d rest (map_insert k v res_items)
                (Z.land (HashKey k) (m' - 1))
      else
        let* (kept, ri, rid) := scatter d rest res_items res_id in
        Ok ((k, v) :: kept, ri, rid)
  end.

(** The loop [while (res->items.empty())] of [split]. *)
Fixpoint split_loop (fuel : nat) (b res : Bucket) : Res (Bucket * Bucket) :=
  if bool_decide (items res = []) then
    match fuel with
    | O => Fail OutOfFuel
    | S fuel' =>
        let d := depth b + 1 in
        let* (kept, ri, rid) := scatter d (items b) (items res) (id res) in
        let b1 := mkBucket (id b) d kept (next b) in
        let res1 := mkBucket rid (depth res + 1) ri (next res) in
        let '(b2, res2) :=
          if bool_decide (items b1 = []) then
            (* b->items.swap(res->items); b->id = res->id *)
            (mkBucket (id res1) (depth b1) (items res1) (next b1),
             mkBucket (id res1) (depth res1) [] (next res1))
          else (b1, res1) in
        if bool_decide (depth b2 = sizeof_size_t) then Ok (b2, res2)
        else split_loop fuel' b2 res2
    end
  else Ok (b, res).

(** The address of the last bucket of the chain starting at [a]. *)
Fixpoint chain_end (fuel : nat) (st : list Bucket) (a : nat) : Res nat :=
  let* (_, b) := deref st (Some a) in
  match next b with
  | None => Ok a
  | Some a' =>
      match fuel with
      | O => Fail OutOfFuel
      | S fuel' => chain_end fuel' st a'
      end
  end.

(** [split(b)]: [None] is the [nullptr] returned after chaining an
    overflow bucket, [Some r] the address of the new bucket. *)
Definition split (h : ExtendibleHash) (a : nat)
  : Res (option nat * ExtendibleHash) :=
  let* (_, b) := deref (store h) (Some a) in
  let r := length (store h) in
  let* (b', res') := split_loop 64 b (mkBucket 0 (depth b) [] None) in
  let st := <[ a := b' ]> (store h) ++ [res'] in
  let cnt := bucket_count_ h + 1 in
  if bool_decide (depth b' = sizeof_size_t) then
    let* e := chain_end (length st) st a in
    let* (_, last) := deref st (Some e) in
    let st' := <[ e := mkBucket (id last) (depth last) (items last)
                               (Some r) ]> st in
    Ok (None, mkHash (bucket_size_ h) cnt (gdepth h) (buckets_ h) st')
  else
    Ok (Some r, mkHash (bucket_size_ h) cnt (gdepth h) (buckets_ h) st).

(** The inner loop [for (j = i + size; j < buckets_.size(); j += size)
    buckets_[j] = buckets_[i]] with [n] remaining values of [j]. *)
Fixpoint copy_slot (n : nat) (size i j : nat) (dir : list (option nat))
  : list (option nat) :=
  match n with
  | O => dir
  | S n' =>
      if bool_decide (j < length dir)%nat then
        copy_slot n' size i (j + size)%nat
                  (<[ j := default None (dir !! i) ]> dir)
      else dir
  end.

(** The outer loop [for (i = 0; i < size; ++i)], skipping the slots that
    name the bucket being split. *)
Fixpoint copy_slots (idx : list nat) (size : nat) (bucket : nat)
    (dir : list (option nat)) : list (option nat) :=
  match idx with
  | [] => dir
  | i :: idx' =>
      let dir' :=
        if bool_decide (default None (dir !! i) ≠ Some bucket)
        then copy_slot (length dir) size i (i + size)%nat dir
        else dir in
      copy_slots idx' size bucket dir'
  end.

Definition Insert (h : ExtendibleHash) (key : Z) (value : V)
  : Res ExtendibleHash :=
  let* bucket_id := bucketIndex h key in
  let* p := slot (buckets_ h) bucket_id in
  (* if (buckets_[bucket_id] == nullptr) ... make_shared<Bucket> *)
  let* (a, h1) :=
    match p with
    | Some a => Ok (a, h)
    | None =>
        let a := length (store h) in
        let* dir := set_slot (buckets_ h) bucket_id (Some a) in
        Ok (a, mkHash (bucket_size_ h) (bucket_count_ h + 1) (gdepth h) dir
                      (store h ++ [mkBucket bucket_id (gdepth h) [] None]))
    end in
  let* (_, bucket) := deref (store h1) (Some a) in
  match map_find key (items bucket) with
  | Some _ =>
      (* already in bucket, override *)
      let b' := set_items bucket (map_assign key value (items bucket)) in
      Ok (mkHash (bucket_size_ h1) (bucket_count_ h1) (gdepth h1)
                 (buckets_ h1) (<[ a := b' ]> (store h1)))
  | None =>
      let b' := set_items bucket (map_insert key value (items bucket)) in
      let h2 := mkHash (bucket_size_ h1) (bucket_count_ h1) (gdepth h1)
                       (buckets_ h1) (<[ a := b' ]> (store h1)) in
      if bool_decide (Z.of_nat (length (items b')) > bucket_size_ h2) then
        let* (nb, h3) := split h2 a in
        match nb with
        | None => Ok h3
        | Some r =>
            let* (_, bucket) := deref (store h3) (Some a) in
            let* (_, new_bucket) := deref (store h3) (Some r) in
            let* h4 :=
              if bool_decide (depth bucket > gdepth h3) then
                let size := length (buckets_ h3) in
                let* factor := int_shl1 (depth bucket - gdepth h3) in
                let dir1 := buckets_ h3
                            ++ replicate (size * (Z.to_nat factor - 1)) None in
                let dir2 := copy_slots (seq 0 size) size a dir1 in
                let* dir3 :=
                  if bool_decide (id bucket ≠ bucket_id) then
                    let* d := set_slot dir2 bucket_id None in
                    set_slot d (id bucket) (Some a)
                  else Ok dir2 in
                Ok (mkHash (bucket_size_ h3) (bucket_count_ h3)
                           (depth bucket) dir3 (store h3))
              else Ok h3 in
            let* dir := set_slot (buckets_ h4) (id new_bucket) (Some r) in
            Ok (mkHash (bucket_size_ h4) (bucket_count_ h4) (gdepth h4)
                       dir (store h4))
        end
      else Ok h2
  end.

(** Run a list of insertions from left to right. *)
Fixpoint insert_all (h : ExtendibleHash) (kvs : list (Z * V))
  : Res ExtendibleHash :=
  match kvs with
  | [] => Ok h
  | (k, v) :: rest => let* h' := Insert h k v in insert_all h' rest
  end.

End Table.

(** [std::hash<int>] of libstdc++ is the conversion to [size_t]; the
    expectations of extendible_hash_test.cpp rely on it. *)
Definition hash_int (k : Z) : Z := k mod 2 ^ 64.

End Hash.

(** ** B+ tree index (index/b_plus_tree.cpp, index/index_iterator.cpp)

A page pointer is the id under which the buffer pool holds the page;
[GetPageId] is the [page_id] field of the page header, which is a
different thing for a page that was never initialised.  Keys are
integers (a [GenericKey] set from an integer, ordered by the
comparator), values are record ids. *)

Module BTree.
  Local Open Scope Z_scope.

Definition INVALID_PAGE_ID : Z := -1.
Definition HEADER_PAGE_ID : Z := 0.

Inductive IndexPageType := INVALID_INDEX_PAGE | LEAF_PAGE | INTERNAL_PAGE.

#[global] Instance IndexPageType_eq_dec : EqDecision IndexPageType.
Proof. solve_decision. Defined.

(** Modelled from the spec: the page layouts (b_plus_tree_page.h,
    b_plus_tree_leaf_page.h, b_plus_tree_internal_page.h and
    header_page.h are not part of the sources).  A page has the header
    fields of the spec's data model and a body: the sorted array of a
    leaf with its sibling link, the array of an internal page (the key of
    entry 0 is unused), the records of the header page, or the all-zero
    bytes that [NewPage] hands out.  [size] is the length of the array.
    The byte layout is not modelled: a member function of one page class
    applied to the body of another one is the fault [TypeConfusion]. *)
Inductive Body :=
| Zeroed
| LeafBody (next_page_id : Z) (array : list (Z * Z))
| InternalBody (array : list (Z * Z))
| HeaderBody (records : list (string * Z)).

Record Page := mkPage {
  page_type : IndexPageType;
  max_size : Z;
  parent_page_id : Z;
  page_id : Z;
  body : Body
}.

(** Modelled from the spec: the page [new_page] hands out after resetting
    its contents: the header fields and the body are all zero. *)
Definition zero_page : Page := mkPage INVALID_INDEX_PAGE 0 0 0 Zeroed.

(** Modelled from the spec: the buffer pool manager
    (buffer_pool_manager.cpp is not part of the sources), with a pool
    large enough that a frame is always available, so that neither
    [FetchPage] nor [NewPage] returns [nullptr] for want of a frame.
    [pages] holds every page that exists, in a frame or on disk: a fetch
    gives the same contents and the same pin either way, so the two are
    not told apart.  [FetchPage] pins the page it is asked for, [NewPage]
    hands out a zeroed page under the next fresh id with pin count 1,
    [UnpinPage] returns false when the pin count is 0 and decrements it
    otherwise, [DeletePage] refuses a pinned page. *)
Record BufferPoolManager := mkBPM {
  pages : gmap Z Page;
  pin_count : gmap Z Z;
  next_page_id : Z
}.

Record BPlusTree := mkTree {
  index_name_ : string;
  root_page_id_ : Z;
  buffer_pool_manager_ : BufferPoolManager
}.

Definition pins (t : BPlusTree) (p : Z) : Z :=
  default 0 (pin_count (buffer_pool_manager_ t) !! p).

(** *** The monad of tree operations: state and faults *)

Definition M (A : Type) : Type := BPlusTree -> Res (A * BPlusTree).
Definition ret {A} (a : A) : M A := fun t => Ok (a, t).
Definition bind {A B} (m : M A) (k : A -> M B) : M B :=
  fun t => match m t with
           | Ok (a, t') => k a t'
           | Fail f => Fail f
           end.
Definition throw {A} (f : Fault) : M A := fun _ => Fail f.
Definition lift {A} (r : Res A) : M A :=
  fun t => match r with Ok a => Ok (a, t) | Fail f => Fail f end.

Notation "'let!' x ':=' m 'in' k" := (bind m (fun x => k))
  (at level 10, x pattern, m at level 100, k at level 200).
Notation "m ';;' k" := (bind m (fun _ => k))
  (at level 100, k at level 200, right associativity).

Definition get_root : M Z := fun t => Ok (root_page_id_ t, t).
Definition set_root (r : Z) : M unit :=
  fun t => Ok (tt, mkTree (index_name_ t) r (buffer_pool_manager_ t)).
Definition get_name : M string := fun t => Ok (index_name_ t, t).
Definition with_bpm {A} (f : BufferPoolManager -> A * BufferPoolManager)
  : M A :=
  fun t => let '(a, b) := f (buffer_pool_manager_ t) in
           Ok (a, mkTree (index_name_ t) (root_page_id_ t) b).

(** Modelled from the spec: [FetchPage(page_id)] of the buffer pool manager.
    The page is pinned once more and returned, whether it was in a frame
    or is read from disk.  [None] is [nullptr], which the spec returns
    only when every frame is pinned: with a frame always available this
    does not happen.  What a read gives for a page id under which no page
    was ever written is the disk manager's business and is not modelled:
    such a fetch is the fault [NoSuchPage]. *)
Definition FetchPage (p : Z) : M (option Z) :=
  fun t =>
    match pages (buffer_pool_manager_ t) !! p with
    | Some _ =>
        with_bpm (fun b =>
          (Some p, mkBPM (pages b)
                     (<[ p := default 0 (pin_count b !! p) + 1 ]> (pin_count b))
                     (next_page_id b))) t
    | None => Fail NoSuchPage
    end.

(** Modelled from the spec: [NewPage(page_id)] of the buffer pool manager.
    Returns the pointer to a zeroed page with pin count 1; the pointer is
    also the id written to the argument. *)
Definition NewPage : M (option Z) :=
  with_bpm (fun b =>
    let p := next_page_id b in
    (Some p, mkBPM (<[ p := zero_page ]> (pages b))
               (<[ p := 1 ]> (pin_count b)) (p + 1))).

(** Modelled from the spec: [UnpinPage(page_id, is_dirty)] of the buffer pool
    manager: false when the page is not pinned, one pin less otherwise. *)
Definition UnpinPage (p : Z) (is_dirty : bool) : M bool :=
  with_bpm (fun b =>
    match pages b !! p with
    | Some _ =>
        let c := default 0 (pin_count b !! p) in
        if bool_decide (c <= 0) then (false, b)
        else (true, mkBPM (pages b) (<[ p := c - 1 ]> (pin_count b))
                      (next_page_id b))
    | None => (false, b)
    end).

(** Modelled from the spec: [DeletePage(page_id)] of the buffer pool manager:
    refuses a pinned page, drops the page otherwise. *)
Definition DeletePage (p : Z) : M bool :=
  with_bpm (fun b =>
    if bool_decide (0 < default 0 (pin_count b !! p)) then (false, b)
    else (true, mkBPM (delete p (pages b)) (delete p (pin_count b))
                  (next_page_id b))).

(** Reading and writing the page behind a pointer. *)
Definition deref (p : option Z) : M (Z * Page) :=
  fun t =>
    match p with
    | None => Fail NullDeref
    | Some a =>
        match pages (buffer_pool_manager_ t) !! a with
        | Some pg => Ok ((a, pg), t)
        | None => Fail UseAfterFree
        end
    end.

Definition load (a : Z) : M Page :=
  let! (_, pg) := deref (Some a) in ret pg.

Definition store (a : Z) (pg : Page) : M unit :=
  with_bpm (fun b =>
    (tt, mkBPM (<[ a := pg ]> (pages b)) (pin_count b) (next_page_id b))).

(** The tree [t] with one more pin on page [p]. *)
Definition pinned (t : BPlusTree) (p : Z) : BPlusTree :=
  mkTree (index_name_ t) (root_page_id_ t)
    (mkBPM (pages (buffer_pool_manager_ t))
       (<[ p := pins t p + 1 ]> (pin_count (buffer_pool_manager_ t)))
       (next_page_id (buffer_pool_manager_ t))).

(** *** Header fields (BPlusTreePage) *)

(** Modelled from the spec: [IsLeafPage()] of BPlusTreePage. *)
Definition IsLeafPage (pg : Page) : bool :=
  bool_decide (page_type pg = LEAF_PAGE).

(** Modelled from the spec: [IsRootPage()] of BPlusTreePage: the page has
    no parent. *)
Definition IsRootPage (pg : Page) : bool :=
  bool_decide (parent_page_id pg = INVALID_PAGE_ID).

(** Modelled from the spec: the getters of the header fields. *)
Definition GetPageId (pg : Page) : Z := page_id pg.
Definition GetParentPageId (pg : Page) : Z := parent_page_id pg.
Definition GetMaxSize (pg : Page) : Z := max_size pg.

(** Modelled from the spec: [get_min_size() = ceil(max_size / 2)]. *)
Definition GetMinSize (pg : Page) : Z := (max_size pg + 1) / 2.

(** Modelled from the spec: [GetSize()], the number of entries in use. *)
Definition GetSize (pg : Page) : Z :=
  match body pg with
  | Zeroed => 0
  | LeafBody _ a => Z.of_nat (length a)
  | InternalBody a => Z.of_nat (length a)
  | HeaderBody r => Z.of_nat (length r)
  end.

Definition set_body (pg : Page) (b : Body) : Page :=
  mkPage (page_type pg) (max_size pg) (parent_page_id pg) (page_id pg) b.

(** Modelled from the spec: [SetParentPageId(parent)] on the page behind
    pointer [a]. *)
Definition SetParentPageId (a : Z) (parent : Z) : M unit :=
  let! pg := load a in
  store a (mkPage (page_type pg) (max_size pg) parent (page_id pg)
                  (body pg)).

(** Modelled from the spec: the body of a page read through the leaf class
    or through the internal class; all-zero bytes are an empty array (and
    sibling 0), the body of the other class is a fault. *)
Definition leaf_view (pg : Page) : Res (Z * list (Z * Z)) :=
  match body pg with
  | Zeroed => Ok (0, [])
  | LeafBody n a => Ok (n, a)
  | _ => Fail TypeConfusion
  end.

Definition internal_view (pg : Page) : Res (list (Z * Z)) :=
  match body pg with
  | Zeroed => Ok []
  | InternalBody a => Ok a
  | _ => Fail TypeConfusion
  end.

Definition leaf_of (a : Z) : M (Page * Z * list (Z * Z)) :=
  let! pg := load a in
  let! (n, arr) := lift (leaf_view pg) in
  ret (pg, n, arr).

Definition internal_of (a : Z) : M (Page * list (Z * Z)) :=
  let! pg := load a in
  let! arr := lift (internal_view pg) in
  ret (pg, arr).

(** Modelled from the spec: [array[i]]; an index outside the entries in use
    is a fault. *)
Definition entry (arr : list (Z * Z)) (i : Z) : Res (Z * Z) :=
  if bool_decide (0 <= i) then
    match arr !! Z.to_nat i with
    | Some e => Ok e
    | None => Fail IndexOutOfBounds
    end
  else Fail IndexOutOfBounds.

(** *** Leaf page primitives (section 4.4 of the spec; the source of
    BPlusTreeLeafPage is not part of the sources) *)

(** Modelled from the spec: the search, the ordered insertion and the
    removal in the sorted array of a leaf. *)
Fixpoint assoc (key : Z) (arr : list (Z * Z)) : option Z :=
  match arr with
  | [] => None
  | (k, v) :: r => if bool_decide (k = key) then Some v else assoc key r
  end.

Fixpoint sorted_insert (key value : Z) (arr : list (Z * Z))
  : list (Z * Z) :=
  match arr with
  | [] => [(key, value)]
  | (k, v) :: r =>
      if bool_decide (key < k) then (key, value) :: arr
      else (k, v) :: sorted_insert key value r
  end.

Fixpoint remove_key (key : Z) (arr : list (Z * Z)) : list (Z * Z) :=
  match arr with
  | [] => []
  | (k, v) :: r =>
      if bool_decide (k = key) then r else (k, v) :: remove_key key r
  end.

Definition store_leaf (a : Z) (pg : Page) (n : Z) (arr : list (Z * Z))
  : M unit := store a (set_body pg (LeafBody n arr)).

Definition store_internal (a : Z) (pg : Page) (arr : list (Z * Z))
  : M unit := store a (set_body pg (InternalBody arr)).

(** Modelled from the spec: [leaf->Lookup(key, value, comparator)];
    [Some v] is [true] with [value = v]. *)
Definition leaf_Lookup (a : Z) (key : Z) : M (option Z) :=
  let! (_, _, arr) := leaf_of a in
  ret (assoc key arr).

(** Modelled from the spec: [leaf->Insert(key, value, comparator)]: keeps
    the order, does not look for a duplicate, returns the new size. *)
Definition leaf_Insert (a : Z) (key value : Z) : M Z :=
  let! (pg, n, arr) := leaf_of a in
  let arr' := sorted_insert key value arr in
  store_leaf a pg n arr' ;;
  ret (Z.of_nat (length arr')).

(** Modelled from the spec: [leaf->KeyAt(i)], [leaf->GetItem(i)] and
    [leaf->GetNextPageId()]. *)
Definition leaf_KeyAt (a : Z) (i : Z) : M Z :=
  let! (_, _, arr) := leaf_of a in
  let! (k, _) := lift (entry arr i) in
  ret k.


Definition leaf_GetNextPageId (a : Z) : M Z :=
  let! (_, n, _) := leaf_of a in ret n.

(** Modelled from the spec: [leaf->MoveHalfTo(recipient, bpm)]: the upper
    half goes to the empty right sibling, which is linked in after this
    page. *)
Definition leaf_MoveHalfTo (a : Z) (recipient : Z) : M unit :=
  let! (pg, n, arr) := leaf_of a in
  let! (rpg, _, rarr) := leaf_of recipient in
  let half := (length arr / 2)%nat in
  store_leaf recipient rpg n (rarr ++ drop half arr) ;;
  store_leaf a pg (GetPageId rpg) (take half arr).

(** Modelled from the spec: [leaf->RemoveAndDeleteRecord(key, comparator)]:
    the new size. *)
Definition leaf_RemoveAndDeleteRecord (a : Z) (key : Z) : M Z :=
  let! (pg, n, arr) := leaf_of a in
  let arr' := remove_key key arr in
  store_leaf a pg n arr' ;;
  ret (Z.of_nat (length arr')).

(** *** Internal page primitives (section 4.4 of the spec; the source of
    BPlusTreeInternalPage is not part of the sources) *)

(** Modelled from the spec: [internal->Lookup(key, comparator)]: the value
    of the last entry, from index 1 on, whose key is at most [key]; the
    value of entry 0 when there is none. *)
Fixpoint lookup_from (key : Z) (child : Z) (arr : list (Z * Z)) : Z :=
  match arr with
  | [] => child
  | (k, v) :: r =>
      if bool_decide (k <= key) then lookup_from key v r else child
  end.

Definition internal_Lookup (a : Z) (key : Z) : M Z :=
  let! (_, arr) := internal_of a in
  match arr with
  | [] => throw IndexOutOfBounds
  | (_, c0) :: r => ret (lookup_from key c0 r)
  end.

(** Modelled from the spec: [ValueIndex(value)] (-1 when absent),
    [ValueAt(i)], [KeyAt(i)] and [SetKeyAt(i, key)] of an internal page. *)
Fixpoint value_index (v : Z) (arr : list (Z * Z)) (i : Z) : Z :=
  match arr with
  | [] => -1
  | (_, c) :: r => if bool_decide (c = v) then i else value_index v r (i + 1)
  end.

Definition internal_ValueIndex (a : Z) (v : Z) : M Z :=
  let! (_, arr) := internal_of a in
  ret (value_index v arr 0).

Definition internal_ValueAt (a : Z) (i : Z) : M Z :=
  let! (_, arr) := internal_of a in
  let! (_, v) := lift (entry arr i) in
  ret v.

Definition internal_KeyAt (a : Z) (i : Z) : M Z :=
  let! (_, arr) := internal_of a in
  let! (k, _) := lift (entry arr i) in
  ret k.

Definition internal_SetKeyAt (a : Z) (i : Z) (key : Z) : M unit :=
  let! (pg, arr) := internal_of a in
  let! (_, v) := lift (entry arr i) in
  store_internal a pg (<[ Z.to_nat i := (key, v) ]> arr).

(** Modelled from the spec:
    [root->PopulateNewRoot(old_value, new_key, new_value)]. *)
Definition internal_PopulateNewRoot (a : Z) (old_value key new_value : Z)
  : M unit :=
  let! (pg, _) := internal_of a in
  store_internal a pg [(0, old_value); (key, new_value)].

(** Modelled from the spec:
    [page->InsertNodeAfter(old_value, new_key, new_value)]: the new size. *)
Definition internal_InsertNodeAfter (a : Z) (old_value key new_value : Z)
  : M Z :=
  let! (pg, arr) := internal_of a in
  let i := Z.to_nat (value_index old_value arr 0 + 1) in
  let arr' := take i arr ++ (key, new_value) :: drop i arr in
  store_internal a pg arr' ;;
  ret (Z.of_nat (length arr')).

(** Modelled from the spec: [page->Remove(index)]. *)
Definition internal_Remove (a : Z) (i : Z) : M unit :=
  let! (pg, arr) := internal_of a in
  let! _ := lift (entry arr i) in
  store_internal a pg (delete (Z.to_nat i) arr).

(** Modelled from the spec: the children that change parent are fetched,
    updated and unpinned (dirty) through the buffer pool. *)
Fixpoint reparent (children : list (Z * Z)) (parent : Z) : M unit :=
  match children with
  | [] => ret tt
  | (_, c) :: r =>
      let! child := FetchPage c in
      let! (ca, cpg) := deref child in
      SetParentPageId ca parent ;;
      UnpinPage (GetPageId cpg) true ;;
      reparent r parent
  end.

(** Modelled from the spec: [internal->MoveHalfTo(recipient, bpm)]. *)
Definition internal_MoveHalfTo (a : Z) (recipient : Z) : M unit :=
  let! (pg, arr) := internal_of a in
  let! (rpg, rarr) := internal_of recipient in
  let half := (length arr / 2)%nat in
  store_internal recipient rpg (rarr ++ drop half arr) ;;
  store_internal a pg (take half arr) ;;
  reparent (drop half arr) (GetPageId rpg).

(** Modelled from the spec: a page primitive that needs the separator key
    fetches the parent, reads or changes the key, and unpins the parent
    again. *)
Definition parent_KeyAt (pg : Page) (i : Z) : M Z :=
  let! parent := FetchPage (GetParentPageId pg) in
  let! (pa, ppg) := deref parent in
  let! k := internal_KeyAt pa i in
  UnpinPage (GetPageId ppg) false ;;
  ret k.

Definition parent_SetKeyAt (pg : Page) (i : Z) (key : Z) : M unit :=
  let! parent := FetchPage (GetParentPageId pg) in
  let! (pa, ppg) := deref parent in
  internal_SetKeyAt pa i key ;;
  UnpinPage (GetPageId ppg) true ;;
  ret tt.

Definition parent_ValueIndex (pg : Page) : M Z :=
  let! parent := FetchPage (GetParentPageId pg) in
  let! (pa, ppg) := deref parent in
  let! i := internal_ValueIndex pa (GetPageId pg) in
  UnpinPage (GetPageId ppg) false ;;
  ret i.

(** Modelled from the spec: [node->MoveAllTo(recipient, index_in_parent,
    bpm)]; an internal page pulls the separator key down from the parent. *)
Definition leaf_MoveAllTo (a : Z) (recipient : Z) (index_in_parent : Z)
  : M unit :=
  let! (pg, n, arr) := leaf_of a in
  let! (rpg, _, rarr) := leaf_of recipient in
  store_leaf recipient rpg n (rarr ++ arr) ;;
  let! (pg, n, _) := leaf_of a in
  store_leaf a pg n [].

Definition internal_MoveAllTo (a : Z) (recipient : Z) (index_in_parent : Z)
  : M unit :=
  let! (pg, arr) := internal_of a in
  let! sep := parent_KeyAt pg index_in_parent in
  let moved := match arr with
               | [] => []
               | (_, c0) :: r => (sep, c0) :: r
               end in
  let! (rpg, rarr) := internal_of recipient in
  store_internal recipient rpg (rarr ++ moved) ;;
  let! (pg, _) := internal_of a in
  store_internal a pg [] ;;
  reparent moved (GetPageId rpg).

(** Modelled from the spec: [node->MoveFirstToEndOf(recipient, bpm)], with
    the update of the separator key in the parent. *)
Definition leaf_MoveFirstToEndOf (a : Z) (recipient : Z) : M unit :=
  let! (pg, n, arr) := leaf_of a in
  match arr with
  | e :: ((k1, _) :: _) as rest =>
      store_leaf a pg n rest ;;
      let! (rpg, rn, rarr) := leaf_of recipient in
      store_leaf recipient rpg rn (rarr ++ [e]) ;;
      let! i := parent_ValueIndex pg in
      parent_SetKeyAt pg i k1
  | _ => throw IndexOutOfBounds
  end.

Definition internal_MoveFirstToEndOf (a : Z) (recipient : Z) : M unit :=
  let! (pg, arr) := internal_of a in
  match arr with
  | (_, c0) :: ((k1, _) :: _) as rest =>
      let! i := parent_ValueIndex pg in
      let! sep := parent_KeyAt pg i in
      store_internal a pg rest ;;
      let! (rpg, rarr) := internal_of recipient in
      store_internal recipient rpg (rarr ++ [(sep, c0)]) ;;
      parent_SetKeyAt pg i k1 ;;
      reparent [(sep, c0)] (GetPageId rpg)
  | _ => throw IndexOutOfBounds
  end.

(** Modelled from the spec: [node->MoveLastToFrontOf(recipient,
    parent_index, bpm)], with the update of the separator key in the
    parent. *)
Definition leaf_MoveLastToFrontOf (a : Z) (recipient : Z) (parent_index : Z)
  : M unit :=
  let! (pg, n, arr) := leaf_of a in
  match last arr with
  | Some (k, v) =>
      store_leaf a pg n (removelast arr) ;;
      let! (rpg, rn, rarr) := leaf_of recipient in
      store_leaf recipient rpg rn ((k, v) :: rarr) ;;
      parent_SetKeyAt pg parent_index k
  | None => throw IndexOutOfBounds
  end.

Definition internal_MoveLastToFrontOf (a : Z) (recipient : Z)
    (parent_index : Z) : M unit :=
  let! (pg, arr) := internal_of a in
  match last arr with
  | Some (k, c) =>
      let! sep := parent_KeyAt pg parent_index in
      store_internal a pg (removelast arr) ;;
      let! (rpg, rarr) := internal_of recipient in
      let rarr' := match rarr with
                   | [] => []
                   | (_, c0) :: r => (sep, c0) :: r
                   end in
      store_internal recipient rpg ((0, c) :: rarr') ;;
      parent_SetKeyAt pg parent_index k ;;
      reparent [(k, c)] (GetPageId rpg)
  | None => throw IndexOutOfBounds
  end.

(** *** Header page

    Modelled from the spec (section 6): [insert_record] and
    [update_record] of the header page. *)

(** Modelled from the spec: the records of the header page, and
    [insert_record] and [update_record] on them. *)
Definition header_view (pg : Page) : Res (list (string * Z)) :=
  match body pg with
  | Zeroed => Ok []
  | HeaderBody r => Ok r
  | _ => Fail TypeConfusion
  end.

Fixpoint update_record (name : string) (root : Z) (r : list (string * Z))
  : list (string * Z) :=
  match r with
  | [] => []
  | (n, v) :: r' =>
      if bool_decide (n = name) then (n, root) :: r'
      else (n, v) :: update_record name root r'
  end.

Definition InsertRecord (a : Z) (name : string) (root : Z) : M unit :=
  let! pg := load a in
  let! r := lift (header_view pg) in
  if bool_decide (name ∈ r.*1) then ret tt
  else store a (set_body pg (HeaderBody (r ++ [(name, root)]))).

Definition UpdateRecord (a : Z) (name : string) (root : Z) : M unit :=
  let! pg := load a in
  let! r := lift (header_view pg) in
  store a (set_body pg (HeaderBody (update_record name root r))).

(** *** The tree (index/b_plus_tree.cpp) *)

(** The template parameter [N] of [Split], [CoalesceOrRedistribute],
    [Coalesce] and [Redistribute]. *)
Inductive NodeKind := LeafN | InternalN.

Definition IsEmpty : M bool :=
  let! r := get_root in
  ret (bool_decide (r = INVALID_PAGE_ID)).

Definition unpin_of (a : Z) (is_dirty : bool) : M bool :=
  let! pg := load a in
  UnpinPage (GetPageId pg) is_dirty.

(** The loop [while (node->IsLeafPage())] of [GetValue]; [None] is the
    [return false] inside the loop. *)
Fixpoint GetValue_loop (fuel : nat) (node : Z) (key : Z) : M (option Z) :=
  let! pg := load node in
  if IsLeafPage pg then
    match fuel with
    | O => throw OutOfFuel
    | S fuel' =>
        let! next := internal_Lookup node key in
        let! fetched := FetchPage next in
        match fetched with
        | None => ret None
        | Some node' =>
            unpin_of node' false ;;
            GetValue_loop fuel' node' key
        end
    end
  else ret (Some node).

(** [GetValue(key, result, transaction)]: the returned flag and the
    vector [result]. *)
Definition GetValue (fuel : nat) (key : Z) (result : list Z)
  : M (bool * list Z) :=
  let! e := IsEmpty in
  if e then ret (false, result)
  else
    let! root := get_root in
    let! fetched := FetchPage root in
    match fetched with
    | None => ret (false, result)
    | Some node =>
        let! found := GetValue_loop fuel node key in
        match found with
        | None => ret (false, result)
        | Some leaf =>
            let! r := leaf_Lookup leaf key in
            match r with
            | Some value =>
                unpin_of leaf false ;;
                ret (true, result ++ [value])
            | None => ret (false, result)
            end
        end
    end.

Definition UpdateRootPageId (insert_record : bool) : M unit :=
  let! header_page := FetchPage HEADER_PAGE_ID in
  let! (ha, _) := deref header_page in
  let! name := get_name in
  let! root := get_root in
  (if insert_record then InsertRecord ha name root
   else UpdateRecord ha name root) ;;
  UnpinPage HEADER_PAGE_ID true ;;
  ret tt.

(** [NewPage(id)] with the null check that throws [std::bad_alloc]. *)
Definition NewPage_or_throw : M Z :=
  let! r := NewPage in
  match r with
  | Some a => ret a
  | None => throw BadAlloc
  end.

Definition StartNewTree (key value : Z) : M unit :=
  let! root := NewPage_or_throw in
  set_root root ;;
  UpdateRootPageId true ;;
  leaf_Insert root key value ;;
  ret tt.

(** The descent shared by [InsertIntoLeaf] and [Remove]:
    [while (!node->IsLeafPage())]. *)
Fixpoint descend (fuel : nat) (node : option Z) (key : Z) : M Z :=
  let! (a, pg) := deref node in
  if negb (IsLeafPage pg) then
    match fuel with
    | O => throw OutOfFuel
    | S fuel' =>
        let! child_page_id := internal_Lookup a key in
        UnpinPage (GetPageId pg) false ;;
        let! node' := FetchPage child_page_id in
        descend fuel' node' key
    end
  else ret a.

Definition MoveHalfTo (kind : NodeKind) :=
  match kind with
  | LeafN => leaf_MoveHalfTo
  | InternalN => internal_MoveHalfTo
  end.
Definition MoveAllTo (kind : NodeKind) :=
  match kind with
  | LeafN => leaf_MoveAllTo
  | InternalN => internal_MoveAllTo
  end.
Definition MoveFirstToEndOf (kind : NodeKind) :=
  match kind with
  | LeafN => leaf_MoveFirstToEndOf
  | InternalN => internal_MoveFirstToEndOf
  end.
Definition MoveLastToFrontOf (kind : NodeKind) :=
  match kind with
  | LeafN => leaf_MoveLastToFrontOf
  | InternalN => internal_MoveLastToFrontOf
  end.

Definition Split (kind : NodeKind) (node : Z) : M Z :=
  let! new_node := NewPage_or_throw in
  MoveHalfTo kind node new_node ;;
  ret new_node.

Fixpoint InsertIntoParent (fuel : nat) (old_node : Z) (key : Z)
    (new_node : Z) : M unit :=
  match fuel with
  | O => throw OutOfFuel
  | S fuel' =>
      let! old_pg := load old_node in
      if IsRootPage old_pg then
        let! root := NewPage_or_throw in
        set_root root ;;
        let! new_pg := load new_node in
        internal_PopulateNewRoot root (GetPageId old_pg) key
                                 (GetPageId new_pg) ;;
        SetParentPageId old_node root ;;
        SetParentPageId new_node root ;;
        UpdateRootPageId false ;;
        unpin_of old_node true ;;
        unpin_of new_node true ;;
        unpin_of root true ;;
        ret tt
      else
        let! fetched := FetchPage (GetParentPageId old_pg) in
        match fetched with
        | None => throw BadAlloc
        | Some internal =>
            let! ipg := load internal in
            let! new_pg := load new_node in
            if bool_decide (GetSize ipg < GetMaxSize ipg) then
              internal_InsertNodeAfter internal (GetPageId old_pg) key
                                       (GetPageId new_pg) ;;
              SetParentPageId new_node (GetPageId ipg) ;;
              unpin_of old_node true ;;
              unpin_of new_node true ;;
              unpin_of internal true ;;
              ret tt
            else
              let! internal2 := Split InternalN internal in
              let! k0 := internal_KeyAt internal2 0 in
              (if bool_decide (key < k0) then
                 internal_InsertNodeAfter internal (GetPageId old_pg) key
                                          (GetPageId new_pg) ;;
                 let! ipg := load internal in
                 SetParentPageId new_node (GetPageId ipg)
               else
                 internal_InsertNodeAfter internal2 (GetPageId old_pg) key
                                          (GetPageId new_pg) ;;
                 let! ipg2 := load internal2 in
                 SetParentPageId new_node (GetPageId ipg2)) ;;
              unpin_of old_node true ;;
              unpin_of new_node true ;;
              let! k0 := internal_KeyAt internal2 0 in
              InsertIntoParent fuel' internal k0 internal2
        end
  end.

Definition InsertIntoLeaf (fuel : nat) (key value : Z) : M bool :=
  let! root := get_root in
  let! node := FetchPage root in
  let! (_, pg) := deref node in
  lift (assert (IsRootPage pg)) ;;
  let! leaf := descend fuel node key in
  let! lpg := load leaf in
  if bool_decide (GetSize lpg < GetMaxSize lpg) then
    let! v := leaf_Lookup leaf key in
    match v with
    | Some _ => ret false
    | None =>
        leaf_Insert leaf key value ;;
        unpin_of leaf true ;;
        ret true
    end
  else
    let! leaf2 := Split LeafN leaf in
    let! k0 := leaf_KeyAt leaf2 0 in
    (if bool_decide (key < k0) then leaf_Insert leaf key value
     else leaf_Insert leaf2 key value) ;;
    let! k0 := leaf_KeyAt leaf2 0 in
    InsertIntoParent fuel leaf k0 leaf2 ;;
    ret true.

Definition Insert (fuel : nat) (key value : Z) : M bool :=
  let! e := IsEmpty in
  if e then StartNewTree key value ;; ret true
  else InsertIntoLeaf fuel key value.

Definition AdjustRoot (old_root_node : Z) : M bool :=
  let! pg := load old_root_node in
  if IsLeafPage pg then
    if bool_decide (GetSize pg = 0) then
      set_root INVALID_PAGE_ID ;;
      UpdateRootPageId false ;;
      ret true
    else ret false
  else if bool_decide (GetSize pg = 1) then
    let! v := internal_ValueAt old_root_node 0 in
    set_root v ;;
    UpdateRootPageId false ;;
    ret true
  else ret false.

Definition Redistribute (kind : NodeKind) (neighbor_node node : Z)
    (index : Z) : M unit :=
  if bool_decide (index = 0) then
    MoveFirstToEndOf kind neighbor_node node
  else
    let! pg := load node in
    let! fetched := FetchPage (GetParentPageId pg) in
    match fetched with
    | None => throw BadAlloc
    | Some parent =>
        let! index := internal_ValueIndex parent (GetPageId pg) in
        MoveLastToFrontOf kind neighbor_node node index
    end.

(** [Unpin] then [DeletePage] when the flag is set, [Unpin] dirty
    otherwise: the pattern that follows every call that reports whether
    a page must be deleted. *)
Definition release (a : Z) (del : bool) : M unit :=
  if del then unpin_of a false ;;
              let! pg := load a in
              DeletePage (GetPageId pg) ;; ret tt
  else unpin_of a true ;; ret tt.

(** [CoalesceOrRedistribute<N>(node, transaction)], with the body of
    [Coalesce<N>] as the local function [Coalesce]. *)
Fixpoint CoalesceOrRedistribute (fuel : nat) (kind : NodeKind) (node : Z)
  : M bool :=
  match fuel with
  | O => throw OutOfFuel
  | S fuel' =>
      let Coalesce (neighbor_node node parent : Z) (index : Z) : M bool :=
        MoveAllTo kind node neighbor_node index ;;
        internal_Remove parent index ;;
        let! del := CoalesceOrRedistribute fuel' InternalN parent in
        release parent del ;;
        ret del in
      let! pg := load node in
      if IsRootPage pg then AdjustRoot node
      else if bool_decide (GetSize pg >= GetMinSize pg) then ret false
      else
        let! fetched := FetchPage (GetParentPageId pg) in
        match fetched with
        | None => throw BadAlloc
        | Some parent =>
            let! value_index := internal_ValueIndex parent (GetPageId pg) in
            let! sibling_page_id :=
              if bool_decide (value_index = 0)
              then internal_ValueAt parent (value_index + 1)
              else internal_ValueAt parent (value_index - 1) in
            let! fetched_sibling := FetchPage sibling_page_id in
            let! (sibling, spg) := deref fetched_sibling in
            if bool_decide (GetSize spg + GetSize pg > GetMaxSize pg) then
              Redistribute kind sibling node
                           (if bool_decide (value_index = 0) then 0 else 1) ;;
              unpin_of sibling true ;;
              unpin_of parent true ;;
              ret false
            else if bool_decide (value_index = 0) then
              let! del := Coalesce node sibling parent value_index in
              release parent del ;;
              release sibling true ;;
              ret false
            else
              let! del := Coalesce sibling node parent value_index in
              release parent del ;;
              unpin_of sibling true ;;
              ret true
        end
  end.

Definition Remove (fuel : nat) (key : Z) : M unit :=
  let! e := IsEmpty in
  if e then ret tt
  else
    let! root := get_root in
    let! node := FetchPage root in
    let! (_, pg) := deref node in
    lift (assert (IsRootPage pg)) ;;
    let! leaf := descend fuel node key in
    leaf_RemoveAndDeleteRecord leaf key ;;
    let! del := CoalesceOrRedistribute fuel LeafN leaf in
    release leaf del.

(** *** [GetValue] as the specification words it

    Section 4.5.1: starting at the root, repeatedly look up on internal
    pages, unpinning each level (clean) before descending, until a leaf;
    then look up in the leaf and unpin it (clean).  Used only to compare
    [GetValue] with. *)
Fixpoint GetValue_spec_loop (fuel : nat) (node : Z) (key : Z)
  : M (option Z) :=
  let! pg := load node in
  if IsLeafPage pg then ret (Some node)
  else
    match fuel with
    | O => throw OutOfFuel
    | S fuel' =>
        let! next := internal_Lookup node key in
        unpin_of node false ;;
        let! fetched := FetchPage next in
        match fetched with
        | None => ret None
        | Some node' => GetValue_spec_loop fuel' node' key
        end
    end.

Definition GetValue_spec (fuel : nat) (key : Z) (result : list Z)
  : M (bool * list Z) :=
  let! e := IsEmpty in
  if e then ret (false, result)
  else
    let! root := get_root in
    let! fetched := FetchPage root in
    match fetched with
    | None => ret (false, result)
    | Some node =>
        let! found := GetValue_spec_loop fuel node key in
        match found with
        | None => ret (false, result)
        | Some leaf =>
            let! r := leaf_Lookup leaf key in
            unpin_of leaf false ;;
            match r with
            | Some value => ret (true, result ++ [value])
            | None => ret (false, result)
            end
        end
    end.

(** *** The iterator (index/index_iterator.cpp) *)

Record IndexIterator := mkIter {
  leaf_ : option Z;      (* the leaf page the iterator stands on *)
  index_ : Z
}.

(** [IndexIterator(leaf, buff_pool_manager)] *)
Definition IndexIterator_new (leaf : option Z) : IndexIterator :=
  mkIter leaf 0.

Definition isEnd (it : IndexIterator) : M bool :=
  match leaf_ it with
  | None => ret false
  | Some a =>
      let! pg := load a in
      if bool_decide (index_ it = GetSize pg) then
        let! n := leaf_GetNextPageId a in
        ret (bool_decide (n = INVALID_PAGE_ID))
      else ret false
  end.


(** [operator++] *)
Definition operator_incr (it : IndexIterator) : M IndexIterator :=
  let index := index_ it + 1 in
  let! (a, pg) := deref (leaf_ it) in
  if bool_decide (index = GetSize pg) then
    let! next_leaf_id := leaf_GetNextPageId a in
    let! next_leaf := FetchPage next_leaf_id in
    match next_leaf with
    | None => throw BadAlloc
    | Some l => ret (mkIter (Some l) 0)
    end
  else ret (mkIter (leaf_ it) index).

(** *** Well-formed pages, used to state inputs *)

Definition leaf_page (id parent max next : Z) (arr : list (Z * Z)) : Page :=
  mkPage LEAF_PAGE max parent id (LeafBody next arr).
Definition internal_page (id parent max : Z) (arr : list (Z * Z)) : Page :=
  mkPage INTERNAL_PAGE max parent id (InternalBody arr).
Definition header_page (records : list (string * Z)) : Page :=
  mkPage INVALID_INDEX_PAGE 0 0 0 (HeaderBody records).

(** A tree over the given pages, none of them pinned. *)
Definition tree_of (name : string) (root : Z) (pgs : list (Z * Page))
    (next_id : Z) : BPlusTree :=
  mkTree name root (mkBPM (list_to_map pgs) ∅ next_id).

(** The keys of the leaves, following the sibling links from leaf [a]. *)
Fixpoint scan (fuel : nat) (t : BPlusTree) (a : Z) : list Z :=
  match fuel with
  | O => []
  | S fuel' =>
      match pages (buffer_pool_manager_ t) !! a with
      | Some pg =>
          match body pg with
          | LeafBody n arr => arr.*1 ++ scan fuel' t n
          | _ => []
          end
      | None => []
      end
  end.

(** [same_pages t t']: the two trees have the same pages, root, name and
    next page id; their pin counts may differ. *)
Definition same_pages (t t' : BPlusTree) : Prop :=
  pages (buffer_pool_manager_ t') = pages (buffer_pool_manager_ t) /\
  root_page_id_ t' = root_page_id_ t /\
  index_name_ t' = index_name_ t /\
  next_page_id (buffer_pool_manager_ t')
  = next_page_id (buffer_pool_manager_ t).

(** The leaf that the descent of [InsertIntoLeaf] and [Remove] reaches
    for [key] from page [a], read off the pages alone: an internal page on
    the way carries its own id and sends the descent to the child that
    [Lookup] gives. *)
Fixpoint find_leaf (fuel : nat) (pgs : gmap Z Page) (key a : Z)
  : option Z :=
  match pgs !! a with
  | Some pg =>
      if IsLeafPage pg then Some a
      else
        match fuel with
        | O => None
        | S fuel' =>
            if bool_decide (page_id pg = a) then
              match internal_view pg with
              | Ok ((_, c0) :: r) =>
                  find_leaf fuel' pgs key (lookup_from key c0 r)
              | _ => None
              end
            else None
        end
  | None => None
  end.

End BTree.

(** ** Concrete states and inputs *)

Module Inputs.
  Local Open Scope Z_scope.

(** *** LRU replacer over [int] *)

Definition lru_inserts (vs : list Z)
  : Res (@LRU.LRUReplacer Z _ _) :=
  foldl (fun r v => let* s := r in LRU.Insert v s) (Ok (LRU.init 0)) vs.

(** The steps of lru_replacer_test.cpp / scenario E2, with every
    observed result. *)
Definition lru_sample_test : Res (list Z * list (option Z) * list bool) :=
  let* s := lru_inserts [1; 2; 3; 4; 5; 6; 1] in
  let size1 := LRU.Size s in
  let* (v1, s) := LRU.Victim s in
  let* (v2, s) := LRU.Victim s in
  let* (v3, s) := LRU.Victim s in
  let* (e1, s) := LRU.Erase 4 s in
  let* (e2, s) := LRU.Erase 6 s in
  let size2 := LRU.Size s in
  let* (v4, s) := LRU.Victim s in
  let* (v5, s) := LRU.Victim s in
  let* (v6, s) := LRU.Victim s in
  Ok ([size1; size2], [v1; v2; v3; v4; v5; v6], [e1; e2]).

(** A replacer that holds 1, 2 and 3, inserted in this order. *)
Definition lru_three : @LRU.LRUReplacer Z _ _ :=
  match lru_inserts [1; 2; 3] with
  | Ok s => s
  | Fail _ => LRU.init 0
  end.

(** *** Lock manager *)

Import Lock.

Definition rid0 : RID := (0, 0).
Definition txn0 : Transaction := mkTxn 0 GROWING ∅ ∅.
Definition txn1 : Transaction := mkTxn 1 GROWING ∅ ∅.
Definition lock_mgr (strict : bool) : LockManager := mkLM strict ∅.

(** A queue on [rid0] that holds one granted shared request of
    transaction 0. *)
Definition one_shared (strict : bool) : LockManager :=
  mkLM strict {[ rid0 := mkWaiting 0 0 [mkReq 0 SHARED true] ]}.

(** The same queue after transaction 0 has upgraded its lock with
    [LockUpgrade] of the first revision. *)
Definition one_upgraded : LockManager :=
  mkLM false {[ rid0 := mkWaiting 0 0 [mkReq 0 EXCLUSIVE true] ]}.

(** Transaction 0 holds a granted shared lock, the shared request of
    transaction 1 is queued behind it and not granted yet. *)
Definition shared_then_waiting : LockManager :=
  mkLM false {[ rid0 := mkWaiting 0 0 [mkReq 0 SHARED true;
                                       mkReq 1 SHARED false] ]}.

(** Transaction 1 holds a granted exclusive lock, the exclusive request of
    the older transaction 0 waits behind it. *)
Definition exclusive_then_waiting (cnt : Z) : LockManager :=
  mkLM false {[ rid0 := mkWaiting cnt 0 [mkReq 1 EXCLUSIVE true;
                                         mkReq 0 EXCLUSIVE false] ]}.


Definition committed0 : Transaction := mkTxn 0 COMMITTED {[ rid0 ]} ∅.

(** The lock table after transaction 5 has taken a shared lock on
    [rid0]. *)
Definition shared_by_five : LockManager :=
  mkLM false {[ rid0 := mkWaiting 0 5 [mkReq 5 SHARED true] ]}.

(** *** Extendible hash table over [int] keys, bucket size 2 *)

Definition hash_inserts (keys : list Z) : Res (@Hash.ExtendibleHash Z) :=
  Hash.insert_all Hash.hash_int (Hash.init 2) (map (fun k => (k, 10 * k)) keys).

Definition hash_find (keys : list Z) (k : Z) : Res (option Z) :=
  let* h := hash_inserts keys in Hash.Find Hash.hash_int h k.

(** A table of bucket size 2 that holds key 4 in its only bucket. *)
Definition hash_one : @Hash.ExtendibleHash Z :=
  Hash.mkHash 2 1 0 [Some 0%nat] [Hash.mkBucket 0 0 [(4, 40)] None].

(** A table of bucket size 2 whose only bucket holds three items, as
    [Insert] leaves it before it calls [split]. *)
Definition hash_full : @Hash.ExtendibleHash Z :=
  Hash.mkHash 2 1 0 [Some 0%nat]
    [Hash.mkBucket 0 0 [(4, 40); (5, 50); (6, 60)] None].

(** A table of global depth 1 whose directory slot 1 is null. *)
Definition hash_null_slot : @Hash.ExtendibleHash Z :=
  Hash.mkHash 2 1 1 [Some 0%nat; None] [Hash.mkBucket 0 1 [(4, 40)] None].

(** *** B+ trees *)

Import BTree.

Definition idx : string := "idx".

(** A single leaf that is the root; it holds keys 1 and 2. *)
Definition single_leaf (max : Z) : BPlusTree :=
  tree_of idx 1
    [(0, header_page [(idx, 1)]);
     (1, leaf_page 1 INVALID_PAGE_ID max INVALID_PAGE_ID [(1, 10); (2, 20)])]
    2.

(** An internal root (page 1) over the leaves 2 and 3. *)
Definition two_level (left right : list (Z * Z)) : BPlusTree :=
  tree_of idx 1
    [(0, header_page [(idx, 1)]);
     (1, internal_page 1 INVALID_PAGE_ID 4 [(0, 2); (5, 3)]);
     (2, leaf_page 2 1 4 3 left);
     (3, leaf_page 3 1 4 INVALID_PAGE_ID right)]
    4.

(** No index yet: only the header page exists. *)
Definition empty_tree : BPlusTree :=
  tree_of idx INVALID_PAGE_ID [(0, header_page [])] 1.

(** A single leaf that is the root; it holds key 1 only. *)
Definition one_key_leaf : BPlusTree :=
  tree_of idx 1
    [(0, header_page [(idx, 1)]);
     (1, leaf_page 1 INVALID_PAGE_ID 4 INVALID_PAGE_ID [(1, 10)])]
    2.

(** The value returned by a run, when there is one. *)
Definition value {A} (r : Res (A * BPlusTree)) : option A :=
  match r with
  | Ok (a, _) => Some a
  | Fail _ => None
  end.
Definition page_at (t : BPlusTree) (a : Z) : option Page :=
  pages (buffer_pool_manager_ t) !! a.

End Inputs.

(** * Properties *)

Import Inputs.
Local Open Scope Z_scope.

(** ** LRU replacer *)

(** The sample test of lru_replacer_test.cpp (scenario E2) passes: after
    inserting 1,2,3,4,5,6,1 the size is 6, three victims are 2, 3, 4,
    [Erase(4)] is false, [Erase(6)] is true, the size is 2, the next victims
    are 5 and 1, and a further [Victim] returns false. *)
Lemma lru_sample_test_passes :
  lru_sample_test =
  Ok ([6; 2], [Some 2; Some 3; Some 4; Some 5; Some 1; None], [false; true]).
Proof. vm_compute. reflexivity. Qed.

(** Whatever the state, [Erase] of a value whose node is the last of the
    chain (its [next] is null, and its predecessor owns it) faults on the
    null pointer [pre->next]. *)
Lemma Erase_last_node_faults {T : Type} `{Countable T}
    (s : LRU.LRUReplacer) (value : T) (it p : nat) (n_it n_p : LRU.node) :
  LRU.table_ s !! value = Some it ->
  LRU.heap s !! it = Some n_it ->
  LRU.next n_it = None ->
  LRU.pre n_it = Some p ->
  LRU.heap s !! p = Some n_p ->
  LRU.next n_p = Some it ->
  p <> it ->
  LRU.Erase value s = Fail NullDeref.
Proof.
  intros Ht Hit Hnext Hpre Hp Hpn Hne.
  unfold LRU.Erase. rewrite Ht.
  unfold LRU.unlink, LRU.deref. rewrite Hit. simpl.
  rewrite Hpre, Hp. simpl. rewrite Hpn.
  unfold LRU.set_next.
  rewrite lookup_alter_ne by exact Hne. rewrite Hit. simpl.
  rewrite Hnext.
  rewrite lookup_alter_eq, lookup_alter_ne by (intros E; apply Hne; auto).
  rewrite lookup_alter_eq, Hp. simpl. reflexivity.
Qed.

(** C8: [Erase] of the value at the MRU end, and [Insert] of a value that is
    already at the MRU end, do not unlink the node: [pre->next] is null after
    [pre->next = std::move(cur->next)] and [pre->next->pre = pre]
    dereferences it.  Neither call returns. *)
Theorem C8_mru_value_null_dereference :
  (let* s := lru_inserts [1] in LRU.Erase 1 s) = Fail NullDeref /\
  (let* s := lru_inserts [1; 2] in LRU.Erase 2 s) = Fail NullDeref /\
  lru_inserts [1; 2; 2] = Fail NullDeref.
Proof. vm_compute. auto. Qed.

(** After a [Victim] the new first node still points back at the destroyed
    one, so touching or erasing that value reads a dead node. *)
Lemma lru_erase_after_victim_dangles :
  (let* s := lru_inserts [1; 2; 3] in
   let* (_, s) := LRU.Victim s in
   LRU.Erase 2 s) = Fail UseAfterFree.
Proof. vm_compute. reflexivity. Qed.

(** ** Lock manager *)

Section LockFacts.
  Import Lock.

(** The guard [state != COMMITTED || state != ABORTED] holds in every
    state. *)
Lemma strict_guard_always (st : TransactionState) : strict_guard st = true.
Proof. destruct st; reflexivity. Qed.

Lemma Unlock_state_strict (lm : LockManager) (t : Transaction) :
  strict_2PL_ lm = true -> Unlock_state lm t = inl (SetState t ABORTED).
Proof.
  intros Hs. unfold Unlock_state. now rewrite Hs, strict_guard_always.
Qed.

(** Under strict 2PL both revisions of [Unlock] abort the caller and
    leave the lock table alone, whatever the state of the transaction. *)
Lemma Unlock_strict_never_unlocks (lm : LockManager) (t : Transaction)
    (rid : RID) :
  strict_2PL_ lm = true ->
  V1.Unlock lm t rid = Ok (false, SetState t ABORTED, lm) /\
  V2.Unlock lm t rid = Ok (false, SetState t ABORTED, lm).
Proof.
  intros Hs. unfold V1.Unlock, V2.Unlock.
  now rewrite (Unlock_state_strict lm t Hs).
Qed.

Lemma find_req_absent (l : list Request) (id : Z) (i : nat) :
  Forall (fun r => r_txn_id r <> id) l -> find_req l id i = None.
Proof.
  intros Hall. revert i.
  induction Hall as [|r l Hr _ IH]; intros i; simpl; [reflexivity|].
  rewrite bool_decide_eq_false_2 by exact Hr. apply IH.
Qed.

Lemma Unlock_state_growing (lm : LockManager) (t : Transaction) :
  strict_2PL_ lm = false -> state t = GROWING ->
  Unlock_state lm t = inr (SetState t SHRINKING).
Proof.
  intros Hs Hg. unfold Unlock_state. rewrite Hs, Hg. reflexivity.
Qed.

(** The queue [one_shared] is what [LockShared] of transaction 0 leaves
    behind on an empty lock table, in both revisions and with or without
    strict 2PL. *)
Lemma one_shared_reached (strict : bool) :
  V1.LockShared (lock_mgr strict) txn0 rid0
    = Ok (Some (true, mkTxn 0 GROWING {[ rid0 ]} ∅, one_shared strict)) /\
  V2.LockShared (lock_mgr strict) txn0 rid0
    = Ok (Some (true, mkTxn 0 GROWING {[ rid0 ]} ∅, one_shared strict)).
Proof. destruct strict; vm_compute; auto. Qed.

(** [LockUpgrade] turns the head request into an exclusive one and does
    not count it in [exclusive_cnt]. *)
Lemma one_upgraded_reached :
  V1.LockUpgrade (one_shared false) (mkTxn 0 GROWING {[ rid0 ]} ∅) rid0
    = Ok (Some (true, mkTxn 0 GROWING ∅ {[ rid0 ]}, one_upgraded)).
Proof. vm_compute. reflexivity. Qed.

(** The first revision admits a younger shared request behind shared
    requests. *)
Lemma V1_admits_younger_shared :
  V1.LockShared_enter (one_shared false) txn1 rid0
    = Ok (Wait txn1
            (mkLM false
               {[ rid0 := mkWaiting 0 0 [mkReq 0 SHARED true;
                                         mkReq 1 SHARED false] ]})).
Proof. vm_compute. reflexivity. Qed.

(** The admission test of the first revision, for a transaction in the
    growing state: it reads the counter [exclusive_cnt], not the queue. *)
Lemma V1_LockShared_enter_growing (lm : LockManager) (t : Transaction)
    (rid : RID) :
  state t = GROWING ->
  V1.LockShared_enter lm t rid =
  Ok (match lock_table_ lm !! rid with
      | None =>
          Wait t (set_table lm
                    (<[ rid := mkWaiting 0 (txn_id t)
                                 [mkReq (txn_id t) SHARED false] ]>
                       (lock_table_ lm)))
      | Some w =>
          if bool_decide (exclusive_cnt w <> 0 /\ txn_id t > oldest w)
          then Return false (SetState t ABORTED) lm
          else Wait t (set_table lm
                         (<[ rid := mkWaiting (exclusive_cnt w)
                                      (Z.min (oldest w) (txn_id t))
                                      (w_list w
                                       ++ [mkReq (txn_id t) SHARED false]) ]>
                            (lock_table_ lm)))
      end).
Proof.
  intros Hg. unfold V1.LockShared_enter. rewrite Hg. simpl.
  destruct (lock_table_ lm !! rid) as [w|]; [|reflexivity].
  repeat case_bool_decide; simpl; try reflexivity;
    try (exfalso; tauto);
    try (rewrite Z.min_r by lia; reflexivity);
    try (rewrite Z.min_l by lia; reflexivity).
Qed.

(** The second revision aborts every growing transaction that is younger
    than [oldest], whatever it asks for and whatever the queue holds. *)
Lemma V2_aborts_every_younger (lm : LockManager) (t : Transaction)
    (rid : RID) (w : Waiting) (m : LockMode) :
  state t = GROWING ->
  lock_table_ lm !! rid = Some w ->
  txn_id t > oldest w ->
  V2.enter m lm t rid = Ok (Return false (SetState t ABORTED) lm).
Proof.
  intros Hg Hq Hy. unfold V2.enter. rewrite Hg, Hq. simpl.
  now rewrite bool_decide_eq_true_2 by exact Hy.
Qed.

End LockFacts.

(** C3: under strict 2PL, [Unlock] of a COMMITTED transaction that holds a
    granted lock does not proceed, in either revision: it sets the
    transaction to ABORTED, returns false and leaves the request in the
    queue. *)
Theorem C3_strict_unlock_of_committed_aborts :
  Lock.V1.Unlock (one_shared true) committed0 rid0
    = Ok (false, Lock.SetState committed0 Lock.ABORTED, one_shared true) /\
  Lock.V2.Unlock (one_shared true) committed0 rid0
    = Ok (false, Lock.SetState committed0 Lock.ABORTED, one_shared true).
Proof. vm_compute. auto. Qed.

(** C4: where [LockShared] departs from the stated admission rule.  In the
    second revision a younger transaction that asks for a shared lock while
    only a shared request is queued is aborted.  In the first revision a
    younger transaction is admitted although the queue holds the exclusive
    (upgraded) request of an older one, because [exclusive_cnt] is 0. *)
Theorem C4_LockShared_admission_diverges :
  Lock.V2.LockShared_enter (one_shared false) txn1 rid0
    = Ok (Lock.Return false (Lock.SetState txn1 Lock.ABORTED)
            (one_shared false)) /\
  Lock.V1.LockShared_enter one_upgraded txn1 rid0
    = Ok (Lock.Wait txn1
            (Lock.mkLM false
               {[ rid0 := Lock.mkWaiting 0 0
                            [Lock.mkReq 0 Lock.EXCLUSIVE true;
                             Lock.mkReq 1 Lock.SHARED false] ]})).
Proof. vm_compute. auto. Qed.

(** C10: without strict 2PL, [Unlock] by a GROWING transaction that has no
    request in the existing queue of [rid] returns true and leaves the
    lock table unchanged, in both revisions; the transaction it leaves is
    in state SHRINKING, with the id and the lock sets it had. *)
Theorem C10_noop_unlock_shrinks (lm : Lock.LockManager)
    (t : Lock.Transaction) (rid : Lock.RID) (w : Lock.Waiting) :
  Lock.strict_2PL_ lm = false ->
  Lock.lock_table_ lm !! rid = Some w ->
  Lock.state t = Lock.GROWING ->
  Forall (fun r => Lock.r_txn_id r <> Lock.txn_id t) (Lock.w_list w) ->
  exists t' : Lock.Transaction,
    Lock.V1.Unlock lm t rid = Ok (true, t', lm) /\
    Lock.V2.Unlock lm t rid = Ok (true, t', lm) /\
    Lock.state t' = Lock.SHRINKING /\
    Lock.txn_id t' = Lock.txn_id t /\
    Lock.shared_lock_set t' = Lock.shared_lock_set t /\
    Lock.exclusive_lock_set t' = Lock.exclusive_lock_set t.
Proof.
  intros Hs Hq Hg Hno. exists (Lock.SetState t Lock.SHRINKING).
  unfold Lock.V1.Unlock, Lock.V2.Unlock.
  rewrite (Unlock_state_growing lm t Hs Hg).
  rewrite bool_decide_eq_true_2 by (rewrite Hq; eauto). simpl.
  unfold Lock.at_rid. rewrite Hq. simpl.
  rewrite (find_req_absent _ _ _ Hno). auto 7.
Qed.

Lemma C10_noop_unlock_shrinks_witness :
  exists t' : Lock.Transaction,
    Lock.V1.Unlock (one_shared false) txn1 rid0
      = Ok (true, t', one_shared false) /\
    Lock.V2.Unlock (one_shared false) txn1 rid0
      = Ok (true, t', one_shared false) /\
    Lock.state t' = Lock.SHRINKING /\
    Lock.txn_id t' = Lock.txn_id txn1 /\
    Lock.shared_lock_set t' = Lock.shared_lock_set txn1 /\
    Lock.exclusive_lock_set t' = Lock.exclusive_lock_set txn1.
Proof.
  apply (C10_noop_unlock_shrinks (one_shared false) txn1 rid0
           (Lock.mkWaiting 0 0 [Lock.mkReq 0 Lock.SHARED true])).
  - reflexivity.
  - reflexivity.
  - reflexivity.
  - repeat constructor. simpl. lia.
Defined.

(** ** Extendible hash table *)

(** The sample test of extendible_hash_test.cpp (scenario E1) passes on the
    model: after inserting 1..9 with bucket size 2 the local depths of
    slots 0..3 are 2, 3, 2, 2, keys 9, 8 and 2 are found and key 10 is
    not. *)
Lemma hash_sample_test_passes :
  (let* h := hash_inserts [1; 2; 3; 4; 5; 6; 7; 8; 9] in
   let* d0 := Hash.GetLocalDepth h 0 in
   let* d1 := Hash.GetLocalDepth h 1 in
   let* d2 := Hash.GetLocalDepth h 2 in
   let* d3 := Hash.GetLocalDepth h 3 in
   let* f9 := Hash.Find Hash.hash_int h 9 in
   let* f8 := Hash.Find Hash.hash_int h 8 in
   let* f2 := Hash.Find Hash.hash_int h 2 in
   let* f10 := Hash.Find Hash.hash_int h 10 in
   Ok ([d0; d1; d2; d3], [f9; f8; f2; f10]))
  = Ok ([2; 3; 2; 2], [Some 90; Some 80; Some 20; None]).
Proof. vm_compute. reflexivity. Qed.

(** The expectation of ConcurrentRemoveTest on the global depth. *)
Lemma hash_global_depth_six :
  (let* h := hash_inserts [0; 10; 16; 32; 64] in Ok (Hash.GetGlobalDepth h))
  = Ok 6.
Proof. vm_compute. reflexivity. Qed.

Section HashFacts.
  Context {V : Type} (HashKey : Z -> Z).

(** Whenever [split] returns, the bucket it was called on has an overflow
    bucket chained (the [nullptr] return) exactly when its local depth is
    [sizeof(size_t)] = 8. *)
Lemma split_overflow_iff_depth_is_sizeof (h h' : @Hash.ExtendibleHash V)
    (a : nat) (nb : option nat) :
  Hash.split HashKey h a = Ok (nb, h') ->
  exists b, Hash.store h' !! a = Some b /\
            (nb = None <-> Hash.depth b = Hash.sizeof_size_t).
Proof.
  unfold Hash.split. unfold Hash.deref at 1.
  destruct (Hash.store h !! a) as [b0|] eqn:Ha; [|discriminate].
  cbn [res_bind].
  destruct (Hash.split_loop HashKey 64 b0
              (Hash.mkBucket 0 (Hash.depth b0) [] None))
    as [[b' res']|f]; [|discriminate].
  cbn [res_bind].
  assert (Hlt : (a < length (Hash.store h))%nat)
    by (eapply lookup_lt_Some; eauto).
  assert (Hst : (<[a:=b']> (Hash.store h) ++ [res']) !! a = Some b').
  { rewrite lookup_app_l by (rewrite length_insert; exact Hlt).
    apply list_lookup_insert_eq. exact Hlt. }
  case_bool_decide as Hd.
  - destruct (Hash.chain_end (length (<[a:=b']> (Hash.store h) ++ [res']))
                (<[a:=b']> (Hash.store h) ++ [res']) a) as [e|f];
      [|discriminate].
    cbn [res_bind]. unfold Hash.deref.
    destruct ((<[a:=b']> (Hash.store h) ++ [res']) !! e) as [last|] eqn:He;
      [|discriminate].
    cbn [res_bind]. intros Heq. injection Heq as <- <-.
    cbn [Hash.store].
    destruct (decide (e = a)) as [->|Hne].
    + rewrite Hst in He. injection He as <-.
      eexists. split.
      * apply list_lookup_insert_eq.
        rewrite length_app, length_insert. lia.
      * cbn [Hash.depth]. tauto.
    + exists b'. split; [|tauto].
      rewrite list_lookup_insert_ne by exact Hne. exact Hst.
  - intros Heq. injection Heq as <- <-. cbn [Hash.store].
    exists b'. split; [exact Hst|]. split; [discriminate|tauto].
Qed.

End HashFacts.

(** C5: a key whose last operation is an [Insert] can be lost.  With bucket
    size 2, after inserting 1, 2, 3, 5, 9, 4, 6 the key 6 is not found (the
    split of a bucket of local depth 1 under global depth 3 re-points one
    directory slot out of two) and [Remove(6)] reports false.  After
    inserting 0, 128, 256 the key 128 sits in an overflow bucket and is
    found; inserting 128 again with a new value, or inserting 512, grows the
    directory and leaves slot 128 null, and 128 is no longer found. *)
Theorem C5_inserted_key_is_lost :
  hash_find [1; 2; 3; 5; 9; 4; 6] 6 = Ok None /\
  (let* h := hash_inserts [1; 2; 3; 5; 9; 4; 6] in
   let* (removed, _) := Hash.Remove Hash.hash_int h 6 in Ok removed)
    = Ok false /\
  hash_find [0; 128; 256] 128 = Ok (Some 1280) /\
  (let* h := hash_inserts [0; 128; 256] in
   let* h' := Hash.Insert Hash.hash_int h 128 7 in
   Hash.Find Hash.hash_int h' 128) = Ok None /\
  hash_find [0; 128; 256; 512] 128 = Ok None.
Proof. vm_compute. repeat split. Qed.

(** C6: with bucket size 2, after inserting 0, 256, 512 the global depth is
    0 while the bucket of slot 0 has local depth 8 = [sizeof(size_t)], far
    below the 64 bits of a [size_t], and already carries an overflow
    bucket. *)
Theorem C6_overflow_at_depth_sizeof :
  exists h b,
    hash_inserts [0; 256; 512] = Ok h /\
    Hash.GetGlobalDepth h = 0 /\
    Hash.GetLocalDepth h 0 = Ok 8 /\
    Hash.buckets_ h = [Some 0%nat] /\
    Hash.store h !! 0%nat = Some b /\
    Hash.depth b = Hash.sizeof_size_t /\
    Hash.depth b < Hash.size_t_bits /\
    Hash.next b = Some 1%nat.
Proof.
  eexists. eexists. split; [vm_compute; reflexivity|].
  vm_compute. repeat split; congruence.
Qed.

(** ** B+ tree *)

Section TreeFacts.
  Import BTree.

(** Unfold the monad of tree operations in the goal. *)
Ltac m_run := repeat (unfold bind, ret, lift, throw; cbv beta iota).

(** [FetchPage] of a page that exists returns it and leaves the pages
    alone. *)
Lemma FetchPage_present (t : BPlusTree) (p : Z) (pg : Page) :
  page_at t p = Some pg ->
  exists t', FetchPage p t = Ok (Some p, t') /\
             pages (buffer_pool_manager_ t') = pages (buffer_pool_manager_ t) /\
             root_page_id_ t' = root_page_id_ t.
Proof.
  unfold page_at, FetchPage, with_bpm. intros Hp. rewrite Hp.
  eexists. split; [reflexivity|]. simpl. auto.
Qed.

(** On a tree whose root page carries its own type, [GetValue] never
    reaches a verdict: a leaf root is handed to the internal-page
    [Lookup] (the loop runs while the node is a leaf), an internal root
    is handed to the leaf [Lookup]. *)
Lemma GetValue_typed_root_is_confused (t : BPlusTree) (fuel : nat)
    (key : Z) (result : list Z) (pg : Page) :
  root_page_id_ t <> INVALID_PAGE_ID ->
  page_at t (root_page_id_ t) = Some pg ->
  (exists n arr, page_type pg = LEAF_PAGE /\ body pg = LeafBody n arr) \/
  (exists arr, page_type pg = INTERNAL_PAGE /\ body pg = InternalBody arr) ->
  GetValue (S fuel) key result t = Fail TypeConfusion.
Proof.
  intros Hne Hp Hty.
  destruct (FetchPage_present t _ pg Hp) as (t' & Hf & Hpages & Hroot).
  unfold GetValue, IsEmpty, get_root. m_run.
  rewrite bool_decide_eq_false_2 by exact Hne.
  rewrite Hf. unfold page_at in Hp. rewrite <- Hpages in Hp.
  destruct Hty as [(n & arr & Hpt & Hb) | (arr & Hpt & Hb)].
  - cbn [GetValue_loop]. unfold load, deref. m_run.
    rewrite Hp. unfold IsLeafPage. rewrite Hpt.
    rewrite bool_decide_eq_true_2 by reflexivity.
    unfold internal_Lookup, internal_of, load, deref. m_run.
    rewrite Hp. unfold internal_view. rewrite Hb. reflexivity.
  - cbn [GetValue_loop]. unfold load, deref. m_run.
    rewrite Hp. unfold IsLeafPage. rewrite Hpt.
    rewrite bool_decide_eq_false_2 by discriminate.
    unfold leaf_Lookup, leaf_of, load, deref. m_run.
    rewrite Hp. unfold leaf_view. rewrite Hb. reflexivity.
Qed.

(** The descent worded by the specification finds key 2 in the single
    leaf and key 5 under the internal root, and gives every pin back. *)
Lemma GetValue_spec_finds :
  (exists t', GetValue_spec 10 2 [] (single_leaf 4) = Ok ((true, [20]), t')
              /\ pins t' 1 = 0) /\
  (exists t', GetValue_spec 10 5 []
                (two_level [(1, 10); (2, 20)] [(5, 50); (6, 60)])
              = Ok ((true, [50]), t')
              /\ pins t' 1 = 0 /\ pins t' 3 = 0).
Proof.
  split; eexists; (split; [vm_compute; reflexivity|]); vm_compute; auto.
Qed.

(** With room in the leaf, a duplicate key is rejected and no page
    changes. *)
Lemma Insert_duplicate_with_room_rejected :
  exists t', Insert 10 2 99 (single_leaf 4) = Ok (false, t') /\
             pages (buffer_pool_manager_ t')
               = pages (buffer_pool_manager_ (single_leaf 4)) /\
             root_page_id_ t' = 1.
Proof.
  eexists. split; [vm_compute; reflexivity|]. vm_compute. auto.
Qed.

Lemma FetchPage_pins (t : BPlusTree) (p : Z) (pg : Page) :
  page_at t p = Some pg -> FetchPage p t = Ok (Some p, pinned t p).
Proof.
  unfold page_at, FetchPage, with_bpm, pinned, pins. intros Hp.
  now rewrite Hp.
Qed.

(** For every tree whose root is a leaf with room that holds [key],
    [InsertIntoLeaf] returns false and its only effect is one more pin on
    the root page. *)
Lemma InsertIntoLeaf_duplicate_keeps_pin (t : BPlusTree) (fuel : nat)
    (key value v : Z) (pg : Page) (n : Z) (arr : list (Z * Z)) :
  page_at t (root_page_id_ t) = Some pg ->
  parent_page_id pg = INVALID_PAGE_ID ->
  page_type pg = LEAF_PAGE ->
  body pg = LeafBody n arr ->
  Z.of_nat (length arr) < max_size pg ->
  assoc key arr = Some v ->
  InsertIntoLeaf fuel key value t = Ok (false, pinned t (root_page_id_ t)).
Proof.
  intros Hp Hpar Hty Hb Hroom Hk.
  assert (Hp' : pages (buffer_pool_manager_ (pinned t (root_page_id_ t)))
                !! root_page_id_ t = Some pg) by exact Hp.
  unfold InsertIntoLeaf, get_root. m_run.
  rewrite (FetchPage_pins t _ pg Hp).
  unfold deref at 1. rewrite Hp'.
  unfold IsRootPage, assert. rewrite bool_decide_eq_true_2 by exact Hpar.
  assert (Hd : descend fuel (Some (root_page_id_ t)) key
                 (pinned t (root_page_id_ t))
               = Ok (root_page_id_ t, pinned t (root_page_id_ t))).
  { destruct fuel; cbn [descend]; unfold deref; m_run; rewrite Hp';
      unfold IsLeafPage; rewrite Hty;
      rewrite bool_decide_eq_true_2 by reflexivity; reflexivity. }
  rewrite Hd. unfold load, deref. m_run. rewrite Hp'.
  unfold GetSize, GetMaxSize. rewrite Hb.
  rewrite bool_decide_eq_true_2 by exact Hroom.
  unfold leaf_Lookup, leaf_of, load, deref. m_run. rewrite Hp'.
  unfold leaf_view. rewrite Hb, Hk. reflexivity.
Qed.

(** For every tree whose root is a leaf that is full, [InsertIntoLeaf]
    never returns false, whether or not the key is in the leaf: no path
    from the split to the end of the function looks the key up. *)
Lemma InsertIntoLeaf_full_never_false (t t' : BPlusTree) (fuel : nat)
    (key value : Z) (pg : Page) (b : bool) :
  page_at t (root_page_id_ t) = Some pg ->
  parent_page_id pg = INVALID_PAGE_ID ->
  page_type pg = LEAF_PAGE ->
  GetMaxSize pg <= GetSize pg ->
  InsertIntoLeaf fuel key value t = Ok (b, t') ->
  b = true.
Proof.
  intros Hp Hpar Hty Hfull.
  assert (Hp' : pages (buffer_pool_manager_ (pinned t (root_page_id_ t)))
                !! root_page_id_ t = Some pg) by exact Hp.
  unfold InsertIntoLeaf, get_root. m_run.
  rewrite (FetchPage_pins t _ pg Hp).
  unfold deref at 1. rewrite Hp'.
  unfold IsRootPage, assert. rewrite bool_decide_eq_true_2 by exact Hpar.
  assert (Hd : descend fuel (Some (root_page_id_ t)) key
                 (pinned t (root_page_id_ t))
               = Ok (root_page_id_ t, pinned t (root_page_id_ t))).
  { destruct fuel; cbn [descend]; unfold deref; m_run; rewrite Hp';
      unfold IsLeafPage; rewrite Hty;
      rewrite bool_decide_eq_true_2 by reflexivity; reflexivity. }
  rewrite Hd. unfold load, deref. m_run. rewrite Hp'.
  rewrite bool_decide_eq_false_2 by lia.
  intros Hrun.
  repeat match goal with
         | H : context [match ?m ?s with Ok _ => _ | Fail _ => _ end] |- _ =>
             destruct (m s) as [[? ?]|?]; [|discriminate H]
         end.
  congruence.
Qed.

End TreeFacts.

(** C1: [GetValue] does not descend until it reaches a leaf.  Its loop runs
    while the node IS a leaf: on a root that is a leaf holding the key it
    calls the internal-page [Lookup] on that leaf, and on an internal root
    it skips the descent and calls the leaf [Lookup] on the internal page.
    In neither tree does it return true, although key 2 (resp. 5) is there
    and the descent of the specification returns it. *)
Theorem C1_GetValue_descends_while_leaf :
  BTree.GetValue 10 2 [] (single_leaf 4) = Fail TypeConfusion /\
  BTree.GetValue 10 5 []
    (two_level [(1, 10); (2, 20)] [(5, 50); (6, 60)]) = Fail TypeConfusion /\
  value (BTree.GetValue_spec 10 2 [] (single_leaf 4)) = Some (true, [20]) /\
  value (BTree.GetValue_spec 10 5 []
           (two_level [(1, 10); (2, 20)] [(5, 50); (6, 60)]))
    = Some (true, [50]).
Proof. vm_compute. auto. Qed.

(** C2: [Insert] of a key that is already in a FULL leaf is not rejected.
    On the single leaf of capacity 2 that holds keys 1 and 2,
    [Insert(2, 99)] returns true, splits the leaf, stores key 2 a second
    time in the new page and installs a new root. *)
Theorem C2_duplicate_into_full_leaf_accepted :
  exists t' pg,
    BTree.Insert 10 2 99 (single_leaf 2) = Ok (true, t') /\
    BTree.root_page_id_ (single_leaf 2) = 1 /\
    BTree.root_page_id_ t' = 3 /\
    page_at t' 2 = Some pg /\
    BTree.body pg = BTree.LeafBody BTree.INVALID_PAGE_ID [(2, 20); (2, 99)].
Proof.
  eexists. eexists. split; [vm_compute; reflexivity|].
  vm_compute. auto.
Qed.

(** C7: three exit paths that keep a pin.
    (a) [InsertIntoLeaf] returns false for a duplicate key without unpinning
        the leaf it fetched: the pin count of page 1 goes from 0 to 1.
    (b) [GetValue] returns false for an absent key without unpinning the
        page it fetched: on the tree that [Insert(1, 10)] starts from
        nothing, the pin count of the root goes up by one.
    (c) [Redistribute] fetches the parent a second time and never unpins
        it: removing key 6 makes leaf 3 borrow from leaf 2 and leaves the
        parent, page 1, pinned. *)
Theorem C7_pins_not_returned :
  (exists t',
     BTree.Insert 10 2 99 (single_leaf 4) = Ok (false, t') /\
     BTree.pins (single_leaf 4) 1 = 0 /\ BTree.pins t' 1 = 1) /\
  (exists t1 t2,
     BTree.Insert 10 1 10 empty_tree = Ok (true, t1) /\
     BTree.GetValue 10 2 [] t1 = Ok ((false, []), t2) /\
     BTree.root_page_id_ t1 = 1 /\
     BTree.pins t2 1 = BTree.pins t1 1 + 1) /\
  (exists t',
     BTree.Remove 10 6
       (two_level [(1, 10); (2, 20); (3, 30); (4, 40)] [(5, 50); (6, 60)])
       = Ok (tt, t') /\
     BTree.scan 3 t' 2 = [1; 2; 3; 4; 5] /\
     BTree.pins
       (two_level [(1, 10); (2, 20); (3, 30); (4, 40)] [(5, 50); (6, 60)]) 1
       = 0 /\
     BTree.pins t' 1 = 1 /\ BTree.pins t' 2 = 0 /\ BTree.pins t' 3 = 0).
Proof.
  split; [|split].
  - eexists. split; [vm_compute; reflexivity|]. vm_compute. auto.
  - eexists. eexists. split; [vm_compute; reflexivity|].
    split; [vm_compute; reflexivity|]. vm_compute. auto.
  - eexists. split; [vm_compute; reflexivity|]. vm_compute. repeat split.
Qed.

(** ** Index iterator *)

Section IteratorFacts.
  Import BTree.

Ltac m_run := repeat (unfold bind, ret, lift, throw; cbv beta iota).


End IteratorFacts.




(** * Further properties *)

(** ** Lock manager: what the wait queues keep *)

Section QueueFacts.
  Import Lock.

Lemma waiting_app (l1 l2 : list Request) :
  waiting (l1 ++ l2) = waiting l1 && waiting l2.
Proof. unfold waiting. apply forallb_app. Qed.

Lemma shared_prefix_snoc (l : list Request) (r : Request) :
  granted r = false -> shared_prefix l = true ->
  shared_prefix (l ++ [r]) = true.
Proof.
  intros Hr. induction l as [|x l IH]; simpl.
  - now rewrite Hr.
  - destruct (granted x).
    + intros [Hm Hl]%andb_prop. rewrite Hm. simpl. auto.
    + intros Hw. rewrite waiting_app, Hw. simpl. now rewrite Hr.
Qed.

Lemma shared_prefix_waiting (l : list Request) :
  waiting l = true -> shared_prefix l = true.
Proof.
  destruct l as [|x l]; simpl; [reflexivity|].
  intros [Hx Hl]%andb_prop. apply negb_true_iff in Hx. now rewrite Hx.
Qed.

Lemma compatible_snoc (l : list Request) (r : Request) :
  granted r = false -> compatible l = true -> compatible (l ++ [r]) = true.
Proof.
  intros Hr. destruct l as [|x l].
  - simpl. now rewrite Hr.
  - change ((x :: l) ++ [r]) with (x :: (l ++ [r])).
    unfold compatible.
    destruct (granted x && bool_decide (mode x = EXCLUSIVE)).
    + intros Hw. rewrite waiting_app, Hw. simpl. now rewrite Hr.
    + intros Hs. change (x :: (l ++ [r])) with ((x :: l) ++ [r]).
      now apply shared_prefix_snoc.
Qed.

Lemma waiting_delete (l : list Request) (i : nat) :
  waiting l = true -> waiting (delete i l) = true.
Proof.
  revert i. induction l as [|x l IH]; intros [|i]; simpl; auto.
  - now intros [_ Hl]%andb_prop.
  - intros [Hx Hl]%andb_prop. rewrite Hx. simpl. auto.
Qed.

Lemma shared_prefix_delete (l : list Request) (i : nat) :
  shared_prefix l = true -> shared_prefix (delete i l) = true.
Proof.
  revert i. induction l as [|x l IH]; intros [|i]; simpl; auto.
  - destruct (granted x).
    + now intros [_ Hl]%andb_prop.
    + apply shared_prefix_waiting.
  - destruct (granted x).
    + intros [Hm Hl]%andb_prop. rewrite Hm. simpl. auto.
    + apply waiting_delete.
Qed.

Lemma compatible_delete (l : list Request) (i : nat) :
  compatible l = true -> compatible (delete i l) = true.
Proof.
  destruct l as [|x l]; [destruct i; auto|].
  destruct i as [|i].
  - simpl. destruct (granted x && bool_decide (mode x = EXCLUSIVE)) eqn:Hx.
    + intros Hw. destruct l as [|y l]; [reflexivity|].
      unfold compatible. simpl in Hw. apply andb_prop in Hw as [Hy Hl].
      apply negb_true_iff in Hy. rewrite Hy. simpl. now rewrite Hy.
    + destruct (granted x) eqn:Hg.
      * intros [_ Hl]%andb_prop. destruct l as [|y l]; [reflexivity|].
        unfold compatible.
        destruct (granted y && bool_decide (mode y = EXCLUSIVE)) eqn:Hy;
          [|exact Hl].
        apply andb_prop in Hy as [Hy1 Hy2]. simpl in Hl. rewrite Hy1 in Hl.
        apply andb_prop in Hl as [Hl _].
        apply bool_decide_eq_true_1 in Hl, Hy2. congruence.
      * intros Hw. change (compatible l = true).
        destruct l as [|y l]; [reflexivity|]. unfold compatible.
        simpl in Hw. apply andb_prop in Hw as [Hy Hl].
        apply negb_true_iff in Hy. rewrite Hy. simpl. now rewrite Hy.
  - change (delete (S i) (x :: l)) with (x :: delete i l).
    unfold compatible.
    destruct (granted x && bool_decide (mode x = EXCLUSIVE)).
    + apply waiting_delete.
    + apply (shared_prefix_delete (x :: l) (S i)).
Qed.

Lemma queue_insert (lm : LockManager) (rid : RID) (w : Waiting) :
  queue (set_table lm (<[ rid := w ]> (lock_table_ lm))) rid = w_list w.
Proof. unfold queue, at_rid. simpl. now rewrite lookup_insert_eq. Qed.

Lemma queue_absent (lm : LockManager) (rid : RID) :
  lock_table_ lm !! rid = None -> queue lm rid = [].
Proof. unfold queue, at_rid. now intros ->. Qed.

Lemma queue_present (lm : LockManager) (rid : RID) (w : Waiting) :
  lock_table_ lm !! rid = Some w -> queue lm rid = w_list w.
Proof. unfold queue, at_rid. now intros ->. Qed.

Ltac enter_tac :=
  intros lm t rid st;
  repeat case_bool_decide; simpl; try discriminate;
  try (intros [= <-]; simpl; auto; fail);
  destruct (lock_table_ lm !! rid) as [w|] eqn:Hq;
  repeat (case_bool_decide; simpl); intros [= <-]; simpl; auto;
  right; rewrite queue_insert; simpl;
  first [ now rewrite (queue_present _ _ _ Hq)
        | now rewrite (queue_absent _ _ Hq) ].

Lemma V1_LockShared_enters : enters V1.LockShared_enter SHARED.
Proof. unfold enters, V1.LockShared_enter, assert. enter_tac. Qed.

Lemma V1_LockExclusive_enters : enters V1.LockExclusive_enter EXCLUSIVE.
Proof. unfold enters, V1.LockExclusive_enter, assert. enter_tac. Qed.

Lemma V2_enters (m : LockMode) : enters (V2.enter m) m.
Proof. unfold enters, V2.enter, assert. enter_tac. Qed.

(** What [Unlock] does to the queue of [rid]: nothing, or the removal of
    one request. *)
Lemma V1_Unlock_queue (lm lm' : LockManager) (t t' : Transaction)
    (rid : RID) (b : bool) :
  V1.Unlock lm t rid = Ok (b, t', lm') ->
  queue lm' rid = queue lm rid \/
  exists i, queue lm' rid = delete i (queue lm rid).
Proof.
  unfold V1.Unlock, assert.
  destruct (Unlock_state lm t) as [t1|t1]; [intros [= <- <- <-]; auto|].
  case_bool_decide; simpl; [|discriminate].
  destruct (find_req _ _ _) as [[i r]|]; intros [= <- <- <-]; auto.
  right. exists i. now rewrite queue_insert.
Qed.

Lemma V2_Unlock_queue (lm lm' : LockManager) (t t' : Transaction)
    (rid : RID) (b : bool) :
  V2.Unlock lm t rid = Ok (b, t', lm') ->
  queue lm' rid = queue lm rid \/
  exists i, queue lm' rid = delete i (queue lm rid).
Proof.
  unfold V2.Unlock, assert.
  destruct (Unlock_state lm t) as [t1|t1]; [intros [= <- <- <-]; auto|].
  case_bool_decide; simpl; [|discriminate].
  destruct (find_req _ _ _) as [[i r]|]; intros [= <- <- <-]; auto.
  right. exists i. now rewrite queue_insert.
Qed.

End QueueFacts.

(** X1: compatibility of the granted requests is kept by every entry step
    ([LockShared] and [LockExclusive] up to the wait, both revisions) and by
    both revisions of [Unlock]: a step adds a request that is not granted or
    removes a request. *)
Theorem compatible_kept_by_enter_and_unlock (lm : Lock.LockManager)
    (t : Lock.Transaction) (rid : Lock.RID) :
  Lock.compatible (Lock.queue lm rid) = true ->
  (forall st, Lock.V1.LockShared_enter lm t rid = Ok st ->
              Lock.compatible (Lock.queue (Lock.lm_of st) rid) = true) /\
  (forall st, Lock.V1.LockExclusive_enter lm t rid = Ok st ->
              Lock.compatible (Lock.queue (Lock.lm_of st) rid) = true) /\
  (forall st, Lock.V2.LockShared_enter lm t rid = Ok st ->
              Lock.compatible (Lock.queue (Lock.lm_of st) rid) = true) /\
  (forall st, Lock.V2.LockExclusive_enter lm t rid = Ok st ->
              Lock.compatible (Lock.queue (Lock.lm_of st) rid) = true) /\
  (forall b t' lm', Lock.V1.Unlock lm t rid = Ok (b, t', lm') ->
                    Lock.compatible (Lock.queue lm' rid) = true) /\
  (forall b t' lm', Lock.V2.Unlock lm t rid = Ok (b, t', lm') ->
                    Lock.compatible (Lock.queue lm' rid) = true).
Proof.
  intros Hc.
  assert (Henter : forall f m, Lock.enters f m -> forall st,
            f lm t rid = Ok st ->
            Lock.compatible (Lock.queue (Lock.lm_of st) rid) = true).
  { intros f m Hf st Hst. destruct (Hf lm t rid st Hst) as [-> | ->].
    - exact Hc.
    - now apply compatible_snoc. }
  assert (Hdel : forall lm', (Lock.queue lm' rid = Lock.queue lm rid \/
            exists i, Lock.queue lm' rid = delete i (Lock.queue lm rid)) ->
            Lock.compatible (Lock.queue lm' rid) = true).
  { intros lm' [-> | [i ->]]; [exact Hc | now apply compatible_delete]. }
  repeat split.
  - apply (Henter _ _ V1_LockShared_enters).
  - apply (Henter _ _ V1_LockExclusive_enters).
  - apply (Henter _ _ (V2_enters Lock.SHARED)).
  - apply (Henter _ _ (V2_enters Lock.EXCLUSIVE)).
  - intros b t' lm' H. apply Hdel. eapply V1_Unlock_queue; eauto.
  - intros b t' lm' H. apply Hdel. eapply V2_Unlock_queue; eauto.
Qed.

Lemma compatible_kept_by_enter_and_unlock_witness :
  Lock.compatible (Lock.queue (one_shared false) rid0) = true /\
  (forall st, Lock.V1.LockShared_enter (one_shared false) txn1 rid0 = Ok st ->
              Lock.compatible (Lock.queue (Lock.lm_of st) rid0) = true).
Proof.
  split; [reflexivity|].
  exact (proj1 (compatible_kept_by_enter_and_unlock
                  (one_shared false) txn1 rid0 eq_refl)).
Defined.

Section GrantFacts.
  Import Lock.






End GrantFacts.



Section OldestFacts.
  Import Lock.




Lemma at_rid_insert (tb : gmap RID Waiting) (rid : RID) (w : Waiting) :
  at_rid (<[ rid := w ]> tb) rid = w.
Proof. unfold at_rid. now rewrite lookup_insert_eq. Qed.

Lemma at_rid_present (tb : gmap RID Waiting) (rid : RID) (w : Waiting) :
  tb !! rid = Some w -> at_rid tb rid = w.
Proof. unfold at_rid. now intros ->. Qed.

Lemma at_rid_absent (tb : gmap RID Waiting) (rid : RID) :
  tb !! rid = None -> at_rid tb rid = Waiting_default.
Proof. unfold at_rid. now intros ->. Qed.

End OldestFacts.



Section CounterFacts.
  Import Lock.

Lemma count_exclusive_cons (r : Request) (l : list Request) :
  count_exclusive (r :: l) = weight r + count_exclusive l.
Proof.
  unfold count_exclusive, weight. rewrite filter_cons.
  case_bool_decide; case_decide; try tauto; simpl length; lia.
Qed.




Lemma find_req_lookup (l : list Request) (id : Z) (k i : nat) (r : Request) :
  find_req l id k = Some (i, r) ->
  (k <= i)%nat /\ l !! (i - k)%nat = Some r /\ r_txn_id r = id.
Proof.
  revert k. induction l as [|x l IH]; intros k; simpl; [discriminate|].
  case_bool_decide as Hx.
  - intros [= <- <-]. rewrite Nat.sub_diag. auto.
  - intros H. apply IH in H as (Hk & Hl & Hr). split; [lia|]. split; auto.
    replace (i - k)%nat with (S (i - S k)) by lia. exact Hl.
Qed.


End CounterFacts.



Section OrderFacts.
  Import Lock.







End OrderFacts.



Section UnlockFacts.
  Import Lock.

Lemma find_req_delete (l : list Request) (id : Z) (k i : nat) (r : Request) :
  find_req l id k = Some (i, r) ->
  filter (fun q => r_txn_id q <> id) (delete (i - k)%nat l)
  = filter (fun q => r_txn_id q <> id) l /\
  S (length (delete (i - k)%nat l)) = length l.
Proof.
  revert k. induction l as [|x l IH]; intros k; simpl; [discriminate|].
  case_bool_decide as Hx.
  - intros [= <- <-]. rewrite Nat.sub_diag. simpl.
    rewrite filter_cons. case_decide; [tauto|auto].
  - intros H. pose proof (find_req_lookup _ _ _ _ _ H) as (Hk & _ & _).
    apply IH in H as [Hf Hl].
    replace (i - k)%nat with (S (i - S k)) by lia. simpl.
    rewrite !filter_cons. case_decide; [|tauto].
    split; [now rewrite Hf | now rewrite Hl].
Qed.

Lemma find_req_none (l : list Request) (id : Z) (k : nat) :
  find_req l id k = None <-> absent id l = true.
Proof.
  revert k. induction l as [|x l IH]; intros k; simpl; [tauto|].
  destruct (decide (r_txn_id x = id)) as [Hx|Hx].
  - rewrite (bool_decide_eq_true_2 _ Hx).
    rewrite (bool_decide_eq_false_2 (r_txn_id x <> id)) by tauto.
    simpl. split; discriminate.
  - rewrite (bool_decide_eq_false_2 _ Hx), (bool_decide_eq_true_2 _ Hx).
    simpl. apply IH.
Qed.

End UnlockFacts.

(** X6: without strict 2PL, [Unlock] on an existing queue returns true in
    both revisions; it removes one request of the caller, when there is
    one, and nothing else: the requests of the other transactions stay, in
    their order, and the queues of the other records are untouched. *)
Theorem Unlock_removes_only_the_callers_request (lm : Lock.LockManager)
    (t : Lock.Transaction) (rid : Lock.RID) (w : Lock.Waiting) :
  Lock.strict_2PL_ lm = false ->
  Lock.lock_table_ lm !! rid = Some w ->
  forall unlock, unlock = Lock.V1.Unlock \/ unlock = Lock.V2.Unlock ->
  exists t' lm',
    unlock lm t rid = Ok (true, t', lm') /\
    Lock.txn_id t' = Lock.txn_id t /\
    filter (fun q => Lock.r_txn_id q <> Lock.txn_id t) (Lock.queue lm' rid)
    = filter (fun q => Lock.r_txn_id q <> Lock.txn_id t) (Lock.w_list w) /\
    (length (Lock.queue lm' rid)
     = if Lock.absent (Lock.txn_id t) (Lock.w_list w)
       then length (Lock.w_list w)
       else (length (Lock.w_list w) - 1)%nat) /\
    (forall rid', rid' <> rid ->
       Lock.lock_table_ lm' !! rid' = Lock.lock_table_ lm !! rid').
Proof.
  intros Hs Hq unlock Hu.
  assert (Hst : exists t1, Lock.Unlock_state lm t = inr t1 /\
                           Lock.txn_id t1 = Lock.txn_id t).
  { unfold Lock.Unlock_state. rewrite Hs.
    case_bool_decide; eexists; split; reflexivity. }
  destruct Hst as (t1 & Hst & Hid).
  pose proof (queue_present _ _ _ Hq) as Hqueue.
  destruct (Lock.find_req (Lock.w_list w) (Lock.txn_id t1) 0)
    as [[i r]|] eqn:Hf.
  - pose proof (find_req_delete _ _ _ _ _ Hf) as [Hfilter Hlen].
    rewrite Nat.sub_0_r in Hfilter, Hlen. rewrite Hid in Hfilter.
    assert (Habs : Lock.absent (Lock.txn_id t) (Lock.w_list w) = false).
    { destruct (Lock.absent _ _) eqn:Ha; [|reflexivity].
      rewrite <- Hid in Ha. apply (find_req_none _ _ 0) in Ha. congruence. }
    destruct Hu as [-> | ->];
      unfold Lock.V1.Unlock, Lock.V2.Unlock, assert;
      rewrite Hst, bool_decide_eq_true_2 by (rewrite Hq; eauto);
      simpl; rewrite (at_rid_present _ _ _ Hq), Hf;
      eexists; eexists; (split; [reflexivity|]);
      rewrite queue_insert; simpl; rewrite Habs;
      (split; [exact Hid|]); (split; [exact Hfilter|]);
      (split; [lia|]); intros rid' Hne; now rewrite lookup_insert_ne.
  - assert (Habs : Lock.absent (Lock.txn_id t) (Lock.w_list w) = true).
    { rewrite <- Hid. now apply (find_req_none _ _ 0). }
    destruct Hu as [-> | ->];
      unfold Lock.V1.Unlock, Lock.V2.Unlock, assert;
      rewrite Hst, bool_decide_eq_true_2 by (rewrite Hq; eauto);
      simpl; rewrite (at_rid_present _ _ _ Hq), Hf;
      eexists; eexists; (split; [reflexivity|]);
      rewrite Hqueue, Habs; auto.
Qed.

Lemma Unlock_removes_only_the_callers_request_witness :
  exists t' lm',
    Lock.V1.Unlock shared_then_waiting txn1 rid0 = Ok (true, t', lm') /\
    Lock.queue lm' rid0 = [Lock.mkReq 0 Lock.SHARED true].
Proof.
  destruct (Unlock_removes_only_the_callers_request
              shared_then_waiting txn1 rid0
              (Lock.mkWaiting 0 0 [Lock.mkReq 0 Lock.SHARED true;
                                   Lock.mkReq 1 Lock.SHARED false])
              eq_refl eq_refl Lock.V1.Unlock (or_introl eq_refl))
    as (t' & lm' & Hu & _).
  exists t', lm'. split; [exact Hu|].
  vm_compute in Hu. injection Hu as _ <-. reflexivity.
Defined.

(** X7: without strict 2PL, when the transaction at the head of a queue
    unlocks, the request right behind it becomes the head and its owner can
    proceed at once, whether it waits in [LockShared] or in [LockExclusive]
    (both revisions). *)
Theorem released_head_hands_over (lm : Lock.LockManager)
    (t1 t2 : Lock.Transaction) (rid : Lock.RID) (w : Lock.Waiting)
    (r1 r2 : Lock.Request) (rest : list Lock.Request) :
  Lock.strict_2PL_ lm = false ->
  Lock.lock_table_ lm !! rid = Some w ->
  Lock.w_list w = r1 :: r2 :: rest ->
  Lock.r_txn_id r1 = Lock.txn_id t1 ->
  Lock.r_txn_id r2 = Lock.txn_id t2 ->
  forall unlock, unlock = Lock.V1.Unlock \/ unlock = Lock.V2.Unlock ->
  exists t' lm',
    unlock lm t1 rid = Ok (true, t', lm') /\
    Lock.queue lm' rid = r2 :: rest /\
    Lock.LockShared_ready lm' t2 rid = true /\
    Lock.front_ready lm' t2 rid = Ok true.
Proof.
  intros Hs Hq Hl H1 H2 unlock Hu.
  assert (Hst : exists t1', Lock.Unlock_state lm t1 = inr t1' /\
                            Lock.txn_id t1' = Lock.txn_id t1).
  { unfold Lock.Unlock_state. rewrite Hs.
    case_bool_decide; eexists; split; reflexivity. }
  destruct Hst as (t1' & Hst & Hid).
  assert (Hready : forall lm', Lock.queue lm' rid = r2 :: rest ->
            Lock.queue lm' rid = r2 :: rest /\
            Lock.LockShared_ready lm' t2 rid = true /\
            Lock.front_ready lm' t2 rid = Ok true).
  { intros lm' Hq'. split; [exact Hq'|].
    unfold Lock.LockShared_ready, Lock.front_ready.
    fold (Lock.queue lm' rid). rewrite Hq'. simpl.
    rewrite (bool_decide_eq_false_2 (Lock.r_txn_id r2 <> Lock.txn_id t2))
      by tauto.
    now rewrite bool_decide_eq_true_2 by exact H2. }
  destruct Hu as [-> | ->];
    unfold Lock.V1.Unlock, Lock.V2.Unlock, assert;
    rewrite Hst, bool_decide_eq_true_2 by (rewrite Hq; eauto);
    simpl; rewrite (at_rid_present _ _ _ Hq), Hl; simpl;
    rewrite bool_decide_eq_true_2 by congruence;
    eexists; eexists; (split; [reflexivity|]);
    apply Hready; now rewrite queue_insert.
Qed.

Lemma released_head_hands_over_witness :
  exists t' lm',
    Lock.V1.Unlock (exclusive_then_waiting 2) txn1 rid0 = Ok (true, t', lm') /\
    Lock.queue lm' rid0 = [Lock.mkReq 0 Lock.EXCLUSIVE false] /\
    Lock.LockShared_ready lm' txn0 rid0 = true /\
    Lock.front_ready lm' txn0 rid0 = Ok true.
Proof.
  exact (released_head_hands_over (exclusive_then_waiting 2) txn1 txn0 rid0
           (Lock.mkWaiting 2 0 [Lock.mkReq 1 Lock.EXCLUSIVE true;
                                Lock.mkReq 0 Lock.EXCLUSIVE false])
           (Lock.mkReq 1 Lock.EXCLUSIVE true)
           (Lock.mkReq 0 Lock.EXCLUSIVE false) []
           eq_refl eq_refl eq_refl eq_refl eq_refl
           Lock.V1.Unlock (or_introl eq_refl)).
Defined.

(** X8: a growing transaction that locks a record nobody has asked for is
    granted the lock at once, in both revisions: the call returns true, the
    transaction stays GROWING with the record added to its lock set, and the
    new queue holds its single granted request with [oldest] its id. *)
Theorem lock_on_free_record_is_granted (lm : Lock.LockManager)
    (t : Lock.Transaction) (rid : Lock.RID) :
  Lock.state t = Lock.GROWING ->
  Lock.lock_table_ lm !! rid = None ->
  let shared_result c :=
    Ok (Some (true,
              Lock.mkTxn (Lock.txn_id t) Lock.GROWING
                ({[ rid ]} ∪ Lock.shared_lock_set t)
                (Lock.exclusive_lock_set t),
              Lock.set_table lm
                (<[ rid := Lock.mkWaiting c (Lock.txn_id t)
                             [Lock.mkReq (Lock.txn_id t) Lock.SHARED true] ]>
                   (Lock.lock_table_ lm)))) in
  let exclusive_result c :=
    Ok (Some (true,
              Lock.mkTxn (Lock.txn_id t) Lock.GROWING
                (Lock.shared_lock_set t)
                ({[ rid ]} ∪ Lock.exclusive_lock_set t),
              Lock.set_table lm
                (<[ rid := Lock.mkWaiting c (Lock.txn_id t)
                             [Lock.mkReq (Lock.txn_id t)
                                Lock.EXCLUSIVE true] ]>
                   (Lock.lock_table_ lm)))) in
  Lock.V1.LockShared lm t rid = shared_result 0 /\
  Lock.V2.LockShared lm t rid = shared_result 0 /\
  Lock.V1.LockExclusive lm t rid = exclusive_result 1 /\
  Lock.V2.LockExclusive lm t rid = exclusive_result 0.
Proof.
  intros Hg Hq. simpl.
  unfold Lock.V1.LockShared, Lock.V2.LockShared, Lock.V1.LockExclusive,
    Lock.V2.LockExclusive, Lock.V1.LockShared_enter,
    Lock.V2.LockShared_enter, Lock.V1.LockExclusive_enter,
    Lock.V2.LockExclusive_enter, Lock.V2.enter, assert.
  rewrite Hg, Hq. simpl.
  unfold Lock.LockShared_ready, Lock.LockShared_grant, Lock.front_ready,
    Lock.LockExclusive_grant, assert. simpl.
  rewrite !at_rid_insert. simpl.
  rewrite !(bool_decide_eq_false_2
              (Lock.txn_id t <> Lock.txn_id t)) by tauto.
  rewrite !bool_decide_eq_true_2 by reflexivity. simpl.
  rewrite !insert_insert_eq, Hg. auto.
Qed.

Lemma lock_on_free_record_is_granted_witness :
  Lock.V1.LockExclusive (lock_mgr false) txn1 rid0
  = Ok (Some (true, Lock.mkTxn 1 Lock.GROWING ∅ ({[ rid0 ]} ∪ ∅),
              Lock.set_table (lock_mgr false)
                (<[ rid0 := Lock.mkWaiting 1 1
                              [Lock.mkReq 1 Lock.EXCLUSIVE true] ]> ∅))).
Proof.
  exact (proj1 (proj2 (proj2 (lock_on_free_record_is_granted
                                (lock_mgr false) txn1 rid0
                                eq_refl eq_refl)))).
Defined.

(** ** LRU replacer: the list it stands for *)

Section ReplacerFacts.
  Context {T : Type} `{Countable T}.
  Import LRU.
  Implicit Types (h : gmap nat (@node T)) (s : @LRUReplacer T _ _).

Lemma lseg_ext h h' p back addrs (vs : list T) e :
  (forall a, a ∈ addrs -> h' !! a = h !! a) ->
  lseg h p back addrs vs e -> lseg h' p back addrs vs e.
Proof.
  revert p back vs. induction addrs as [|a addrs IH]; intros p back vs Hext;
    destruct vs as [|v vs]; simpl; auto.
  intros (na & Ha & Hd & Hb & Hn & Hrest).
  exists na. rewrite Hext by set_solver. repeat split; auto.
  apply IH; auto. intros a' Ha'. apply Hext. set_solver.
Qed.

Lemma lseg_start h p p' back addrs (vs : list T) e :
  lseg h p back addrs vs e -> lseg h p' false addrs vs e.
Proof.
  destruct addrs as [|a addrs], vs as [|v vs]; simpl; auto.
  intros (na & Ha & Hd & Hb & Hn & Hrest).
  exists na. repeat split; auto. discriminate.
Qed.

Lemma lseg_live h p back addrs (vs : list T) e a :
  lseg h p back addrs vs e -> a ∈ addrs -> is_Some (h !! a).
Proof.
  revert p back vs. induction addrs as [|x addrs IH]; intros p back vs Hl Hin.
  - apply elem_of_nil in Hin. destruct Hin.
  - destruct vs as [|v vs]; simpl in Hl; [destruct Hl|].
    destruct Hl as (na & Ha & Hd & Hb & Hn & Hrest).
    apply elem_of_cons in Hin as [->|Hin]; eauto.
Qed.

Lemma lseg_last_node h p back addrs (vs : list T) e :
  lseg h p back addrs vs e -> addrs <> [] ->
  exists n, h !! (List.last addrs p) = Some n /\ next n = e.
Proof.
  revert p back vs. induction addrs as [|a addrs IH]; intros p back vs;
    [tauto|].
  destruct vs as [|v vs]; simpl; [tauto|].
  intros (na & Ha & Hd & Hb & Hn & Hrest) _.
  destruct addrs as [|a' addrs]; [eauto|].
  destruct (IH a true vs Hrest) as (n & Hl & Hne); [discriminate|].
  exists n. split; [|exact Hne].
  rewrite <- Hl. clear. revert a' a p.
  induction addrs as [|x l IHl]; intros; [reflexivity|].
  simpl in *. apply IHl.
Qed.

Lemma last_default_irrelevant (l : list nat) (d d' : nat) :
  l <> [] -> List.last l d = List.last l d'.
Proof.
  induction l as [|x l IH]; [tauto|]. intros _.
  destruct l as [|y l]; [reflexivity|]. simpl in *. apply IH. discriminate.
Qed.

Lemma last_in (l : list nat) (d : nat) :
  l <> [] -> List.last l d ∈ l.
Proof.
  induction l as [|x l IH]; [tauto|]. intros _.
  destruct l as [|y l]; [set_solver|].
  apply elem_of_cons. right. apply IH. discriminate.
Qed.

(** Appending a fresh node behind the last one. *)
Lemma lseg_snoc h p back addrs (vs : list T) (ptr : nat) (value : T) :
  lseg h p back addrs vs None ->
  NoDup (p :: addrs) -> ptr ∉ p :: addrs ->
  lseg (set_next (List.last addrs p) (Some ptr)
          (<[ ptr := mkNode value (Some (List.last addrs p)) None ]> h))
       p back (addrs ++ [ptr]) (vs ++ [value]) None.
Proof.
  revert p back vs. induction addrs as [|a addrs IH]; intros p back vs;
    destruct vs as [|v vs]; simpl; try tauto.
  - intros _ _ Hptr. eexists. split.
    + unfold set_next. rewrite lookup_alter_ne by set_solver.
      apply lookup_insert_eq.
    + simpl. auto.
  - intros (na & Ha & Hd & Hb & Hn & Hrest) Hnd Hptr.
    apply NoDup_cons in Hnd as [Hp Hnd].
    assert (Hpa : ptr ∉ a :: addrs).
    { intros Hin. apply Hptr. now apply elem_of_cons; right. }
    specialize (IH a true vs Hrest Hnd Hpa).
    assert (Hlast : List.last (a :: addrs) p = List.last addrs a).
    { clear. revert a p. induction addrs as [|x l IHl]; intros;
        [reflexivity|]. simpl in *. destruct l; [reflexivity|]. apply IHl. }
    simpl in Hlast. rewrite Hlast.
    destruct addrs as [|a' addrs].
    + eexists. split.
      * unfold set_next. simpl. rewrite lookup_alter_eq.
        rewrite lookup_insert_ne by set_solver. rewrite Ha. reflexivity.
      * simpl. repeat split; auto.
    + exists na. split.
      * unfold set_next. rewrite lookup_alter_ne.
        -- rewrite lookup_insert_ne by set_solver. exact Ha.
        -- intros Heq. apply NoDup_cons in Hnd as [Hnd _]. apply Hnd.
           rewrite <- Heq. apply last_in. discriminate.
      * repeat split; auto.
Qed.

Lemma table_lookup_absent (vs : list T) (addrs : list nat) (value : T) :
  length addrs = length vs -> value ∉ vs ->
  (list_to_map (zip vs addrs) : gmap T nat) !! value = None.
Proof.
  intros Hlen Hv. apply not_elem_of_list_to_map_1.
  rewrite fst_zip by lia. exact Hv.
Qed.

Lemma table_snoc (vs : list T) (addrs : list nat) (value : T) (ptr : nat) :
  length addrs = length vs -> value ∉ vs ->
  (list_to_map (zip (vs ++ [value]) (addrs ++ [ptr])) : gmap T nat)
  = <[ value := ptr ]> (list_to_map (zip vs addrs)).
Proof.
  intros Hlen Hv. rewrite zip_with_app by (symmetry; exact Hlen). simpl.
  apply list_to_map_snoc. rewrite fst_zip by lia.
  exact Hv.
Qed.

Lemma last_snoc_default (l : list nat) (x d : nat) :
  List.last (l ++ [x]) d = x.
Proof. apply List.last_last. Qed.

(** [Insert] of a value that is not in the replacer. *)
Lemma Insert_fresh_rep s back addrs (vs : list T) (value : T) :
  rep s back addrs vs -> value ∉ vs ->
  (Z.of_nat (length vs) + 1 < size_t_max)%Z ->
  exists s', Insert value s = Ok s' /\ fresh s' = S (fresh s) /\
             rep s' back (addrs ++ [fresh s]) (vs ++ [value]).
Proof.
  intros (Hhead & Hseg & Hlen & Hnd & Hndv & Htail & Htab & Hsize & Hbound
          & Hfresh) Hv Hroom.
  destruct Hhead as (nh & Hnh & Hnext).
  assert (Hptr : fresh s ∉ head_ s :: addrs).
  { intros Hin. apply elem_of_cons in Hin as [Heq|Hin].
    - assert (Hlt : (head_ s < fresh s)%nat) by (apply Hfresh; eauto). lia.
    - assert (Hlt : (fresh s < fresh s)%nat)
        by (apply Hfresh; eapply lseg_live; eauto). lia. }
  assert (Htl : exists nt, heap s !! tail_ s = Some nt /\ next nt = None).
  { rewrite Htail. destruct addrs as [|a addrs].
    - exists nh. auto.
    - eapply lseg_last_node; [exact Hseg|discriminate]. }
  destruct Htl as (nt & Hnt & Hntn).
  unfold Insert. rewrite Htab, (table_lookup_absent _ _ _ Hlen Hv).
  unfold deref. rewrite Hnt. cbn [res_bind]. rewrite Hntn.
  assert (Hdestroy : forall fuel h, destroy fuel h None = h)
    by (intros [|fuel] h; reflexivity).
  rewrite Hdestroy.
  eexists. split; [reflexivity|]. split; [reflexivity|].
  unfold rep. cbn [heap fresh head_ tail_ table_ size_].
  rewrite Htail.
  split; [|split; [|split; [|split; [|split; [|split; [|split;
    [|split; [|split]]]]]]]].
  - destruct addrs as [|a addrs].
    + simpl. eexists. split.
      * unfold set_next. rewrite lookup_alter_eq.
        rewrite lookup_insert_ne by (intros E; apply Hptr; rewrite E;
                                     apply elem_of_cons; auto).
        rewrite Hnh. reflexivity.
      * reflexivity.
    + exists nh. split; [|exact Hnext].
      unfold set_next. rewrite lookup_alter_ne.
      * rewrite lookup_insert_ne; [exact Hnh|].
        intros E; apply Hptr; rewrite E; apply elem_of_cons; auto.
      * intros E. apply NoDup_cons in Hnd as [Hnd _]. apply Hnd.
        rewrite <- E. apply last_in. discriminate.
  - apply lseg_snoc; auto.
  - rewrite !length_app. simpl. lia.
  - change (NoDup ((head_ s :: addrs) ++ [fresh s])).
    apply NoDup_app. split; [exact Hnd|]. split; [|apply NoDup_singleton].
    intros x Hx Hx'. apply list_elem_of_singleton in Hx'. subst x. auto.
  - apply NoDup_app. split; [exact Hndv|]. split; [|apply NoDup_singleton].
    intros x Hx Hx'. apply list_elem_of_singleton in Hx'. subst x. auto.
  - now rewrite last_snoc_default.
  - now rewrite table_snoc.
  - rewrite Hsize, length_app. simpl. rewrite Z.mod_small by lia. lia.
  - rewrite length_app. simpl. lia.
  - intros a [n Ha]. unfold set_next in Ha.
    destruct (decide (a = fresh s)) as [->|Hne]; [lia|].
    assert (Hlive : is_Some (heap s !! a)).
    { destruct (decide (a = List.last addrs (head_ s))) as [->|Hne'].
      - rewrite <- Htail. eauto.
      - rewrite lookup_alter_ne, lookup_insert_ne in Ha by auto. eauto. }
    apply Hfresh in Hlive. lia.
Qed.

Lemma destroy_leaf h (a : nat) (n : @node T) :
  h !! a = Some n -> next n = None ->
  destroy (size h) h (Some a) = delete a h.
Proof.
  intros Ha Hn. destruct (size h) as [|fuel] eqn:Hsz.
  - apply map_size_empty_iff in Hsz. subst h.
    rewrite lookup_empty in Ha. discriminate.
  - simpl. rewrite Ha, Hn. destruct fuel; reflexivity.
Qed.

Lemma table_delete_mid (v1 v2 : list T) (l1 l2 : list nat) (v : T)
    (a : nat) :
  length l1 = length v1 -> NoDup (v1 ++ v :: v2) ->
  delete v (list_to_map (zip (v1 ++ v :: v2) (l1 ++ a :: l2)) : gmap T nat)
  = list_to_map (zip (v1 ++ v2) (l1 ++ l2)).
Proof.
  revert l1. induction v1 as [|x v1 IH]; intros [|y l1] Hlen Hnd;
    try discriminate; simpl in *.
  - apply NoDup_cons in Hnd as [Hv _].
    destruct (decide (length l2 <= length v2)%nat) as [Hle|Hgt].
    + apply delete_insert_id, not_elem_of_list_to_map_1.
      intros Hin. apply Hv. apply list_elem_of_fmap in Hin
        as ([k w] & -> & Hin). apply elem_of_zip_l in Hin. exact Hin.
    + apply delete_insert_id, not_elem_of_list_to_map_1.
      intros Hin. apply Hv. apply list_elem_of_fmap in Hin
        as ([k w] & -> & Hin). apply elem_of_zip_l in Hin. exact Hin.
  - apply NoDup_cons in Hnd as [Hx Hnd].
    rewrite delete_insert_ne.
    + f_equal. apply IH; [lia|exact Hnd].
    + intros ->. apply Hx. apply elem_of_app. right.
      apply elem_of_cons. now left.
Qed.

(** [Victim] on a replacer that holds at least one value. *)
Lemma Victim_rep s back (a : nat) addrs (v : T) vs :
  rep s back (a :: addrs) (v :: vs) ->
  exists s', Victim s = Ok (Some v, s') /\ rep s' false addrs vs.
Proof.
  intros (Hhead & Hseg & Hlen & Hnd & Hndv & Htail & Htab & Hsize & Hbound
          & Hfresh).
  destruct Hhead as (nh & Hnh & Hnext). simpl in Hnext.
  simpl in Hseg. destruct Hseg as (na & Ha & Hd & Hb & Hn & Hrest).
  apply NoDup_cons in Hnd as [Hhd Hnd].
  apply NoDup_cons in Hnd as [Haf Hnd'].
  assert (Hne : head_ s <> a).
  { intros E. apply Hhd. rewrite E. apply elem_of_cons. now left. }
  unfold Victim. rewrite Hsize.
  replace (Z.of_nat (length (v :: vs)) =? 0)%Z with false
    by (symmetry; apply Z.eqb_neq; simpl; lia).
  unfold deref. rewrite Hnh. cbn [res_bind]. rewrite Hnext, Ha.
  cbn [res_bind].
  set (h1 := set_next (head_ s) (next na) (set_next a None (heap s))).
  assert (Hh1a : h1 !! a = Some (mkNode (data na) (pre na) None)).
  { unfold h1, set_next. rewrite lookup_alter_ne by auto.
    rewrite lookup_alter_eq, Ha. reflexivity. }
  rewrite (destroy_leaf h1 a _ Hh1a eq_refl).
  assert (Hsz : ((Z.of_nat (length (v :: vs)) - 1) mod size_t_max
                 = Z.of_nat (length vs))%Z).
  { simpl length in *. rewrite Z.mod_small by lia. lia. }
  rewrite Hsz, Hd.
  eexists. split; [reflexivity|].
  unfold rep. cbn [heap fresh head_ tail_ table_ size_].
  assert (Hhd' : head_ s ∉ addrs).
  { intros Hin. apply Hhd. apply elem_of_cons. now right. }
  assert (Hkeep : forall x, x ∈ addrs -> delete a h1 !! x = heap s !! x).
  { intros x Hx. unfold h1, set_next.
    assert (Hxa : a <> x) by (intros E; subst x; auto).
    assert (Hxh : head_ s <> x) by (intros E; subst x; auto).
    rewrite lookup_delete_ne by auto.
    rewrite !lookup_alter_ne; auto. }
  split; [|split; [|split; [|split; [|split; [|split; [|split;
    [|split; [|split]]]]]]]].
  - eexists. split.
    + rewrite lookup_delete_ne by auto. unfold h1, set_next.
      rewrite lookup_alter_eq, lookup_alter_ne, Hnh by auto. reflexivity.
    + simpl. rewrite Hn. destruct addrs; reflexivity.
  - apply lseg_ext with (h := heap s); [exact Hkeep|].
    eapply lseg_start. exact Hrest.
  - simpl in Hlen. lia.
  - apply NoDup_cons. split; assumption.
  - now apply NoDup_cons in Hndv as [_ ?].
  - rewrite Htail. destruct addrs as [|a' addrs], vs as [|v' vs];
      try discriminate; [reflexivity|].
    replace (Z.of_nat (length (v' :: vs)) =? 0)%Z with false
      by (symmetry; apply Z.eqb_neq; simpl; lia).
    reflexivity.
  - rewrite Htab.
    apply (table_delete_mid [] vs [] addrs v a eq_refl Hndv).
  - reflexivity.
  - simpl length in Hbound. lia.
  - intros x [n Hx]. apply Hfresh.
    destruct (decide (x = a)) as [->|Hxa];
      [rewrite lookup_delete_eq in Hx; discriminate|].
    rewrite lookup_delete_ne in Hx by auto. unfold h1, set_next in Hx.
    destruct (decide (x = head_ s)) as [->|Hxh]; [eauto|].
    rewrite !lookup_alter_ne in Hx by auto. eauto.
Qed.

(** [Victim] on a replacer that holds no value. *)
Lemma Victim_rep_empty s back :
  rep s back [] ([] : list T) -> Victim s = Ok (None, s).
Proof.
  intros (_ & _ & _ & _ & _ & Htail & _ & Hsize & _).
  unfold Victim. rewrite Hsize. simpl.
  rewrite bool_decide_eq_true_2 by (now rewrite Htail). reflexivity.
Qed.

Lemma rep_start s back addrs (vs : list T) :
  rep s back addrs vs -> rep s false addrs vs.
Proof.
  intros (Hhead & Hseg & Hrest). split; [exact Hhead|].
  split; [|exact Hrest]. eapply lseg_start. exact Hseg.
Qed.

Lemma init_rep (dflt : T) : rep (init dflt) true [] [].
Proof.
  unfold rep, init. cbn [heap fresh head_ tail_ table_ size_].
  split; [|split; [|split; [|split; [|split; [|split; [|split;
    [|split; [|split]]]]]]]].
  - eexists. split; [apply lookup_singleton_eq|reflexivity].
  - exact I.
  - reflexivity.
  - apply NoDup_singleton.
  - apply NoDup_nil_2.
  - reflexivity.
  - reflexivity.
  - reflexivity.
  - reflexivity.
  - intros a [n Ha]. apply lookup_singleton_Some in Ha as [<- _]. lia.
Qed.

Lemma insert_all_rep (vs : list T) : forall s back addrs (ws : list T),
  rep s back addrs ws -> NoDup (ws ++ vs) ->
  (Z.of_nat (length (ws ++ vs)) < size_t_max)%Z ->
  exists s', insert_all vs s = Ok s' /\
             rep s' back (addrs ++ seq (fresh s) (length vs)) (ws ++ vs).
Proof.
  induction vs as [|v vs IH]; intros s back addrs ws Hrep Hnd Hlen.
  - exists s. simpl. rewrite !app_nil_r. auto.
  - assert (Hv : v ∉ ws).
    { apply NoDup_app in Hnd as (_ & Hd & _). intros Hin.
      apply (Hd v Hin). apply elem_of_cons. now left. }
    rewrite length_app in Hlen. simpl length in Hlen.
    destruct (Insert_fresh_rep s back addrs ws v Hrep Hv)
      as (s1 & Hins & Hfr & Hrep1); [lia|].
    destruct (IH s1 back (addrs ++ [fresh s]) (ws ++ [v]) Hrep1)
      as (s' & Hall & Hrep').
    + now rewrite <- app_assoc.
    + rewrite <- app_assoc, length_app. simpl. lia.
    + exists s'. simpl. rewrite Hins. cbn [res_bind]. split; [exact Hall|].
      rewrite Hfr, <- !app_assoc in Hrep'. exact Hrep'.
Qed.

Lemma victims_rep (vs : list T) : forall s back addrs,
  rep s back addrs vs ->
  exists s', victims (length vs) s = Ok (vs, s') /\ rep s' false [] [].
Proof.
  induction vs as [|v vs IH]; intros s back addrs Hrep.
  - exists s. split; [reflexivity|].
    destruct addrs as [|a addrs];
      [|destruct Hrep as (_ & _ & Hlen & _); discriminate].
    eapply rep_start. exact Hrep.
  - destruct addrs as [|a addrs];
      [destruct Hrep as (_ & _ & Hlen & _); discriminate|].
    destruct (Victim_rep s back a addrs v vs Hrep) as (s1 & Hv & Hrep1).
    destruct (IH s1 false addrs Hrep1) as (s' & Hvs & Hrep').
    exists s'. simpl. rewrite Hv. cbn [res_bind]. rewrite Hvs. auto.
Qed.

Lemma chain_lseg h p back addrs (vs : list T) (fuel : nat) :
  lseg h p back addrs vs None -> (length addrs < fuel)%nat ->
  chain fuel h (head addrs) = vs.
Proof.
  revert p back vs fuel. induction addrs as [|a addrs IH];
    intros p back vs fuel; destruct vs as [|v vs]; simpl; try tauto.
  - intros _ Hf. destruct fuel; reflexivity.
  - intros (na & Ha & Hd & Hb & Hn & Hrest) Hf.
    destruct fuel as [|fuel]; [lia|]. simpl. rewrite Ha, Hd. f_equal.
    rewrite Hn. rewrite <- (IH a true vs fuel Hrest) by lia.
    destruct addrs; reflexivity.
Qed.

Lemma live_addrs_bound h (l : list nat) :
  NoDup l -> (forall a, a ∈ l -> is_Some (h !! a)) ->
  (length l <= size h)%nat.
Proof.
  intros Hnd Hlive. rewrite <- (size_list_to_set (C := gset nat) l Hnd).
  rewrite <- size_dom. apply subseteq_size. intros a Ha.
  apply elem_of_dom, Hlive. now apply elem_of_list_to_set in Ha.
Qed.

Lemma rep_contents s back addrs (vs : list T) :
  rep s back addrs vs -> contents s = vs.
Proof.
  intros ((nh & Hnh & Hnext) & Hseg & Hlen & Hnd & _).
  unfold contents. rewrite Hnh, Hnext.
  eapply chain_lseg; [exact Hseg|].
  assert (Hb : (length (head_ s :: addrs) <= size (heap s))%nat).
  { apply live_addrs_bound; [exact Hnd|]. intros a Ha.
    apply elem_of_cons in Ha as [->|Ha]; [eauto|].
    eapply lseg_live; eauto. }
  simpl in Hb. lia.
Qed.

Lemma last_cons_default (l : list nat) (a p : nat) :
  List.last (a :: l) p = List.last l a.
Proof.
  revert a p. induction l as [|x l IHl]; intros; [reflexivity|].
  simpl in *. destruct l; [reflexivity|]. apply IHl.
Qed.

Lemma last_app_cons (l1 l2 : list nat) (a d : nat) :
  List.last (l1 ++ a :: l2) d = List.last l2 a.
Proof.
  induction l1 as [|x l1 IH]; simpl app.
  - apply last_cons_default.
  - rewrite last_cons_default. rewrite <- IH.
    apply last_default_irrelevant. now destruct l1.
Qed.

(** A segment over an appended list is a segment over each part. *)
Lemma lseg_app h p back l1 l2 (v1 v2 : list T) e :
  length l1 = length v1 ->
  lseg h p back (l1 ++ l2) (v1 ++ v2) e <->
  lseg h p back l1 v1 (match l2 with [] => e | a :: _ => Some a end) /\
  lseg h (List.last l1 p) (match l1 with [] => back | _ => true end)
       l2 v2 e.
Proof.
  revert p back v1. induction l1 as [|a l1 IH]; intros p back [|v v1] Hlen;
    try discriminate.
  - simpl. tauto.
  - injection Hlen as Hlen. rewrite last_cons_default.
    specialize (IH a true v1 Hlen). simpl.
    assert (Hb : match l1 with [] => true | _ :: _ => true end = true)
      by (now destruct l1).
    rewrite Hb in IH.
    assert (Hn : match l1 ++ l2 with [] => e | a' :: _ => Some a' end
                 = match l1 with
                   | [] => match l2 with [] => e | a0 :: _ => Some a0 end
                   | a' :: _ => Some a'
                   end) by (now destruct l1).
    rewrite Hn. split.
    + intros (na & Ha & Hd & Hbk & Hnx & Hrest). apply IH in Hrest.
      destruct Hrest as [H1 H2]. split; [|exact H2].
      exists na. auto.
    + intros [(na & Ha & Hd & Hbk & Hnx & H1) H2].
      exists na. repeat split; auto. apply IH. auto.
Qed.

(** Redirecting the [next] pointer of the last node of a segment (of the
    node before the segment when it is empty). *)
Lemma lseg_set_end h p back l (vs : list T) e e' :
  lseg h p back l vs e -> NoDup l ->
  lseg (set_next (List.last l p) e' h) p back l vs e'.
Proof.
  revert p back vs. induction l as [|a l IH]; intros p back vs;
    destruct vs as [|v vs]; cbn [lseg]; try tauto.
  intros (na & Ha & Hd & Hb & Hn & Hrest) Hnd.
  apply NoDup_cons in Hnd as [Hal Hnd].
  specialize (IH a true vs Hrest Hnd).
  rewrite last_cons_default.
  destruct l as [|a' l].
  - eexists. split.
    + unfold set_next. simpl. rewrite lookup_alter_eq, Ha. reflexivity.
    + simpl. destruct vs; simpl in *; tauto.
  - exists na. split.
    + unfold set_next. rewrite lookup_alter_ne; [exact Ha|].
      intros Heq. apply Hal. rewrite <- Heq. apply last_in. discriminate.
    + repeat split; auto.
Qed.

(** The four statements that take a node out of the list, on a node that
    has a live predecessor and a live successor. *)
Lemma unlink_linked h (a p a' : nat) (na np na' : @node T) :
  h !! a = Some na -> pre na = Some p -> next na = Some a' ->
  h !! p = Some np -> next np = Some a ->
  h !! a' = Some na' ->
  p <> a -> p <> a' -> a <> a' ->
  unlink h a
  = Ok (<[ a' := mkNode (data na') (Some p) (next na') ]>
          (<[ p := mkNode (data np) (pre np) (Some a') ]>
             (<[ a := mkNode (data na) (pre na) None ]> h)), a).
Proof.
  intros Ha Hpre Hnext Hp Hnp Ha' Hpa Hpa' Haa'.
  unfold unlink, deref. rewrite Ha. cbn [res_bind]. rewrite Hpre, Hp.
  cbn [res_bind]. rewrite Hnp.
  assert (H1 : set_next p None h !! a = Some na).
  { unfold set_next. rewrite lookup_alter_ne by auto. exact Ha. }
  rewrite H1. cbn [res_bind]. rewrite Hnext.
  set (h2 := set_next p (Some a') (set_next a None (set_next p None h))).
  assert (H2p : h2 !! p = Some (mkNode (data np) (pre np) (Some a'))).
  { unfold h2, set_next. rewrite lookup_alter_eq, lookup_alter_ne by auto.
    rewrite lookup_alter_eq, Hp. reflexivity. }
  assert (H2a' : h2 !! a' = Some na').
  { unfold h2, set_next. rewrite !lookup_alter_ne by auto. exact Ha'. }
  rewrite H2p. cbn [res_bind next]. rewrite H2a'. cbn [res_bind].
  f_equal. f_equal. apply map_eq. intros x. unfold set_pre.
  destruct (decide (x = a')) as [->|Hxa'].
  { rewrite lookup_alter_eq, H2a', lookup_insert_eq. reflexivity. }
  rewrite lookup_alter_ne, lookup_insert_ne by auto.
  destruct (decide (x = p)) as [->|Hxp].
  { rewrite H2p, lookup_insert_eq. reflexivity. }
  rewrite lookup_insert_ne by auto.
  unfold h2, set_next. rewrite lookup_alter_ne by auto.
  destruct (decide (x = a)) as [->|Hxa].
  { rewrite lookup_alter_eq, lookup_insert_eq, lookup_alter_ne by auto.
    rewrite Ha. simpl. rewrite ?Hpre. reflexivity. }
  rewrite lookup_insert_ne by auto. rewrite !lookup_alter_ne by auto.
  reflexivity.
Qed.

Lemma last_in_cons (l : list nat) (p : nat) : List.last l p ∈ p :: l.
Proof.
  destruct l as [|x l]; [apply elem_of_cons; now left|].
  apply elem_of_cons. right. apply last_in. discriminate.
Qed.

Lemma table_lookup_mid (v1 v2 : list T) (l1 l2 : list nat) (v : T)
    (a : nat) :
  length l1 = length v1 -> NoDup (v1 ++ v :: v2) ->
  (list_to_map (zip (v1 ++ v :: v2) (l1 ++ a :: l2)) : gmap T nat) !! v
  = Some a.
Proof.
  revert l1. induction v1 as [|x v1 IH]; intros [|y l1] Hlen Hnd;
    try discriminate; simpl in *.
  - apply lookup_insert_eq.
  - apply NoDup_cons in Hnd as [Hx Hnd].
    rewrite lookup_insert_ne; [apply IH; [lia|exact Hnd]|].
    intros ->. apply Hx. apply elem_of_app. right.
    apply elem_of_cons. now left.
Qed.

(** Taking an interior node out of the chain of a replacer. *)
Lemma unlink_interior h (hd : nat) back l1 l2 (a a' : nat)
    (v1 v2 : list T) (v v' : T) :
  (exists nh, h !! hd = Some nh /\ next nh = head (l1 ++ a :: a' :: l2)) ->
  lseg h hd back (l1 ++ a :: a' :: l2) (v1 ++ v :: v' :: v2) None ->
  length l1 = length v1 ->
  NoDup (hd :: l1 ++ a :: a' :: l2) ->
  back = true \/ l1 <> [] ->
  exists hU,
    unlink h a = Ok (hU, a) /\
    (exists nh', hU !! hd = Some nh' /\ next nh' = head (l1 ++ a' :: l2)) /\
    lseg hU hd back (l1 ++ a' :: l2) (v1 ++ v' :: v2) None /\
    (exists n, hU !! a = Some n /\ data n = v /\ next n = None) /\
    (forall x, is_Some (hU !! x) -> is_Some (h !! x)).
Proof.
  intros (nh & Hnh & Hnext) Hseg Hlen Hnd Hback.
  apply (lseg_app h hd back l1 (a :: a' :: l2) v1 (v :: v' :: v2) None Hlen)
    in Hseg as [Hs1 Hs2].
  set (p := List.last l1 hd) in *.
  cbn [lseg] in Hs2.
  destruct Hs2 as (na & Ha & Hd & Hb & Hn & na' & Ha' & Hd' & Hb' & Hn'
                   & Hrest).
  assert (Hpre : pre na = Some p).
  { apply Hb. destruct l1; [|reflexivity].
    destruct Hback as [->|Hne]; [reflexivity|]. now destruct Hne. }
  assert (Hp : exists np, h !! p = Some np /\ next np = Some a).
  { destruct l1 as [|x l1].
    - exists nh. auto.
    - unfold p. eapply lseg_last_node; [exact Hs1|discriminate]. }
  destruct Hp as (np & Hp & Hnp).
  change (hd :: l1 ++ a :: a' :: l2) with ((hd :: l1) ++ a :: a' :: l2)
    in Hnd.
  apply NoDup_app in Hnd as (Hnd1 & Hdisj & Hnd2).
  assert (Hpin : p ∈ hd :: l1) by apply last_in_cons.
  apply NoDup_cons in Hnd2 as [Haa' Hnd2].
  apply NoDup_cons in Hnd2 as [Ha'l2 Hnd2].
  assert (Hfront : forall x, x ∈ hd :: l1 -> x <> a /\ x <> a' /\ x ∉ l2).
  { intros x Hx. specialize (Hdisj x Hx). repeat split.
    - intros ->. apply Hdisj. apply elem_of_cons. now left.
    - intros ->. apply Hdisj. apply elem_of_cons. right.
      apply elem_of_cons. now left.
    - intros Hin. apply Hdisj. apply elem_of_cons. right.
      apply elem_of_cons. now right. }
  destruct (Hfront p Hpin) as (Hpa & Hpa' & Hpl2).
  assert (Hneq : a <> a').
  { intros ->. apply Haa'. apply elem_of_cons. now left. }
  assert (Hal2 : a ∉ l2).
  { intros Hin. apply Haa'. apply elem_of_cons. now right. }
  eexists. split.
  { apply (unlink_linked h a p a' na np na'); auto. }
  set (hU := <[ a' := _ ]> (<[ p := _ ]> (<[ a := _ ]> h))).
  assert (Hother : forall x, x <> a -> x <> a' -> x <> p ->
                             hU !! x = h !! x).
  { intros x Hxa Hxa' Hxp. unfold hU.
    rewrite !lookup_insert_ne by auto. reflexivity. }
  assert (HUp : hU !! p = Some (mkNode (data np) (pre np) (Some a'))).
  { unfold hU. rewrite lookup_insert_ne by auto. apply lookup_insert_eq. }
  assert (HUa' : hU !! a'
                 = Some (mkNode (data na') (Some p) (next na'))).
  { unfold hU. apply lookup_insert_eq. }
  assert (HUa : hU !! a = Some (mkNode (data na) (pre na) None)).
  { unfold hU. rewrite !lookup_insert_ne by auto. apply lookup_insert_eq. }
  split; [|split; [|split]].
  - destruct l1 as [|x l1].
    + eexists. split; [exact HUp|reflexivity].
    + exists nh. split; [|exact Hnext].
      destruct (Hfront hd) as (Hha & Hha' & _);
        [apply elem_of_cons; now left|].
      rewrite Hother; auto.
      intros E. apply NoDup_cons in Hnd1 as [Hhd _]. apply Hhd.
      rewrite E. apply last_in. discriminate.
  - apply (lseg_app hU hd back l1 (a' :: l2) v1 (v' :: v2) None Hlen).
    split.
    + apply lseg_ext with (h := set_next p (Some a') h).
      * intros x Hx.
        destruct (Hfront x) as (Hxa & Hxa' & _);
          [apply elem_of_cons; now right|].
        unfold set_next. destruct (decide (x = p)) as [->|Hxp].
        -- rewrite HUp, lookup_alter_eq, Hp. reflexivity.
        -- rewrite lookup_alter_ne by auto. apply Hother; auto.
      * apply lseg_set_end with (e := Some a); [exact Hs1|].
        now apply NoDup_cons in Hnd1 as [_ ?].
    + fold p. cbn [lseg]. eexists. split; [exact HUa'|].
      split; [exact Hd'|]. split; [reflexivity|]. split; [exact Hn'|].
      apply lseg_ext with (h := h); [|exact Hrest].
      intros x Hx. apply Hother.
      * intros ->. auto.
      * intros ->. auto.
      * intros ->. auto.
  - eexists. split; [exact HUa|]. auto.
  - intros x Hx.
    destruct (decide (x = a)) as [->|Hxa]; [eauto|].
    destruct (decide (x = a')) as [->|Hxa']; [eauto|].
    destruct (decide (x = p)) as [->|Hxp]; [eauto|].
    rewrite Hother in Hx by auto. exact Hx.
Qed.

Lemma NoDup_drop_mid {A : Type} (l1 l2 : list A) (x : A) :
  NoDup (l1 ++ x :: l2) -> NoDup (l1 ++ l2) /\ x ∉ l1 ++ l2.
Proof.
  intros Hnd. apply NoDup_app in Hnd as (H1 & Hd & H2).
  apply NoDup_cons in H2 as [Hx H2]. split.
  - apply NoDup_app. repeat split; auto.
    intros y Hy Hy'. apply (Hd y Hy). apply elem_of_cons. now right.
  - intros Hin. apply elem_of_app in Hin as [Hin|Hin]; [|auto].
    apply (Hd x Hin). apply elem_of_cons. now left.
Qed.

(** [Erase] of a value that has a successor in the list, and whose node
    has a valid back pointer. *)
Lemma Erase_interior_rep s back l1 l2 (a a' : nat) (v1 v2 : list T)
    (v v' : T) :
  rep s back (l1 ++ a :: a' :: l2) (v1 ++ v :: v' :: v2) ->
  length l1 = length v1 ->
  back = true \/ l1 <> [] ->
  exists s', Erase v s = Ok (true, s') /\
             rep s' back (l1 ++ a' :: l2) (v1 ++ v' :: v2).
Proof.
  intros (Hhead & Hseg & Hlen & Hnd & Hndv & Htail & Htab & Hsize & Hbound
          & Hfresh) Hl1 Hback.
  destruct (unlink_interior (heap s) (head_ s) back l1 l2 a a' v1 v2 v v'
              Hhead Hseg Hl1 Hnd Hback)
    as (hU & Hun & HUhead & HUseg & (n & HUa & HUd & HUn) & HUlive).
  change (head_ s :: l1 ++ a :: a' :: l2)
    with ((head_ s :: l1) ++ a :: a' :: l2) in Hnd.
  destruct (NoDup_drop_mid _ _ _ Hnd) as [Hnd' Hanew].
  destruct (NoDup_drop_mid _ _ _ Hndv) as [Hndv' Hvnew].
  unfold Erase. rewrite Htab, (table_lookup_mid _ _ _ _ _ _ Hl1 Hndv), Hun.
  cbn [res_bind]. rewrite (destroy_leaf hU a n HUa HUn).
  assert (Hcount : length (v1 ++ v :: v' :: v2)
                   = S (length (v1 ++ v' :: v2))).
  { rewrite !length_app. simpl. lia. }
  assert (Hsz : ((size_ s - 1) mod size_t_max
                 = Z.of_nat (length (v1 ++ v' :: v2)))%Z).
  { rewrite Hsize, Hcount. rewrite Hcount in Hbound.
    rewrite Z.mod_small by lia. lia. }
  rewrite Hsz.
  replace (Z.of_nat (length (v1 ++ v' :: v2)) =? 0)%Z with false
    by (symmetry; apply Z.eqb_neq; rewrite length_app; simpl; lia).
  eexists. split; [reflexivity|].
  unfold rep. cbn [heap fresh head_ tail_ table_ size_].
  assert (Hkeep : forall x, x ∈ (head_ s :: l1) ++ a' :: l2 ->
                            delete a hU !! x = hU !! x).
  { intros x Hx. apply lookup_delete_ne. intros ->. auto. }
  split; [|split; [|split; [|split; [|split; [|split; [|split;
    [|split; [|split]]]]]]]].
  - destruct HUhead as (nh' & Hnh' & Hnx'). exists nh'.
    split; [|exact Hnx']. rewrite Hkeep; [exact Hnh'|].
    apply elem_of_cons. now left.
  - apply lseg_ext with (h := hU); [|exact HUseg].
    intros x Hx. apply Hkeep. apply elem_of_cons. now right.
  - rewrite !length_app in *. simpl in *. lia.
  - exact Hnd'.
  - exact Hndv'.
  - rewrite Htail, !last_app_cons. apply last_cons_default.
  - apply (table_delete_mid v1 (v' :: v2) l1 (a' :: l2) v a Hl1 Hndv).
  - reflexivity.
  - rewrite Hcount in Hbound. lia.
  - intros x [m Hx]. apply Hfresh, HUlive.
    destruct (decide (x = a)) as [->|Hxa];
      [rewrite lookup_delete_eq in Hx; discriminate|].
    rewrite lookup_delete_ne in Hx by auto. eauto.
Qed.

(** [Erase] of a value that the replacer does not hold. *)
Lemma Erase_absent_rep s back addrs (vs : list T) (v : T) :
  rep s back addrs vs -> v ∉ vs -> Erase v s = Ok (false, s).
Proof.
  intros (_ & _ & Hlen & _ & _ & _ & Htab & _) Hv.
  unfold Erase. now rewrite Htab, (table_lookup_absent _ _ _ Hlen Hv).
Qed.

Lemma set_pre_live h (a : nat) (n : @node T) (q : option nat) :
  h !! a = Some n ->
  set_pre a q h = <[ a := mkNode (data n) q (next n) ]> h.
Proof.
  intros Ha. apply map_eq. intros x. unfold set_pre.
  destruct (decide (x = a)) as [->|Hx].
  - now rewrite lookup_alter_eq, lookup_insert_eq, Ha.
  - now rewrite lookup_alter_ne, lookup_insert_ne by auto.
Qed.

(** [Insert] of a value that the replacer holds, that has a successor in
    the list, and whose node has a valid back pointer. *)
Lemma Insert_interior_rep s back l1 l2 (a a' : nat) (v1 v2 : list T)
    (v v' : T) :
  rep s back (l1 ++ a :: a' :: l2) (v1 ++ v :: v' :: v2) ->
  length l1 = length v1 ->
  back = true \/ l1 <> [] ->
  exists s', Insert v s = Ok s' /\
             rep s' back ((l1 ++ a' :: l2) ++ [a])
                         ((v1 ++ v' :: v2) ++ [v]).
Proof.
  intros (Hhead & Hseg & Hlen & Hnd & Hndv & Htail & Htab & Hsize & Hbound
          & Hfresh) Hl1 Hback.
  destruct (unlink_interior (heap s) (head_ s) back l1 l2 a a' v1 v2 v v'
              Hhead Hseg Hl1 Hnd Hback)
    as (hU & Hun & HUhead & HUseg & (n & HUa & HUd & HUn) & HUlive).
  change (head_ s :: l1 ++ a :: a' :: l2)
    with ((head_ s :: l1) ++ a :: a' :: l2) in Hnd.
  destruct (NoDup_drop_mid _ _ _ Hnd) as [Hnd' Hanew].
  destruct (NoDup_drop_mid _ _ _ Hndv) as [Hndv' Hvnew].
  assert (Hlast : tail_ s = List.last (l1 ++ a' :: l2) (head_ s)).
  { rewrite Htail, !last_app_cons. apply last_cons_default. }
  assert (Htin : tail_ s ∈ l1 ++ a' :: l2).
  { rewrite Hlast. apply last_in. now destruct l1. }
  assert (Hta : tail_ s <> a).
  { intros E. apply Hanew. apply elem_of_cons. right. now rewrite <- E. }
  destruct (lseg_last_node hU (head_ s) back (l1 ++ a' :: l2)
              (v1 ++ v' :: v2) None HUseg) as (nt & Hnt & Hntn);
    [now destruct l1|].
  rewrite <- Hlast in Hnt.
  unfold Insert. rewrite Htab, (table_lookup_mid _ _ _ _ _ _ Hl1 Hndv), Hun.
  cbn [res_bind].
  rewrite (set_pre_live hU a n (Some (tail_ s)) HUa), HUd, HUn.
  unfold deref. rewrite lookup_insert_ne by auto. rewrite Hnt.
  cbn [res_bind]. rewrite Hntn.
  assert (Hdestroy : forall fuel h, destroy fuel h None = h)
    by (intros [|fuel] h; reflexivity).
  rewrite Hdestroy.
  eexists. split; [reflexivity|].
  unfold rep. cbn [heap fresh head_ tail_ table_ size_].
  assert (Hlen' : length (l1 ++ a' :: l2) = length (v1 ++ v' :: v2)).
  { rewrite !length_app in *. simpl in *. lia. }
  assert (Hcount : length ((v1 ++ v' :: v2) ++ [v])
                   = length (v1 ++ v :: v' :: v2)).
  { rewrite !length_app. simpl. lia. }
  split; [|split; [|split; [|split; [|split; [|split; [|split;
    [|split; [|split]]]]]]]].
  - destruct HUhead as (nh' & Hnh' & Hnx'). exists nh'. split.
    + unfold set_next. rewrite lookup_alter_ne.
      * rewrite lookup_insert_ne; [exact Hnh'|].
        intros E. apply Hanew. rewrite E. apply elem_of_cons. now left.
      * intros E. apply NoDup_cons in Hnd' as [Hhd _]. apply Hhd.
        now rewrite <- E.
    + rewrite Hnx'. now destruct l1.
  - rewrite Hlast. apply lseg_snoc; auto.
  - rewrite !length_app in *. simpl in *. lia.
  - change (NoDup (((head_ s :: l1) ++ a' :: l2) ++ [a])).
    apply NoDup_app. split; [exact Hnd'|]. split; [|apply NoDup_singleton].
    intros x Hx Hx'. apply list_elem_of_singleton in Hx'. subst x. auto.
  - apply NoDup_app. split; [exact Hndv'|]. split; [|apply NoDup_singleton].
    intros x Hx Hx'. apply list_elem_of_singleton in Hx'. subst x. auto.
  - now rewrite last_snoc_default.
  - rewrite (table_snoc _ _ _ _ Hlen' Hvnew).
    rewrite <- (table_delete_mid v1 (v' :: v2) l1 (a' :: l2) v a Hl1 Hndv).
    symmetry. apply insert_delete_id.
    apply (table_lookup_mid _ _ _ _ _ _ Hl1 Hndv).
  - rewrite Hsize, Hcount. reflexivity.
  - rewrite Hcount. exact Hbound.
  - intros x [m Hx]. apply Hfresh, HUlive. unfold set_next in Hx.
    destruct (decide (x = tail_ s)) as [->|Hxt]; [eauto|].
    rewrite lookup_alter_ne in Hx by auto.
    destruct (decide (x = a)) as [->|Hxa]; [eauto|].
    rewrite lookup_insert_ne in Hx by auto. eauto.
Qed.

End ReplacerFacts.

Lemma lru_three_rep :
  LRU.rep lru_three true [1; 2; 3]%nat [1; 2; 3]%Z.
Proof.
  destruct (insert_all_rep [1; 2; 3]%Z (LRU.init 0%Z) true [] []
              (init_rep 0%Z)) as (s' & Hall & Hrep).
  - apply (bool_decide_unpack _). vm_compute. exact I.
  - vm_compute. reflexivity.
  - assert (E : Ok lru_three = Ok s') by (rewrite <- Hall; reflexivity).
    injection E as ->. exact Hrep.
Qed.

(** X9: [Insert] of a value the replacer does not hold, on a replacer that
    stands for the list [vs]: the call returns, the value is appended at
    the most recently used end in a node at the next fresh address, and
    the size grows by one. *)
Theorem Insert_appends_a_new_value {T : Type} `{Countable T}
    (s : LRU.LRUReplacer) (back : bool) (addrs : list nat) (vs : list T)
    (value : T) :
  LRU.rep s back addrs vs ->
  value ∉ vs ->
  (Z.of_nat (length vs) + 1 < LRU.size_t_max)%Z ->
  exists s',
    LRU.Insert value s = Ok s' /\
    LRU.rep s' back (addrs ++ [LRU.fresh s]) (vs ++ [value]) /\
    LRU.contents s' = vs ++ [value] /\
    LRU.Size s' = (LRU.Size s + 1)%Z.
Proof.
  intros Hrep Hv Hroom.
  destruct (Insert_fresh_rep s back addrs vs value Hrep Hv Hroom)
    as (s' & Hins & _ & Hrep').
  exists s'. split; [exact Hins|]. split; [exact Hrep'|].
  split; [exact (rep_contents _ _ _ _ Hrep')|].
  destruct Hrep as (_ & _ & _ & _ & _ & _ & _ & Hsz & _).
  destruct Hrep' as (_ & _ & _ & _ & _ & _ & _ & Hsz' & _).
  unfold LRU.Size. rewrite Hsz, Hsz', length_app. simpl. lia.
Qed.

Lemma Insert_appends_a_new_value_witness :
  exists s',
    LRU.Insert 4%Z lru_three = Ok s' /\
    LRU.rep s' true ([1; 2; 3]%nat ++ [LRU.fresh lru_three])
                    ([1; 2; 3]%Z ++ [4%Z]) /\
    LRU.contents s' = [1; 2; 3]%Z ++ [4%Z] /\
    LRU.Size s' = (LRU.Size lru_three + 1)%Z.
Proof.
  apply (Insert_appends_a_new_value lru_three true [1; 2; 3]%nat
           [1; 2; 3]%Z 4%Z lru_three_rep).
  - apply (bool_decide_unpack _). vm_compute. exact I.
  - vm_compute. reflexivity.
Defined.



(** X11: [Victim] on a replacer that stands for the empty list passes its
    assertion, returns false and changes nothing. *)
Theorem Victim_of_empty_replacer {T : Type} `{Countable T}
    (s : LRU.LRUReplacer) (back : bool) :
  LRU.rep s back [] ([] : list T) ->
  LRU.Victim s = Ok (None, s).
Proof. apply Victim_rep_empty. Qed.

Lemma Victim_of_empty_replacer_witness :
  LRU.Victim (LRU.init 0%Z) = Ok (None, LRU.init 0%Z).
Proof.
  exact (Victim_of_empty_replacer (LRU.init 0%Z) true (init_rep 0%Z)).
Defined.

(** X12: the replacer is first in, first out over distinct values: after
    [Insert] of the distinct values [vs] into a new replacer, [Size] is
    their number, as many calls of [Victim] return them in the order of
    insertion, and the next [Victim] returns false. *)
Theorem replacer_is_first_in_first_out {T : Type} `{Countable T}
    (dflt : T) (vs : list T) :
  NoDup vs ->
  (Z.of_nat (length vs) < LRU.size_t_max)%Z ->
  exists s1 s2,
    LRU.insert_all vs (LRU.init dflt) = Ok s1 /\
    LRU.Size s1 = Z.of_nat (length vs) /\
    LRU.victims (length vs) s1 = Ok (vs, s2) /\
    LRU.Victim s2 = Ok (None, s2).
Proof.
  intros Hnd Hlen.
  destruct (insert_all_rep vs (LRU.init dflt) true [] [] (init_rep dflt)
              Hnd Hlen) as (s1 & Hall & Hrep1).
  destruct (victims_rep vs s1 true _ Hrep1) as (s2 & Hvs & Hrep2).
  exists s1, s2. split; [exact Hall|]. split.
  - now destruct Hrep1 as (_ & _ & _ & _ & _ & _ & _ & Hsz & _).
  - split; [exact Hvs|]. eapply Victim_rep_empty. exact Hrep2.
Qed.

Lemma replacer_is_first_in_first_out_witness :
  exists s1 s2,
    LRU.insert_all [5; 3; 8]%Z (LRU.init 0%Z) = Ok s1 /\
    LRU.Size s1 = Z.of_nat (length [5; 3; 8]%Z) /\
    LRU.victims (length [5; 3; 8]%Z) s1 = Ok ([5; 3; 8]%Z, s2) /\
    LRU.Victim s2 = Ok (None, s2).
Proof.
  apply (replacer_is_first_in_first_out 0%Z [5; 3; 8]%Z).
  - apply (bool_decide_unpack _). vm_compute. exact I.
  - vm_compute. reflexivity.
Defined.

(** X13: [Erase] of a value the replacer does not hold returns false and
    changes nothing. *)
Theorem Erase_of_absent_value {T : Type} `{Countable T}
    (s : LRU.LRUReplacer) (back : bool) (addrs : list nat) (vs : list T)
    (v : T) :
  LRU.rep s back addrs vs ->
  v ∉ vs ->
  LRU.Erase v s = Ok (false, s).
Proof. apply Erase_absent_rep. Qed.

Lemma Erase_of_absent_value_witness :
  LRU.Erase 7%Z lru_three = Ok (false, lru_three).
Proof.
  apply (Erase_of_absent_value lru_three true [1; 2; 3]%nat [1; 2; 3]%Z 7%Z
           lru_three_rep).
  apply (bool_decide_unpack _). vm_compute. exact I.
Defined.

(** X14: [Erase] of a held value that is not the most recently used one,
    and whose node still has its back pointer (it is not the first node
    after a [Victim]): the call returns true, exactly that value leaves the
    list, the order of the others is kept, and the size drops by one. *)
Theorem Erase_removes_exactly_the_value {T : Type} `{Countable T}
    (s : LRU.LRUReplacer) (back : bool) (l1 l2 : list nat) (a a' : nat)
    (v1 v2 : list T) (v v' : T) :
  LRU.rep s back (l1 ++ a :: a' :: l2) (v1 ++ v :: v' :: v2) ->
  length l1 = length v1 ->
  back = true \/ l1 <> [] ->
  exists s',
    LRU.Erase v s = Ok (true, s') /\
    LRU.rep s' back (l1 ++ a' :: l2) (v1 ++ v' :: v2) /\
    LRU.contents s' = v1 ++ v' :: v2 /\
    LRU.Size s' = (LRU.Size s - 1)%Z.
Proof.
  intros Hrep Hlen Hback.
  destruct (Erase_interior_rep s back l1 l2 a a' v1 v2 v v' Hrep Hlen Hback)
    as (s' & He & Hrep').
  exists s'. split; [exact He|]. split; [exact Hrep'|].
  split; [exact (rep_contents _ _ _ _ Hrep')|].
  destruct Hrep as (_ & _ & _ & _ & _ & _ & _ & Hsz & _).
  destruct Hrep' as (_ & _ & _ & _ & _ & _ & _ & Hsz' & _).
  unfold LRU.Size. rewrite Hsz, Hsz', !length_app. simpl length. lia.
Qed.

Lemma Erase_removes_exactly_the_value_witness :
  exists s',
    LRU.Erase 2%Z lru_three = Ok (true, s') /\
    LRU.rep s' true ([1%nat] ++ 3%nat :: []) ([1%Z] ++ 3%Z :: []) /\
    LRU.contents s' = [1%Z] ++ 3%Z :: [] /\
    LRU.Size s' = (LRU.Size lru_three - 1)%Z.
Proof.
  apply (Erase_removes_exactly_the_value lru_three true [1%nat] [] 2%nat
           3%nat [1%Z] [] 2%Z 3%Z lru_three_rep eq_refl).
  left. reflexivity.
Defined.

(** X15: [Insert] of a held value that is not the most recently used one,
    and whose node still has its back pointer: the call returns, the value
    moves to the most recently used end in its own node, the order of the
    others is kept, and the size does not change. *)
Theorem Insert_moves_a_held_value_last {T : Type} `{Countable T}
    (s : LRU.LRUReplacer) (back : bool) (l1 l2 : list nat) (a a' : nat)
    (v1 v2 : list T) (v v' : T) :
  LRU.rep s back (l1 ++ a :: a' :: l2) (v1 ++ v :: v' :: v2) ->
  length l1 = length v1 ->
  back = true \/ l1 <> [] ->
  exists s',
    LRU.Insert v s = Ok s' /\
    LRU.rep s' back ((l1 ++ a' :: l2) ++ [a]) ((v1 ++ v' :: v2) ++ [v]) /\
    LRU.contents s' = (v1 ++ v' :: v2) ++ [v] /\
    LRU.Size s' = LRU.Size s.
Proof.
  intros Hrep Hlen Hback.
  destruct (Insert_interior_rep s back l1 l2 a a' v1 v2 v v' Hrep Hlen
              Hback) as (s' & Hi & Hrep').
  exists s'. split; [exact Hi|]. split; [exact Hrep'|].
  split; [exact (rep_contents _ _ _ _ Hrep')|].
  destruct Hrep as (_ & _ & _ & _ & _ & _ & _ & Hsz & _).
  destruct Hrep' as (_ & _ & _ & _ & _ & _ & _ & Hsz' & _).
  unfold LRU.Size. rewrite Hsz, Hsz', !length_app. simpl length. lia.
Qed.

Lemma Insert_moves_a_held_value_last_witness :
  exists s',
    LRU.Insert 1%Z lru_three = Ok s' /\
    LRU.rep s' true (([] ++ 2%nat :: [3%nat]) ++ [1%nat])
                    (([] ++ 2%Z :: [3%Z]) ++ [1%Z]) /\
    LRU.contents s' = ([] ++ 2%Z :: [3%Z]) ++ [1%Z] /\
    LRU.Size s' = LRU.Size lru_three.
Proof.
  apply (Insert_moves_a_held_value_last lru_three true [] [3%nat] 1%nat
           2%nat [] [3%Z] 1%Z 2%Z lru_three_rep eq_refl).
  left. reflexivity.
Defined.

(** ** Extendible hash table: what [Insert], [Remove] and [split] keep *)

Section HashTableFacts.
  Context {V : Type}.
  Import Hash.
  Implicit Types (m : @Items V) (b : @Bucket V) (h : @ExtendibleHash V).

Lemma map_find_insert_eq m (k : Z) (v : V) :
  map_find k m = None -> map_find k (map_insert k v m) = Some v.
Proof.
  induction m as [|[k' v'] m IH]; simpl.
  - intros _. now rewrite bool_decide_eq_true_2.
  - case_bool_decide as Hk; [discriminate|]. intros Hm.
    case_bool_decide.
    + simpl. now rewrite bool_decide_eq_true_2.
    + case_bool_decide; [congruence|]. simpl.
      rewrite bool_decide_eq_false_2 by auto. auto.
Qed.

Lemma map_find_insert_ne m (k k' : Z) (v : V) :
  k' <> k -> map_find k' (map_insert k v m) = map_find k' m.
Proof.
  intros Hne. induction m as [|[k0 v0] m IH]; simpl.
  - now rewrite bool_decide_eq_false_2 by auto.
  - case_bool_decide.
    + simpl. now rewrite (bool_decide_eq_false_2 (k = k')) by auto.
    + case_bool_decide; [reflexivity|]. simpl. now rewrite IH.
Qed.

Lemma map_find_assign_eq m (k : Z) (v : V) :
  is_Some (map_find k m) -> map_find k (map_assign k v m) = Some v.
Proof.
  induction m as [|[k' v'] m IH]; simpl.
  - intros [x Hx]. discriminate.
  - case_bool_decide as Hk; simpl.
    + now rewrite bool_decide_eq_true_2.
    + rewrite bool_decide_eq_false_2 by auto. auto.
Qed.

Lemma map_find_assign_ne m (k k' : Z) (v : V) :
  k' <> k -> map_find k' (map_assign k v m) = map_find k' m.
Proof.
  intros Hne. induction m as [|[k0 v0] m IH]; simpl; [reflexivity|].
  case_bool_decide as Hk; simpl.
  - subst k0. now rewrite bool_decide_eq_false_2 by auto.
  - now rewrite IH.
Qed.

Lemma length_map_insert m (k : Z) (v : V) :
  map_find k m = None -> length (map_insert k v m) = S (length m).
Proof.
  induction m as [|[k' v'] m IH]; simpl; [reflexivity|].
  case_bool_decide as Hk; [discriminate|]. intros Hm.
  case_bool_decide; [reflexivity|].
  case_bool_decide; [congruence|]. simpl. now rewrite IH.
Qed.

Lemma map_find_None m (k : Z) : map_find k m = None <-> k ∉ m.*1.
Proof.
  induction m as [|[k' v'] m IH]; simpl.
  - split; [intros _; apply not_elem_of_nil|reflexivity].
  - case_bool_decide as Hk.
    + subst k'. split; [discriminate|]. intros Hn. destruct Hn.
      apply elem_of_cons. now left.
    + rewrite IH. rewrite not_elem_of_cons. split; [auto|tauto].
Qed.

Lemma map_erase_count m (k : Z) :
  (map_erase k m).1 = match map_find k m with Some _ => 1 | None => 0 end.
Proof.
  induction m as [|[k' v'] m IH]; simpl; [reflexivity|].
  case_bool_decide; [reflexivity|].
  destruct (map_erase k m) as [c r]. exact IH.
Qed.

Lemma map_erase_ne m (k k' : Z) :
  k' <> k -> map_find k' (map_erase k m).2 = map_find k' m.
Proof.
  intros Hne. induction m as [|[k0 v0] m IH]; simpl; [reflexivity|].
  case_bool_decide as Hk.
  - subst k0. simpl. now rewrite bool_decide_eq_false_2 by auto.
  - destruct (map_erase k m) as [c r]. simpl in *. now rewrite IH.
Qed.

Lemma map_erase_eq m (k : Z) :
  NoDup m.*1 -> map_find k (map_erase k m).2 = None.
Proof.
  induction m as [|[k0 v0] m IH]; simpl; [reflexivity|].
  intros Hnd. apply NoDup_cons in Hnd as [Hk0 Hnd].
  case_bool_decide as Hk.
  - subst k0. simpl. now apply map_find_None.
  - destruct (map_erase k m) as [c r]. simpl in *.
    rewrite bool_decide_eq_false_2 by auto. auto.
Qed.

(** Two stores in which every bucket has the same overflow link and the
    same entry for [k] give the same search along a chain. *)
Lemma find_chain_agree (k : Z) (fuel : nat) :
  forall (st st' : list (@Bucket V)) b b',
  (forall i, option_Forall2
               (fun x y => next x = next y /\
                           map_find k (items x) = map_find k (items y))
               (st !! i) (st' !! i)) ->
  next b = next b' ->
  find_chain fuel st' b' k = find_chain fuel st b k.
Proof.
  induction fuel as [|fuel IH]; intros st st' b b' Hst Hn.
  - destruct b as [i d its n], b' as [i' d' its' n']. simpl in *.
    subst n'. reflexivity.
  - destruct b as [i d its n], b' as [i' d' its' n']. simpl in *.
    subst n'. destruct n as [a|]; [|reflexivity].
    unfold deref. specialize (Hst a) as Ha.
    destruct Ha as [x y [Hxy Hf]|]; [|reflexivity].
    cbn [res_bind]. rewrite Hf.
    destruct (map_find k (items y)); [reflexivity|].
    apply IH; auto.
Qed.

Lemma store_update_agree (k : Z) (st : list (@Bucket V)) (a : nat) b b' :
  st !! a = Some b -> next b = next b' ->
  map_find k (items b) = map_find k (items b') ->
  forall i, option_Forall2
              (fun x y => next x = next y /\
                          map_find k (items x) = map_find k (items y))
              (st !! i) (<[ a := b' ]> st !! i).
Proof.
  intros Ha Hn Hf i. destruct (decide (i = a)) as [->|Hi].
  - rewrite Ha, list_lookup_insert_eq by (eapply lookup_lt_Some; eauto).
    constructor. auto.
  - rewrite list_lookup_insert_ne by auto.
    destruct (st !! i); constructor. auto.
Qed.

  (** [std::hash<K>()(key)] *)
  Variable HashKey : Z -> Z.

(** [Find] of a key other than the one whose primary bucket was
    rewritten. *)
Lemma Find_frame h (st' : list (@Bucket V)) (k : Z) :
  length st' = length (store h) ->
  (forall i, option_Forall2
               (fun x y => next x = next y /\
                           map_find k (items x) = map_find k (items y))
               (store h !! i) (st' !! i)) ->
  Find HashKey (mkHash (bucket_size_ h) (bucket_count_ h) (gdepth h)
                  (buckets_ h) st') k
  = Find HashKey h k.
Proof.
  intros Hlen Hst. unfold Find, bucketIndex. cbn [gdepth buckets_ store].
  destruct (int_shl1 (gdepth h)) as [mk|f]; [|reflexivity].
  cbn [res_bind].
  destruct (slot (buckets_ h) (Z.land (HashKey k) (mk - 1))) as [[a|]|f];
    try reflexivity.
  cbn [res_bind]. unfold deref. specialize (Hst a) as Ha.
  destruct Ha as [x y [Hxy Hf]|]; [|reflexivity].
  cbn [res_bind]. rewrite Hf.
  destruct (map_find k (items y)); [reflexivity|].
  rewrite Hlen. apply find_chain_agree; auto.
Qed.

Lemma map_insert_perm m (k : Z) (v : V) :
  k ∉ m.*1 -> map_insert k v m ≡ₚ (k, v) :: m.
Proof.
  induction m as [|[k' v'] m IH]; simpl; [reflexivity|].
  intros Hk. apply not_elem_of_cons in Hk as [Hkk' Hk].
  case_bool_decide; [reflexivity|].
  case_bool_decide; [contradiction|].
  rewrite (IH Hk). apply perm_swap.
Qed.

  Local Abbreviation bit_set d :=
    (fun kv : Z * V => Z.land (HashKey kv.1) (2 ^ (d - 1)) <> 0).

(** One pass of the loop of [split] keeps the items whose hash has the new
    bit clear, in their order, and moves the others. *)
Lemma scatter_spec (d : Z) (its : list (Z * V)) :
  forall (ri : list (Z * V)) (rid : Z),
  1 <= d <= 30 -> NoDup its.*1 ->
  (forall k, k ∈ its.*1 -> k ∉ ri.*1) ->
  exists ri' rid',
    scatter HashKey d its ri rid
    = Ok (filter (fun kv => ~ bit_set d kv) its, ri', rid') /\
    ri' ≡ₚ filter (bit_set d) its ++ ri.
Proof.
  induction its as [|[k v] rest IH]; intros ri rid Hd Hnd Hdisj.
  - exists ri, rid. split; reflexivity.
  - simpl in Hnd. apply NoDup_cons in Hnd as [Hk Hnd].
    assert (Hkri : k ∉ ri.*1).
    { apply Hdisj. simpl. apply elem_of_cons. now left. }
    cbn [scatter]. unfold int_shl1.
    rewrite (bool_decide_eq_true_2 (0 <= d - 1 < 31)) by lia.
    cbn [res_bind]. case_bool_decide as Hbit.
    + rewrite (bool_decide_eq_true_2 (0 <= d < 31)) by lia.
      cbn [res_bind].
      destruct (IH (map_insert k v ri)
                  (Z.land (HashKey k) (2 ^ d - 1)) Hd Hnd)
        as (ri' & rid' & Hs & Hp).
      { intros k' Hk' Hin.
        rewrite (map_insert_perm ri k v Hkri) in Hin. simpl in Hin.
        apply elem_of_cons in Hin as [->|Hin]; [auto|].
        apply (Hdisj k'); [|exact Hin]. simpl. apply elem_of_cons.
        now right. }
      exists ri', rid'. rewrite Hs. unfold Items. split.
      * rewrite filter_cons_False; [reflexivity|].
        intros Hn. apply Hn. exact Hbit.
      * rewrite Hp, (map_insert_perm ri k v Hkri).
        rewrite filter_cons_True; [|exact Hbit].
        simpl. symmetry. apply Permutation_middle.
    + destruct (IH ri rid Hd Hnd) as (ri' & rid' & Hs & Hp).
      { intros k' Hk'. apply Hdisj. simpl. apply elem_of_cons.
        now right. }
      exists ri', rid'. rewrite Hs. cbn [res_bind]. unfold Items. split.
      * rewrite filter_cons_True; [reflexivity|].
        intros Hn. apply Hn. exact Hbit.
      * rewrite filter_cons_False; [exact Hp|].
        intros Hn. apply Hn. exact Hbit.
Qed.

Lemma NoDup_keys_filter (P : Z * V -> Prop) `{!forall kv, Decision (P kv)}
    (its : @Items V) :
  NoDup its.*1 -> NoDup (filter P its).*1.
Proof.
  intros Hnd. eapply sublist_NoDup; [exact Hnd|].
  apply fmap_sublist, sublist_filter.
Qed.

(** The loop of [split] on a bucket of local depth below
    [sizeof(size_t)]: it ends, no item is lost, and when it ends with a
    non-empty new bucket the two buckets are separated by the last hash
    bit. *)
Lemma split_loop_spec (fuel : nat) : forall b res,
  items res = [] ->
  0 <= depth b < sizeof_size_t ->
  sizeof_size_t - depth b <= Z.of_nat fuel ->
  NoDup (items b).*1 ->
  exists b' res',
    split_loop HashKey fuel b res = Ok (b', res') /\
    depth b < depth b' <= sizeof_size_t /\
    depth res' - depth res = depth b' - depth b /\
    next b' = next b /\ next res' = next res /\
    items b ≡ₚ items b' ++ items res' /\
    (items res' = [] -> depth b' = sizeof_size_t) /\
    (items res' <> [] ->
     items b' <> [] /\
     (forall kv, kv ∈ items res' -> bit_set (depth b') kv) /\
     (forall kv, kv ∈ items b' -> ~ bit_set (depth b') kv)).
Proof.
  unfold sizeof_size_t.
  induction fuel as [|fuel IH]; intros b res Hres Hdepth Hfuel Hnd; [lia|].
  cbn [split_loop]. rewrite bool_decide_eq_true_2 by exact Hres.
  rewrite Hres.
  destruct (scatter_spec (depth b + 1) (items b) [] (id res))
    as (ri & rid & Hs & Hp); [lia|exact Hnd| |].
  { intros k _. apply not_elem_of_nil. }
  rewrite app_nil_r in Hp.
  set (kept := filter _ _) in Hs.
  assert (Hall : items b ≡ₚ kept ++ ri).
  { rewrite Hp. unfold kept.
    rewrite (Permutation_app_comm _ (filter _ _)).
    symmetry. apply (filter_app_complement (bit_set (depth b + 1))). }
  assert (Hset : forall kv, kv ∈ ri -> bit_set (depth b + 1) kv).
  { intros kv Hin. rewrite Hp in Hin.
    now apply list_elem_of_filter in Hin as [? _]. }
  assert (Hclear : forall kv, kv ∈ kept -> ~ bit_set (depth b + 1) kv).
  { intros kv Hin. now apply list_elem_of_filter in Hin as [? _]. }
  assert (Hndk : NoDup kept.*1) by (now apply NoDup_keys_filter).
  assert (Hndr : NoDup ri.*1).
  { rewrite Hp. now apply NoDup_keys_filter. }
  clearbody kept. rewrite Hs. clear Hs Hp. cbn [res_bind].
  cbn [items depth]. case_bool_decide as Hkept.
  - (* everything moved: the buckets swap their items *)
    cbn [items depth id next]. rewrite Hkept in Hall. simpl in Hall.
    case_bool_decide as Hmax; unfold sizeof_size_t in Hmax;
      cbn [depth] in Hmax.
    + eexists _, _. split; [reflexivity|]. cbn [items depth id next].
      rewrite app_nil_r. repeat split; auto; try lia.
    + destruct (IH (mkBucket rid (depth b + 1) ri (next b))
                  (mkBucket rid (depth res + 1) [] (next res)))
        as (b' & res' & Hl & Hd' & Hdr & Hnb & Hnr & Hperm & He & Hn);
        cbn [items depth id next]; auto; try lia.
      exists b', res'. cbn [items depth id next] in *.
      split; [exact Hl|]. repeat split; auto; try lia.
      * now rewrite Hall.
      * now apply Hn.
      * now apply Hn.
      * now apply Hn.
  - case_bool_decide as Hmax; unfold sizeof_size_t in Hmax;
      cbn [depth] in Hmax.
    + eexists _, _. split; [reflexivity|]. cbn [items depth id next].
      repeat split; auto; try lia.
    + destruct (decide (ri = [])) as [Hri|Hri].
      * destruct (IH (mkBucket (id b) (depth b + 1) kept (next b))
                    (mkBucket rid (depth res + 1) ri (next res)))
          as (b' & res' & Hl & Hd' & Hdr & Hnb & Hnr & Hperm & He & Hn);
          cbn [items depth id next]; auto; try lia.
        exists b', res'. cbn [items depth id next] in *.
        split; [exact Hl|]. repeat split; auto; try lia.
        -- rewrite Hall, Hri, app_nil_r. exact Hperm.
        -- now apply Hn.
        -- now apply Hn.
        -- now apply Hn.
      * eexists _, _. split.
        { destruct fuel; cbn [split_loop items];
            rewrite bool_decide_eq_false_2 by exact Hri; reflexivity. }
        cbn [items depth id next].
        replace (depth b + 1 - 1) with (depth b + 1 - 1) by reflexivity.
        repeat split; auto; try lia.
        intros E. contradiction.
Qed.

Lemma Find_primary h (key index : Z) (a : nat) b (value : V) :
  bucketIndex HashKey h key = Ok index ->
  slot (buckets_ h) index = Ok (Some a) ->
  store h !! a = Some b ->
  map_find key (items b) = Some value ->
  Find HashKey h key = Ok (Some value).
Proof.
  intros Hidx Hslot Hst Hf. unfold Find. rewrite Hidx. cbn [res_bind].
  rewrite Hslot. cbn [res_bind]. unfold deref. rewrite Hst.
  cbn [res_bind]. now rewrite Hf.
Qed.

Lemma Find_primary_none h (key index : Z) (a : nat) b :
  bucketIndex HashKey h key = Ok index ->
  slot (buckets_ h) index = Ok (Some a) ->
  store h !! a = Some b ->
  map_find key (items b) = None -> next b = None ->
  Find HashKey h key = Ok None.
Proof.
  intros Hidx Hslot Hst Hf Hn. unfold Find. rewrite Hidx. cbn [res_bind].
  rewrite Hslot. cbn [res_bind]. unfold deref. rewrite Hst.
  cbn [res_bind]. rewrite Hf.
  destruct (length (store h)); simpl; now rewrite Hn.
Qed.

End HashTableFacts.

(** X16: [Insert] that does not split (the key is in its primary bucket,
    or that bucket has room): the call returns, [Find] of the key then
    returns the inserted value, [Find] of every other key returns what it
    returned before, and the directory, the global depth and the bucket
    count are unchanged. *)
Theorem Insert_without_split_then_Find {V : Type} (HashKey : Z -> Z)
    (h : Hash.ExtendibleHash) (key : Z) (value : V) (index : Z) (a : nat)
    (bucket : Hash.Bucket) :
  Hash.bucketIndex HashKey h key = Ok index ->
  Hash.slot (Hash.buckets_ h) index = Ok (Some a) ->
  Hash.store h !! a = Some bucket ->
  is_Some (Hash.map_find key (Hash.items bucket)) \/
  (Z.of_nat (length (Hash.items bucket)) < Hash.bucket_size_ h)%Z ->
  exists h',
    Hash.Insert HashKey h key value = Ok h' /\
    Hash.Find HashKey h' key = Ok (Some value) /\
    (forall k', k' <> key ->
                Hash.Find HashKey h' k' = Hash.Find HashKey h k') /\
    Hash.buckets_ h' = Hash.buckets_ h /\
    Hash.GetGlobalDepth h' = Hash.GetGlobalDepth h /\
    Hash.GetNumBuckets h' = Hash.GetNumBuckets h.
Proof.
  intros Hidx Hslot Hst Hroom.
  assert (Hshape : exists m',
    Hash.Insert HashKey h key value
    = Ok (Hash.mkHash (Hash.bucket_size_ h) (Hash.bucket_count_ h)
            (Hash.gdepth h) (Hash.buckets_ h)
            (<[ a := Hash.set_items bucket m' ]> (Hash.store h))) /\
    Hash.map_find key m' = Some value /\
    (forall k', k' <> key ->
                Hash.map_find k' m' = Hash.map_find k' (Hash.items bucket))).
  { unfold Hash.Insert. rewrite Hidx. cbn [res_bind]. rewrite Hslot.
    cbn [res_bind]. unfold Hash.deref. rewrite Hst. cbn [res_bind].
    destruct (Hash.map_find key (Hash.items bucket)) as [old|] eqn:Hf.
    - eexists. split; [reflexivity|]. split.
      + apply map_find_assign_eq. rewrite Hf. eauto.
      + intros k' Hk'. now apply map_find_assign_ne.
    - destruct Hroom as [[x Hx]|Hlt]; [discriminate|].
      cbn [Hash.items Hash.set_items Hash.bucket_size_].
      rewrite (length_map_insert _ _ _ Hf).
      rewrite bool_decide_eq_false_2 by lia.
      eexists. split; [reflexivity|]. split.
      + now apply map_find_insert_eq.
      + intros k' Hk'. now apply map_find_insert_ne. }
  destruct Hshape as (m' & Hins & Hkey & Hothers).
  eexists. split; [exact Hins|].
  assert (Hlt : (a < length (Hash.store h))%nat)
    by (eapply lookup_lt_Some; eauto).
  split; [|split; [|auto]].
  - eapply Find_primary with (index := index) (a := a).
    + exact Hidx.
    + exact Hslot.
    + cbn [Hash.store]. now apply list_lookup_insert_eq.
    + exact Hkey.
  - intros k' Hk'. apply Find_frame.
    + apply length_insert.
    + apply store_update_agree with (b := bucket); auto.
      symmetry. now apply Hothers.
Qed.

Lemma Insert_without_split_then_Find_witness :
  exists h',
    Hash.Insert Hash.hash_int hash_one 6 60 = Ok h' /\
    Hash.Find Hash.hash_int h' 6 = Ok (Some 60%Z) /\
    (forall k', k' <> 6%Z ->
                Hash.Find Hash.hash_int h' k'
                = Hash.Find Hash.hash_int hash_one k') /\
    Hash.buckets_ h' = Hash.buckets_ hash_one /\
    Hash.GetGlobalDepth h' = Hash.GetGlobalDepth hash_one /\
    Hash.GetNumBuckets h' = Hash.GetNumBuckets hash_one.
Proof.
  apply (Insert_without_split_then_Find Hash.hash_int hash_one 6%Z 60%Z
           0%Z 0%nat (Hash.mkBucket 0 0 [(4, 40)]%Z None)
           eq_refl eq_refl eq_refl).
  right. vm_compute. reflexivity.
Defined.

(** X17: [Remove] of a key whose primary bucket has no overflow bucket and
    holds each key once: the call returns true exactly when the bucket
    held the key, [Find] of the key then returns false, [Find] of every
    other key returns what it returned before, and the directory, the
    global depth and the bucket count are unchanged. *)
Theorem Remove_then_Find {V : Type} (HashKey : Z -> Z)
    (h : Hash.ExtendibleHash) (key : Z) (index : Z) (a : nat)
    (bucket : @Hash.Bucket V) :
  Hash.bucketIndex HashKey h key = Ok index ->
  Hash.slot (Hash.buckets_ h) index = Ok (Some a) ->
  Hash.store h !! a = Some bucket ->
  Hash.next bucket = None ->
  NoDup (Hash.items bucket).*1 ->
  exists h',
    Hash.Remove HashKey h key
    = Ok (bool_decide (is_Some (Hash.map_find key (Hash.items bucket))),
          h') /\
    Hash.Find HashKey h' key = Ok None /\
    (forall k', k' <> key ->
                Hash.Find HashKey h' k' = Hash.Find HashKey h k') /\
    Hash.buckets_ h' = Hash.buckets_ h /\
    Hash.GetGlobalDepth h' = Hash.GetGlobalDepth h /\
    Hash.GetNumBuckets h' = Hash.GetNumBuckets h.
Proof.
  intros Hidx Hslot Hst Hn Hnd.
  assert (Hlt : (a < length (Hash.store h))%nat)
    by (eapply lookup_lt_Some; eauto).
  pose proof (map_erase_count (Hash.items bucket) key) as Hc.
  pose proof (map_erase_eq (Hash.items bucket) key Hnd) as He.
  pose proof (fun k' => map_erase_ne (Hash.items bucket) key k') as Ho.
  unfold Hash.Remove. rewrite Hidx. cbn [res_bind]. rewrite Hslot.
  cbn [res_bind]. unfold Hash.deref. rewrite Hst. cbn [res_bind].
  destruct (Hash.map_erase key (Hash.items bucket)) as [c m].
  simpl in Hc, He, Ho.
  assert (Hchain : forall fuel st,
    Hash.remove_chain fuel st (Hash.set_items bucket m) key c
    = Ok (c, st)).
  { intros [|fuel] st; simpl; now rewrite Hn. }
  rewrite Hchain. cbn [res_bind].
  eexists. split.
  { f_equal. f_equal. rewrite Hc.
    destruct (Hash.map_find key (Hash.items bucket)) as [x|].
    - rewrite bool_decide_eq_true_2 by eauto. reflexivity.
    - rewrite bool_decide_eq_false_2; [reflexivity|].
      intros [x Hx]. discriminate. }
  split; [|split; [|auto]].
  - eapply Find_primary_none with (index := index) (a := a).
    + exact Hidx.
    + exact Hslot.
    + cbn [Hash.store]. now apply list_lookup_insert_eq.
    + exact He.
    + exact Hn.
  - intros k' Hk'. apply Find_frame.
    + apply length_insert.
    + apply store_update_agree with (b := bucket); auto.
      symmetry. now apply Ho.
Qed.

Lemma Remove_then_Find_witness :
  exists h',
    Hash.Remove Hash.hash_int hash_one 4
    = Ok (bool_decide (is_Some (Hash.map_find 4
                                  (Hash.items
                                     (Hash.mkBucket 0 0 [(4, 40)]%Z None)))),
          h') /\
    Hash.Find Hash.hash_int h' 4 = Ok None /\
    (forall k', k' <> 4%Z ->
                Hash.Find Hash.hash_int h' k'
                = Hash.Find Hash.hash_int hash_one k') /\
    Hash.buckets_ h' = Hash.buckets_ hash_one /\
    Hash.GetGlobalDepth h' = Hash.GetGlobalDepth hash_one /\
    Hash.GetNumBuckets h' = Hash.GetNumBuckets hash_one.
Proof.
  apply (Remove_then_Find Hash.hash_int hash_one 4%Z 0%Z 0%nat
           (Hash.mkBucket 0 0 [(4, 40)]%Z None)
           eq_refl eq_refl eq_refl eq_refl).
  apply (bool_decide_unpack _). vm_compute. exact I.
Defined.

(** X18: [Insert] of a key whose directory slot is null, into a table of
    bucket size at least 1: the call creates a bucket whose local depth is
    the global depth, stores its pointer in that slot, counts it, and
    [Find] of the key then returns the inserted value. *)
Theorem Insert_into_null_slot {V : Type} (HashKey : Z -> Z)
    (h : Hash.ExtendibleHash) (key : Z) (value : V) (index : Z) :
  Hash.bucketIndex HashKey h key = Ok index ->
  Hash.slot (Hash.buckets_ h) index = Ok None ->
  (1 <= Hash.bucket_size_ h)%Z ->
  exists h',
    Hash.Insert HashKey h key value = Ok h' /\
    Hash.Find HashKey h' key = Ok (Some value) /\
    Hash.buckets_ h'
    = <[ Z.to_nat index := Some (length (Hash.store h)) ]> (Hash.buckets_ h) /\
    Hash.GetLocalDepth h' index = Ok (Hash.GetGlobalDepth h) /\
    Hash.GetGlobalDepth h' = Hash.GetGlobalDepth h /\
    Hash.GetNumBuckets h' = (Hash.GetNumBuckets h + 1)%Z.
Proof.
  intros Hidx Hslot Hsize.
  assert (Hdir : (0 <= index)%Z /\
                 Hash.buckets_ h !! Z.to_nat index = Some None).
  { unfold Hash.slot in Hslot. case_bool_decide; [|discriminate].
    destruct (Hash.buckets_ h !! Z.to_nat index) as [p|]; [|discriminate].
    injection Hslot as ->. auto. }
  destruct Hdir as [Hpos Hdir].
  assert (Hlt : (Z.to_nat index < length (Hash.buckets_ h))%nat)
    by (eapply lookup_lt_Some; eauto).
  set (a := length (Hash.store h)).
  set (fresh := @Hash.mkBucket V index (Hash.gdepth h) [] None).
  assert (Hnew : (Hash.store h ++ [fresh]) !! a = Some fresh).
  { unfold a. rewrite lookup_app_r by lia. now rewrite Nat.sub_diag. }
  set (full := @Hash.mkBucket V index (Hash.gdepth h) [(key, value)] None).
  set (h' := Hash.mkHash (Hash.bucket_size_ h) (Hash.bucket_count_ h + 1)
               (Hash.gdepth h)
               (<[ Z.to_nat index := Some a ]> (Hash.buckets_ h))
               (<[ a := full ]> (Hash.store h ++ [fresh]))).
  assert (Hins : Hash.Insert HashKey h key value = Ok h').
  { unfold Hash.Insert. rewrite Hidx. cbn [res_bind]. rewrite Hslot.
    cbn [res_bind]. unfold Hash.set_slot. rewrite Hslot. cbn [res_bind].
    unfold Hash.deref. cbn [Hash.store]. fold a. fold fresh. rewrite Hnew.
    cbn [res_bind]. cbn [Hash.items fresh Hash.map_find Hash.set_items
                         Hash.map_insert Hash.bucket_size_ length].
    rewrite bool_decide_eq_false_2 by lia. reflexivity. }
  assert (Hslot' : Hash.slot (Hash.buckets_ h') index = Ok (Some a)).
  { unfold Hash.slot, h'. cbn [Hash.buckets_].
    rewrite bool_decide_eq_true_2 by exact Hpos.
    now rewrite list_lookup_insert_eq. }
  assert (Hst' : Hash.store h' !! a = Some full).
  { unfold h'. cbn [Hash.store]. apply list_lookup_insert_eq.
    rewrite length_app. simpl. unfold a. lia. }
  exists h'. split; [exact Hins|].
  split; [|split; [reflexivity|split; [|auto]]].
  - eapply Find_primary with (index := index) (a := a).
    + exact Hidx.
    + exact Hslot'.
    + exact Hst'.
    + simpl. now rewrite bool_decide_eq_true_2.
  - unfold Hash.GetLocalDepth, assert.
    replace (length (Hash.buckets_ h')) with (length (Hash.buckets_ h))
      by (unfold h'; cbn [Hash.buckets_]; now rewrite length_insert).
    rewrite bool_decide_eq_true_2 by lia.
    cbn [res_bind]. rewrite Hslot'. cbn [res_bind]. unfold Hash.deref.
    rewrite Hst'. reflexivity.
Qed.

Lemma Insert_into_null_slot_witness :
  exists h',
    Hash.Insert Hash.hash_int hash_null_slot 7 70 = Ok h' /\
    Hash.Find Hash.hash_int h' 7 = Ok (Some 70%Z) /\
    Hash.buckets_ h'
    = <[ Z.to_nat 1 := Some (length (Hash.store hash_null_slot)) ]>
        (Hash.buckets_ hash_null_slot) /\
    Hash.GetLocalDepth h' 1 = Ok (Hash.GetGlobalDepth hash_null_slot) /\
    Hash.GetGlobalDepth h' = Hash.GetGlobalDepth hash_null_slot /\
    Hash.GetNumBuckets h' = (Hash.GetNumBuckets hash_null_slot + 1)%Z.
Proof.
  apply (Insert_into_null_slot Hash.hash_int hash_null_slot 7%Z 70%Z 1%Z
           eq_refl eq_refl).
  vm_compute. discriminate.
Defined.

(** X19: [split] on a bucket of local depth below [sizeof(size_t)] that
    has no overflow bucket and holds each key once: the call returns and
    counts one more bucket, leaves the directory and the other buckets
    alone, and loses no item: the items of the split bucket and of the new
    one are a rearrangement of the items before.  The local depth grows,
    to the same value in both buckets.  Unless that depth has reached
    [sizeof(size_t)], the new bucket is returned, both buckets hold
    items, and bit [depth - 1] of the hash is set for every key of the new
    bucket and clear for every key left in the old one; when it has
    reached [sizeof(size_t)], null is returned and the new bucket is
    chained behind the old one. *)
Theorem split_redistributes_by_hash_bit {V : Type} (HashKey : Z -> Z)
    (h : Hash.ExtendibleHash) (a : nat) (b : @Hash.Bucket V) :
  Hash.store h !! a = Some b ->
  (0 <= Hash.depth b < Hash.sizeof_size_t)%Z ->
  NoDup (Hash.items b).*1 ->
  Hash.next b = None ->
  exists nb h' bA bR,
    Hash.split HashKey h a = Ok (nb, h') /\
    Hash.GetNumBuckets h' = (Hash.GetNumBuckets h + 1)%Z /\
    Hash.buckets_ h' = Hash.buckets_ h /\
    Hash.GetGlobalDepth h' = Hash.GetGlobalDepth h /\
    Hash.store h' !! a = Some bA /\
    Hash.store h' !! length (Hash.store h) = Some bR /\
    length (Hash.store h') = S (length (Hash.store h)) /\
    (forall i, i <> a -> (i < length (Hash.store h))%nat ->
               Hash.store h' !! i = Hash.store h !! i) /\
    Hash.items b ≡ₚ Hash.items bA ++ Hash.items bR /\
    (Hash.depth b < Hash.depth bA <= Hash.sizeof_size_t)%Z /\
    Hash.depth bR = Hash.depth bA /\
    if bool_decide (Hash.depth bA = Hash.sizeof_size_t)
    then nb = None /\ Hash.next bA = Some (length (Hash.store h))
    else nb = Some (length (Hash.store h)) /\
         Hash.next bA = None /\
         Hash.items bA <> [] /\ Hash.items bR <> [] /\
         (forall k v, (k, v) ∈ Hash.items bR ->
            Z.land (HashKey k) (2 ^ (Hash.depth bA - 1)) <> 0%Z) /\
         (forall k v, (k, v) ∈ Hash.items bA ->
            Z.land (HashKey k) (2 ^ (Hash.depth bA - 1)) = 0%Z).
Proof.
  intros Hst Hdepth Hnd Hnext.
  assert (Hlt : (a < length (Hash.store h))%nat)
    by (eapply lookup_lt_Some; eauto).
  destruct (split_loop_spec HashKey 64 b
              (Hash.mkBucket 0 (Hash.depth b) [] None) eq_refl Hdepth)
    as (b' & res' & Hl & Hd' & Hdr & Hnb & Hnr & Hperm & He & Hn);
    [unfold Hash.sizeof_size_t in *; lia|exact Hnd|].
  cbn [Hash.depth Hash.next] in Hdr, Hnr.
  set (r := length (Hash.store h)).
  set (st := <[ a := b' ]> (Hash.store h) ++ [res']).
  assert (Hsta : st !! a = Some b').
  { unfold st. rewrite lookup_app_l by (now rewrite length_insert).
    now apply list_lookup_insert_eq. }
  assert (Hstr : st !! r = Some res').
  { unfold st, r. rewrite lookup_app_r by (now rewrite length_insert).
    now rewrite length_insert, Nat.sub_diag. }
  assert (Hlen : length st = S r).
  { unfold st, r. rewrite length_app, length_insert. simpl. lia. }
  assert (Hold : forall i, i <> a -> (i < r)%nat ->
                           st !! i = Hash.store h !! i).
  { intros i Hi Hir. unfold st.
    rewrite lookup_app_l by (now rewrite length_insert).
    now apply list_lookup_insert_ne. }
  unfold Hash.split, Hash.deref. rewrite Hst. cbn [res_bind].
  rewrite Hl. cbn [res_bind]. fold r. fold st.
  destruct (bool_decide (Hash.depth b' = Hash.sizeof_size_t)) eqn:Hmax.
  - apply bool_decide_eq_true_1 in Hmax.
    assert (Hend : Hash.chain_end (length st) st a = Ok a).
    { rewrite Hlen. cbn [Hash.chain_end]. unfold Hash.deref.
      rewrite Hsta. cbn [res_bind]. now rewrite Hnb, Hnext. }
    rewrite Hend. cbn [res_bind]. unfold Hash.deref. rewrite Hsta.
    cbn [res_bind].
    assert (Hra : r <> a) by (unfold r; lia).
    eexists _, _, _, res'. split; [reflexivity|].
    cbn [Hash.GetNumBuckets Hash.bucket_count_ Hash.buckets_
         Hash.GetGlobalDepth Hash.gdepth Hash.store].
    split; [reflexivity|]. split; [reflexivity|]. split; [reflexivity|].
    split; [apply list_lookup_insert_eq; lia|].
    split; [rewrite list_lookup_insert_ne by auto; exact Hstr|].
    split; [now rewrite length_insert|].
    split.
    { intros i Hi Hir. rewrite list_lookup_insert_ne by auto. auto. }
    cbn [Hash.items Hash.depth Hash.next].
    split; [exact Hperm|]. split; [exact Hd'|]. split; [lia|].
    rewrite bool_decide_eq_true_2 by exact Hmax. auto.
  - apply bool_decide_eq_false_1 in Hmax.
    exists (Some r), (Hash.mkHash (Hash.bucket_size_ h)
                        (Hash.bucket_count_ h + 1) (Hash.gdepth h)
                        (Hash.buckets_ h) st), b', res'.
    split; [reflexivity|].
    cbn [Hash.GetNumBuckets Hash.bucket_count_ Hash.buckets_
         Hash.GetGlobalDepth Hash.gdepth Hash.store].
    split; [reflexivity|]. split; [reflexivity|]. split; [reflexivity|].
    split; [exact Hsta|]. split; [exact Hstr|]. split; [exact Hlen|].
    split; [exact Hold|].
    split; [exact Hperm|]. split; [exact Hd'|]. split; [lia|].
    rewrite bool_decide_eq_false_2 by exact Hmax.
    assert (Hres : Hash.items res' <> []).
    { intros E. apply Hmax. now apply He. }
    destruct (Hn Hres) as (HbA & Hset & Hclear).
    split; [reflexivity|]. split; [now rewrite Hnb|].
    split; [exact HbA|]. split; [exact Hres|]. split.
    + intros k v Hin. exact (Hset (k, v) Hin).
    + intros k v Hin. specialize (Hclear (k, v) Hin). simpl in Hclear.
      destruct (decide (Z.land (HashKey k) (2 ^ (Hash.depth b' - 1)) = 0%Z));
        [assumption|contradiction].
Qed.

Lemma split_redistributes_by_hash_bit_witness :
  exists nb h' bA bR,
    Hash.split Hash.hash_int hash_full 0 = Ok (nb, h') /\
    Hash.GetNumBuckets h' = (Hash.GetNumBuckets hash_full + 1)%Z /\
    Hash.buckets_ h' = Hash.buckets_ hash_full /\
    Hash.GetGlobalDepth h' = Hash.GetGlobalDepth hash_full /\
    Hash.store h' !! 0%nat = Some bA /\
    Hash.store h' !! length (Hash.store hash_full) = Some bR /\
    length (Hash.store h') = S (length (Hash.store hash_full)) /\
    (forall i, i <> 0%nat -> (i < length (Hash.store hash_full))%nat ->
               Hash.store h' !! i = Hash.store hash_full !! i) /\
    [(4, 40); (5, 50); (6, 60)]%Z ≡ₚ Hash.items bA ++ Hash.items bR /\
    (0 < Hash.depth bA <= Hash.sizeof_size_t)%Z /\
    Hash.depth bR = Hash.depth bA /\
    if bool_decide (Hash.depth bA = Hash.sizeof_size_t)
    then nb = None /\ Hash.next bA = Some (length (Hash.store hash_full))
    else nb = Some (length (Hash.store hash_full)) /\
         Hash.next bA = None /\
         Hash.items bA <> [] /\ Hash.items bR <> [] /\
         (forall k v, (k, v) ∈ Hash.items bR ->
            Z.land (Hash.hash_int k) (2 ^ (Hash.depth bA - 1)) <> 0%Z) /\
         (forall k v, (k, v) ∈ Hash.items bA ->
            Z.land (Hash.hash_int k) (2 ^ (Hash.depth bA - 1)) = 0%Z).
Proof.
  apply (split_redistributes_by_hash_bit Hash.hash_int hash_full 0%nat
           (Hash.mkBucket 0 0 [(4, 40); (5, 50); (6, 60)]%Z None) eq_refl).
  - vm_compute. split; [discriminate|reflexivity].
  - apply (bool_decide_unpack _). vm_compute. exact I.
  - reflexivity.
Defined.

(** ** Index iterator: what [operator++] does to the position and the pins *)

Section IncrementFacts.
  Import BTree.

Ltac m_run := repeat (unfold bind, ret, lift, throw; cbv beta iota).

Lemma FetchPage_absent (t : BPlusTree) (p : Z) :
  page_at t p = None -> FetchPage p t = Fail NoSuchPage.
Proof.
  unfold page_at, FetchPage. intros Hp. now rewrite Hp.
Qed.

Lemma pins_pinned (t : BPlusTree) (l p : Z) :
  pins (pinned t l) p = if bool_decide (p = l) then pins t l + 1
                        else pins t p.
Proof.
  unfold pins at 1, pinned. cbn [buffer_pool_manager_ pin_count].
  case_bool_decide as Hp.
  - subst p. now rewrite lookup_insert_eq.
  - now rewrite lookup_insert_ne by auto.
Qed.

(** The two ways [operator++] returns: one step inside the leaf, which
    changes nothing, or the move to the first entry of the next leaf,
    which pins that leaf. *)
Lemma operator_incr_cases (t t' : BPlusTree) (it it' : IndexIterator) :
  operator_incr it t = Ok (it', t') ->
  exists a pg,
    leaf_ it = Some a /\ page_at t a = Some pg /\
    ((index_ it + 1 <> GetSize pg /\
      it' = mkIter (Some a) (index_ it + 1) /\ t' = t) \/
     (index_ it + 1 = GetSize pg /\
      exists l arr pgl,
        leaf_view pg = Ok (l, arr) /\ page_at t l = Some pgl /\
        it' = mkIter (Some l) 0 /\ t' = pinned t l)).
Proof.
  unfold operator_incr, deref. m_run.
  destruct (leaf_ it) as [a|]; [|discriminate].
  destruct (pages (buffer_pool_manager_ t) !! a) as [pg|] eqn:Hp;
    [|discriminate].
  intros Hrun. exists a, pg. split; [reflexivity|]. split; [exact Hp|].
  case_bool_decide as Hsz.
  - right. split; [exact Hsz|].
    unfold leaf_GetNextPageId, leaf_of, load, deref in Hrun. m_run.
    revert Hrun. m_run. rewrite Hp.
    destruct (leaf_view pg) as [[l arr]|f]; [|discriminate].
    destruct (page_at t l) as [pgl|] eqn:Hl.
    + rewrite (FetchPage_pins t l pgl Hl). intros [= <- <-].
      exists l, arr, pgl. auto.
    + rewrite (FetchPage_absent t l Hl). discriminate.
  - left. injection Hrun as <- <-. auto.
Qed.

End IncrementFacts.

(** X21: an iterator that [operator++] returns is not at its end, unless
    the leaf it stands on is empty: [isEnd] answers false on it. *)
Theorem operator_incr_result_is_not_at_end (t t' : BTree.BPlusTree)
    (it it' : BTree.IndexIterator) :
  BTree.operator_incr it t = Ok (it', t') ->
  (forall a pg, BTree.leaf_ it' = Some a -> page_at t' a = Some pg ->
                BTree.GetSize pg <> 0) ->
  BTree.isEnd it' t' = Ok (false, t').
Proof.
  intros Hrun Hfull.
  destruct (operator_incr_cases t t' it it' Hrun)
    as (a & pg & Hl & Hp &
        [(Hsz & -> & ->) | (Hsz & l & arr & pgl & Hv & Hpl & -> & ->)]).
  - unfold BTree.isEnd, BTree.load, BTree.deref, BTree.bind, BTree.ret.
    cbn [BTree.leaf_ BTree.index_]. unfold page_at in Hp. rewrite Hp.
    now rewrite bool_decide_eq_false_2 by exact Hsz.
  - assert (Hpl' : page_at (BTree.pinned t l) l = Some pgl) by exact Hpl.
    specialize (Hfull l pgl eq_refl Hpl').
    unfold BTree.isEnd, BTree.load, BTree.deref, BTree.bind, BTree.ret.
    cbn [BTree.leaf_ BTree.index_]. unfold page_at in Hpl'. rewrite Hpl'.
    rewrite bool_decide_eq_false_2; [reflexivity|]. auto.
Qed.

Lemma operator_incr_result_is_not_at_end_witness :
  BTree.isEnd (BTree.mkIter (Some 3) 0)
    (BTree.pinned (two_level [(1, 10); (2, 20)] [(5, 50); (6, 60)]) 3)
  = Ok (false,
        BTree.pinned (two_level [(1, 10); (2, 20)] [(5, 50); (6, 60)]) 3).
Proof.
  apply (operator_incr_result_is_not_at_end
           (two_level [(1, 10); (2, 20)] [(5, 50); (6, 60)]) _
           (BTree.mkIter (Some 2) 1) _ eq_refl).
  intros a pg [= <-] Hp. vm_compute in Hp. injection Hp as <-.
  vm_compute. discriminate.
Defined.

(** X22: [operator++] never unpins and never writes a page: when it
    returns, no pin count has dropped and the pages are the ones before;
    when it moves from the last entry of a leaf to the next leaf, that
    leaf has one more pin and the leaf it left keeps its pin. *)
Theorem operator_incr_never_unpins (t t' : BTree.BPlusTree)
    (it it' : BTree.IndexIterator) :
  BTree.operator_incr it t = Ok (it', t') ->
  BTree.pages (BTree.buffer_pool_manager_ t')
  = BTree.pages (BTree.buffer_pool_manager_ t) /\
  (forall p, BTree.pins t p <= BTree.pins t' p) /\
  (forall a pg, BTree.leaf_ it = Some a -> page_at t a = Some pg ->
                BTree.index_ it + 1 = BTree.GetSize pg ->
                exists l, it' = BTree.mkIter (Some l) 0 /\
                          BTree.pins t' l = BTree.pins t l + 1).
Proof.
  intros Hrun.
  destruct (operator_incr_cases t t' it it' Hrun)
    as (a & pg & Hl & Hp &
        [(Hsz & -> & ->) | (Hsz & l & arr & pgl & Hv & Hpl & -> & ->)]).
  - split; [reflexivity|]. split; [intros p; lia|].
    intros a0 pg0 Hl0 Hp0 Hsz0. rewrite Hl in Hl0. injection Hl0 as <-.
    rewrite Hp in Hp0. injection Hp0 as <-. contradiction.
  - split; [reflexivity|]. split.
    + intros p. rewrite pins_pinned. case_bool_decide; [subst p|]; lia.
    + intros _ _ _ _ _. exists l. split; [reflexivity|].
      rewrite pins_pinned. now rewrite bool_decide_eq_true_2.
Qed.

Lemma operator_incr_never_unpins_witness :
  BTree.pages (BTree.buffer_pool_manager_
                 (BTree.pinned
                    (two_level [(1, 10); (2, 20)] [(5, 50); (6, 60)]) 3))
  = BTree.pages (BTree.buffer_pool_manager_
                   (two_level [(1, 10); (2, 20)] [(5, 50); (6, 60)])) /\
  (forall p,
     BTree.pins (two_level [(1, 10); (2, 20)] [(5, 50); (6, 60)]) p
     <= BTree.pins
          (BTree.pinned (two_level [(1, 10); (2, 20)] [(5, 50); (6, 60)]) 3)
          p) /\
  (forall a pg,
     BTree.leaf_ (BTree.mkIter (Some 2) 1) = Some a ->
     page_at (two_level [(1, 10); (2, 20)] [(5, 50); (6, 60)]) a = Some pg ->
     BTree.index_ (BTree.mkIter (Some 2) 1) + 1 = BTree.GetSize pg ->
     exists l,
       BTree.mkIter (Some 3) 0 = BTree.mkIter (Some l) 0 /\
       BTree.pins
         (BTree.pinned (two_level [(1, 10); (2, 20)] [(5, 50); (6, 60)]) 3) l
       = BTree.pins (two_level [(1, 10); (2, 20)] [(5, 50); (6, 60)]) l + 1).
Proof.
  exact (operator_incr_never_unpins
           (two_level [(1, 10); (2, 20)] [(5, 50); (6, 60)]) _
           (BTree.mkIter (Some 2) 1) _ eq_refl).
Defined.

(** ** B+ tree: insertions and removals in a root leaf *)

Section TreeEdits.
  Import BTree.

Ltac m_run := repeat (unfold bind, ret, lift, throw; cbv beta iota).
Ltac tree_fields :=
  cbn [buffer_pool_manager_ pages pin_count next_page_id index_name_
       root_page_id_].

Lemma assoc_sorted_insert (key value : Z) (arr : list (Z * Z)) :
  assoc key arr = None -> assoc key (sorted_insert key value arr) = Some value.
Proof.
  induction arr as [|[k v] arr IH]; simpl.
  - intros _. now rewrite bool_decide_eq_true_2.
  - case_bool_decide as Hk; [discriminate|]. intros Ha.
    case_bool_decide; simpl.
    + now rewrite bool_decide_eq_true_2.
    + rewrite bool_decide_eq_false_2 by auto. auto.
Qed.

Lemma assoc_sorted_insert_ne (key value k' : Z) (arr : list (Z * Z)) :
  k' <> key -> assoc k' (sorted_insert key value arr) = assoc k' arr.
Proof.
  intros Hne. induction arr as [|[k v] arr IH]; simpl.
  - now rewrite bool_decide_eq_false_2 by auto.
  - case_bool_decide; simpl.
    + now rewrite (bool_decide_eq_false_2 (key = k')) by auto.
    + now rewrite IH.
Qed.

Lemma leaf_Lookup_leaf (t : BPlusTree) (a key : Z) (pg : Page) (n : Z)
    (arr : list (Z * Z)) :
  page_at t a = Some pg -> body pg = LeafBody n arr ->
  leaf_Lookup a key t = Ok (assoc key arr, t).
Proof.
  unfold page_at. intros Hp Hb.
  unfold leaf_Lookup, leaf_of, load, deref. m_run. rewrite Hp.
  unfold leaf_view. now rewrite Hb.
Qed.

Lemma assoc_None (key : Z) (arr : list (Z * Z)) :
  assoc key arr = None <-> key ∉ arr.*1.
Proof.
  induction arr as [|[k v] arr IH]; simpl.
  - split; [intros _; apply not_elem_of_nil|reflexivity].
  - case_bool_decide as Hk.
    + subst k. split; [discriminate|]. intros Hn. destruct Hn.
      apply elem_of_cons. now left.
    + rewrite IH, not_elem_of_cons. split; [auto|tauto].
Qed.

Lemma assoc_remove_key (key : Z) (arr : list (Z * Z)) :
  NoDup arr.*1 -> assoc key (remove_key key arr) = None.
Proof.
  induction arr as [|[k v] arr IH]; simpl; [reflexivity|].
  intros Hnd. apply NoDup_cons in Hnd as [Hk Hnd].
  case_bool_decide as Hkk.
  - subst k. now apply assoc_None.
  - simpl. rewrite bool_decide_eq_false_2 by auto. auto.
Qed.

Lemma assoc_remove_key_ne (key k' : Z) (arr : list (Z * Z)) :
  k' <> key -> assoc k' (remove_key key arr) = assoc k' arr.
Proof.
  intros Hne. induction arr as [|[k v] arr IH]; simpl; [reflexivity|].
  case_bool_decide as Hk.
  - subst k. now rewrite bool_decide_eq_false_2 by auto.
  - simpl. now rewrite IH.
Qed.

(** What the buffer pool calls and the descent do, told by the pages and
    the pin counts of the tree they return. *)
Lemma FetchPage_spec (t : BPlusTree) (p : Z) (pg : Page) :
  page_at t p = Some pg ->
  exists t', FetchPage p t = Ok (Some p, t') /\ same_pages t t' /\
             forall q, pins t' q
                       = pins t q + (if bool_decide (q = p) then 1 else 0).
Proof.
  intros Hp. exists (pinned t p). split; [now apply (FetchPage_pins t p pg)|].
  split; [repeat split|].
  intros q. rewrite pins_pinned. case_bool_decide; [subst q|]; lia.
Qed.

Lemma UnpinPage_spec (t : BPlusTree) (p : Z) (pg : Page) (d : bool) :
  page_at t p = Some pg -> 0 < pins t p ->
  exists t', UnpinPage p d t = Ok (true, t') /\ same_pages t t' /\
             forall q, pins t' q
                       = pins t q - (if bool_decide (q = p) then 1 else 0).
Proof.
  destruct t as [name root [pgs pin nxt]]. unfold page_at, pins. tree_fields.
  intros Hp Hpin. unfold UnpinPage, with_bpm. tree_fields. rewrite Hp.
  rewrite bool_decide_eq_false_2 by lia.
  eexists. split; [reflexivity|]. split; [repeat split|].
  intros q. tree_fields. case_bool_decide as Hq.
  - subst q. rewrite lookup_insert_eq. simpl. lia.
  - rewrite lookup_insert_ne by auto. lia.
Qed.

Lemma load_spec (t : BPlusTree) (a : Z) (pg : Page) :
  page_at t a = Some pg -> load a t = Ok (pg, t).
Proof.
  unfold page_at, load, deref. m_run. intros Hp. now rewrite Hp.
Qed.

Lemma descend_find_leaf (key : Z) (fuel : nat) :
  forall (a leaf : Z) (t : BPlusTree),
  find_leaf fuel (pages (buffer_pool_manager_ t)) key a = Some leaf ->
  0 < pins t a -> (forall p, 0 <= pins t p) ->
  exists t',
    descend fuel (Some a) key t = Ok (leaf, t') /\ same_pages t t' /\
    (exists pg, page_at t leaf = Some pg /\ page_type pg = LEAF_PAGE) /\
    forall q, pins t' q = pins t q - (if bool_decide (q = a) then 1 else 0)
                          + (if bool_decide (q = leaf) then 1 else 0).
Proof.
  induction fuel as [|fuel IH]; intros a leaf t Hfind Hpin Hall.
  - cbn [find_leaf] in Hfind. cbn [descend]. unfold deref. m_run.
    destruct (pages (buffer_pool_manager_ t) !! a) as [pg|] eqn:Hp;
      [|discriminate].
    destruct (IsLeafPage pg) eqn:Hleaf; [|discriminate].
    injection Hfind as <-. exists t. cbn [negb]. split; [reflexivity|].
    split; [repeat split|]. split.
    { exists pg. split; [exact Hp|].
      now apply bool_decide_eq_true_1 in Hleaf. }
    intros q. case_bool_decide; lia.
  - cbn [find_leaf] in Hfind. cbn [descend]. unfold deref. m_run.
    destruct (pages (buffer_pool_manager_ t) !! a) as [pg|] eqn:Hp;
      [|discriminate].
    destruct (IsLeafPage pg) eqn:Hleaf.
    + injection Hfind as <-. exists t. cbn [negb]. split; [reflexivity|].
      split; [repeat split|]. split.
      { exists pg. split; [exact Hp|].
        now apply bool_decide_eq_true_1 in Hleaf. }
      intros q. case_bool_decide; lia.
    + cbn [negb]. case_bool_decide as Hid; [|discriminate].
      destruct (internal_view pg) as [[|[k0 c0] r]|f] eqn:Hv; try discriminate.
      unfold internal_Lookup, internal_of, load, deref. m_run.
      rewrite Hp, Hv. unfold GetPageId. rewrite Hid.
      destruct (UnpinPage_spec t a pg false Hp Hpin)
        as (t1 & Hun & (Hpg1 & Hr1 & Hn1 & Hx1) & Hpins1).
      rewrite Hun.
      set (c := lookup_from key c0 r) in *. clearbody c.
      assert (Hc : exists cpg, page_at t1 c = Some cpg).
      { unfold page_at. rewrite Hpg1. destruct fuel; cbn [find_leaf] in Hfind;
          destruct (pages (buffer_pool_manager_ t) !! c); eauto; discriminate. }
      destruct Hc as (cpg & Hc).
      destruct (FetchPage_spec t1 c cpg Hc)
        as (t2 & Hfe & (Hpg2 & Hr2 & Hn2 & Hx2) & Hpins2).
      rewrite Hfe.
      destruct (IH c leaf t2)
        as (t' & Hd & (Hpg' & Hr' & Hn' & Hx') & Hlf & Hpins').
      * now rewrite Hpg2, Hpg1.
      * rewrite Hpins2, Hpins1.
        rewrite (bool_decide_eq_true_2 (c = c)) by reflexivity.
        specialize (Hall c). case_bool_decide as E; [rewrite E|]; lia.
      * intros p. rewrite Hpins2, Hpins1. specialize (Hall p).
        repeat case_bool_decide; subst; lia.
      * exists t'. split; [exact Hd|]. split.
        { repeat split; congruence. }
        split.
        { destruct Hlf as (lpg & Hl & Hty). exists lpg. split; [|exact Hty].
          unfold page_at in *. now rewrite <- Hpg1, <- Hpg2. }
        intros q. rewrite Hpins', Hpins2, Hpins1.
        repeat case_bool_decide; subst; lia.
Qed.

Lemma store_leaf_spec (t : BPlusTree) (a : Z) (pg : Page) (n : Z)
    (arr : list (Z * Z)) :
  exists t', store_leaf a pg n arr t = Ok (tt, t') /\
    pages (buffer_pool_manager_ t')
    = <[ a := set_body pg (LeafBody n arr) ]>
        (pages (buffer_pool_manager_ t)) /\
    root_page_id_ t' = root_page_id_ t /\
    (forall q, pins t' q = pins t q).
Proof.
  destruct t as [name root [pgs pin nxt]].
  unfold store_leaf, store, with_bpm. tree_fields.
  eexists. split; [reflexivity|]. auto.
Qed.

(** X23: [Insert] into an empty tree whose header page has no record of
    the index: the call returns true, the root is the page [NewPage] hands
    out, the header page records it under the name of the index and gets
    its pin back, and the new page holds the entry.  The new page keeps the
    header fields [NewPage] gave it (it is not set up as a leaf page) and
    keeps its pin. *)
Theorem Insert_into_empty_tree_starts_a_root (t : BPlusTree) (fuel : nat)
    (key value : Z) (hpg : Page)
    (recs : list (string * Z)) :
  root_page_id_ t = INVALID_PAGE_ID ->
  page_at t HEADER_PAGE_ID = Some hpg ->
  header_view hpg = Ok recs ->
  index_name_ t ∉ recs.*1 ->
  next_page_id (buffer_pool_manager_ t) <> HEADER_PAGE_ID ->
  0 <= pins t HEADER_PAGE_ID ->
  let r := next_page_id (buffer_pool_manager_ t) in
  exists t',
    Insert fuel key value t = Ok (true, t') /\
    root_page_id_ t' = r /\
    page_at t' r
    = Some (mkPage INVALID_INDEX_PAGE 0 0 0 (LeafBody 0 [(key, value)])) /\
    page_at t' HEADER_PAGE_ID
    = Some (set_body hpg (HeaderBody (recs ++ [(index_name_ t, r)]))) /\
    pins t' r = 1 /\
    pins t' HEADER_PAGE_ID = pins t HEADER_PAGE_ID /\
    (forall p, p <> r -> p <> HEADER_PAGE_ID ->
               page_at t' p = page_at t p /\ pins t' p = pins t p).
Proof.
  destruct t as [name root [pgs pin nxt]].
  unfold page_at, pins. tree_fields.
  intros -> Hh Hv Hname Hr Hpin.
  unfold Insert, IsEmpty, get_root. m_run.
  cbn [root_page_id_]. rewrite bool_decide_eq_true_2 by reflexivity.
  unfold StartNewTree, NewPage_or_throw, NewPage, with_bpm. m_run.
  tree_fields.
  unfold set_root. m_run.
  tree_fields.
  unfold UpdateRootPageId, FetchPage, with_bpm. m_run.
  tree_fields.
  rewrite lookup_insert_ne by auto. rewrite Hh.
  assert (Hh1 : <[nxt:=zero_page]> pgs !! HEADER_PAGE_ID = Some hpg)
    by (rewrite lookup_insert_ne by auto; exact Hh).
  unfold deref. cbn [buffer_pool_manager_ pages]. rewrite Hh1.
  unfold get_name, get_root. cbn [index_name_ root_page_id_].
  unfold InsertRecord, load, deref. m_run.
  cbn [buffer_pool_manager_ pages]. rewrite Hh1, Hv.
  rewrite bool_decide_eq_false_2 by exact Hname.
  unfold store, with_bpm.
  tree_fields.
  unfold UnpinPage, with_bpm.
  tree_fields.
  rewrite lookup_insert_eq. rewrite (lookup_insert_ne pin) by auto.
  rewrite lookup_insert_eq. cbn [default id].
  rewrite bool_decide_eq_false_2 by lia.
  unfold leaf_Insert, leaf_of, load, deref. m_run.
  tree_fields.
  rewrite lookup_insert_ne by auto. rewrite lookup_insert_eq.
  unfold leaf_view, zero_page at 1. cbn [body].
  unfold store_leaf, store, with_bpm.
  tree_fields.
  eexists. split; [reflexivity|].
  tree_fields.
  split; [reflexivity|].
  split; [now rewrite lookup_insert_eq|].
  split; [rewrite lookup_insert_ne by auto; now rewrite lookup_insert_eq|].
  split.
  { rewrite !lookup_insert_ne by auto. now rewrite lookup_insert_eq. }
  split; [rewrite lookup_insert_eq; simpl; lia|].
  intros p Hp Hp0. rewrite !lookup_insert_ne by auto. auto.
Qed.

Lemma Insert_into_empty_tree_starts_a_root_witness :
  exists t',
    Insert 10 7 70 empty_tree = Ok (true, t') /\
    root_page_id_ t' = 1 /\
    page_at t' 1
    = Some (mkPage INVALID_INDEX_PAGE 0 0 0 (LeafBody 0 [(7, 70)])) /\
    page_at t' HEADER_PAGE_ID
    = Some (set_body (header_page []) (HeaderBody ([] ++ [(idx, 1)]))) /\
    pins t' 1 = 1 /\
    pins t' HEADER_PAGE_ID = pins empty_tree HEADER_PAGE_ID /\
    (forall p, p <> 1 -> p <> HEADER_PAGE_ID ->
               page_at t' p = page_at empty_tree p /\
               pins t' p = pins empty_tree p).
Proof.
  apply (Insert_into_empty_tree_starts_a_root empty_tree 10 7 70
           (header_page []) [] eq_refl eq_refl eq_refl).
  - apply not_elem_of_nil.
  - discriminate.
  - vm_compute. discriminate.
Defined.

(** X24: [Insert] of a key into a tree of any height, when the leaf that
    the descent reaches has room and does not hold the key: the call
    returns true, the entry is inserted in key order in that leaf, a lookup
    in the leaf then finds the value and finds every other key as before,
    every pin count is what it was before the call (each page fetched on
    the way down is unpinned again), and no other page changes. *)
Theorem Insert_into_leaf_with_room (t : BPlusTree) (fuel : nat)
    (key value leaf : Z) (rpg pg : Page)
    (n : Z) (arr : list (Z * Z)) :
  root_page_id_ t <> INVALID_PAGE_ID ->
  page_at t (root_page_id_ t) = Some rpg ->
  parent_page_id rpg = INVALID_PAGE_ID ->
  find_leaf fuel (pages (buffer_pool_manager_ t)) key (root_page_id_ t)
  = Some leaf ->
  page_at t leaf = Some pg ->
  page_id pg = leaf ->
  body pg = LeafBody n arr ->
  Z.of_nat (length arr) < max_size pg ->
  assoc key arr = None ->
  (forall p, 0 <= pins t p) ->
  exists t',
    Insert fuel key value t = Ok (true, t') /\
    root_page_id_ t' = root_page_id_ t /\
    page_at t' leaf
    = Some (set_body pg (LeafBody n (sorted_insert key value arr))) /\
    leaf_Lookup leaf key t' = Ok (Some value, t') /\
    (forall k', k' <> key ->
       leaf_Lookup leaf k' t' = Ok (assoc k' arr, t')) /\
    (forall p, pins t' p = pins t p) /\
    (forall p, p <> leaf -> page_at t' p = page_at t p).
Proof.
  intros Hroot Hrp Hpar Hfind Hp Hid Hb Hroom Habs Hpins.
  destruct (FetchPage_spec t _ rpg Hrp)
    as (t1 & Hfe & (Hpg1 & Hr1 & Hn1 & Hx1) & Hpins1).
  destruct (descend_find_leaf key fuel (root_page_id_ t) leaf t1)
    as (t2 & Hd & (Hpg2 & Hr2 & Hn2 & Hx2) & _ & Hpins2).
  { now rewrite Hpg1. }
  { rewrite Hpins1, bool_decide_eq_true_2 by reflexivity.
    specialize (Hpins (root_page_id_ t)). lia. }
  { intros p. rewrite Hpins1. specialize (Hpins p). case_bool_decide; lia. }
  assert (Hp2 : page_at t2 leaf = Some pg).
  { unfold page_at in *. now rewrite Hpg2, Hpg1. }
  set (pg' := set_body pg (LeafBody n (sorted_insert key value arr))).
  destruct (store_leaf_spec t2 leaf pg n (sorted_insert key value arr))
    as (t3 & Hst & Hpg3 & Hr3 & Hpins3).
  fold pg' in Hpg3.
  assert (Hp3 : page_at t3 leaf = Some pg').
  { unfold page_at. rewrite Hpg3. apply lookup_insert_eq. }
  destruct (UnpinPage_spec t3 leaf pg' true Hp3)
    as (t4 & Hun & (Hpg4 & Hr4 & Hn4 & Hx4) & Hpins4).
  { rewrite Hpins3, Hpins2, Hpins1. specialize (Hpins leaf).
    rewrite (bool_decide_eq_true_2 (leaf = leaf)) by reflexivity.
    repeat case_bool_decide; lia. }
  assert (Hrun : Insert fuel key value t = Ok (true, t4)).
  { unfold Insert, IsEmpty, get_root. m_run.
    rewrite bool_decide_eq_false_2 by exact Hroot.
    unfold InsertIntoLeaf, get_root. m_run.
    rewrite Hfe. unfold deref at 1.
    assert (Hrp1 : pages (buffer_pool_manager_ t1) !! root_page_id_ t
                   = Some rpg) by (rewrite Hpg1; exact Hrp).
    rewrite Hrp1. unfold IsRootPage, assert.
    rewrite bool_decide_eq_true_2 by exact Hpar.
    rewrite Hd. rewrite (load_spec t2 leaf pg Hp2).
    unfold GetSize, GetMaxSize. rewrite Hb.
    rewrite bool_decide_eq_true_2 by exact Hroom.
    rewrite (leaf_Lookup_leaf t2 leaf key pg n arr Hp2 Hb), Habs.
    unfold leaf_Insert, leaf_of. m_run.
    rewrite (load_spec t2 leaf pg Hp2). unfold leaf_view. rewrite Hb.
    rewrite Hst. unfold unpin_of. m_run.
    rewrite (load_spec t3 leaf pg' Hp3).
    unfold GetPageId. cbn [page_id pg' set_body]. rewrite Hid, Hun.
    reflexivity. }
  exists t4. split; [exact Hrun|].
  assert (Hp4 : page_at t4 leaf = Some pg').
  { unfold page_at. now rewrite Hpg4. }
  split; [congruence|]. split; [exact Hp4|].
  split.
  { rewrite (leaf_Lookup_leaf t4 leaf key pg' n _ Hp4 eq_refl).
    now rewrite assoc_sorted_insert. }
  split.
  { intros k' Hk'.
    rewrite (leaf_Lookup_leaf t4 leaf k' pg' n _ Hp4 eq_refl).
    now rewrite assoc_sorted_insert_ne. }
  split.
  - intros p. rewrite Hpins4, Hpins3, Hpins2, Hpins1.
    repeat case_bool_decide; subst; lia.
  - intros p Hne. unfold page_at. rewrite Hpg4, Hpg3, Hpg2, Hpg1.
    now rewrite lookup_insert_ne by auto.
Qed.

Lemma Insert_into_leaf_with_room_witness :
  exists t',
    Insert 10 7 70 (two_level [(1, 10); (2, 20)] [(5, 50); (6, 60)])
    = Ok (true, t') /\
    root_page_id_ t'
    = root_page_id_ (two_level [(1, 10); (2, 20)] [(5, 50); (6, 60)]) /\
    page_at t' 3
    = Some (set_body
              (leaf_page 3 1 4 INVALID_PAGE_ID [(5, 50); (6, 60)])
              (LeafBody INVALID_PAGE_ID
                 (sorted_insert 7 70 [(5, 50); (6, 60)]))) /\
    leaf_Lookup 3 7 t' = Ok (Some 70, t') /\
    (forall k', k' <> 7 ->
       leaf_Lookup 3 k' t' = Ok (assoc k' [(5, 50); (6, 60)], t')) /\
    (forall p,
       pins t' p
       = pins (two_level [(1, 10); (2, 20)] [(5, 50); (6, 60)]) p) /\
    (forall p, p <> 3 ->
       page_at t' p
       = page_at (two_level [(1, 10); (2, 20)] [(5, 50); (6, 60)]) p).
Proof.
  apply (Insert_into_leaf_with_room
           (two_level [(1, 10); (2, 20)] [(5, 50); (6, 60)]) 10 7 70 3
           (internal_page 1 INVALID_PAGE_ID 4 [(0, 2); (5, 3)])
           (leaf_page 3 1 4 INVALID_PAGE_ID [(5, 50); (6, 60)])
           INVALID_PAGE_ID [(5, 50); (6, 60)]);
    try reflexivity.
  vm_compute. discriminate.
Defined.

(** X25: [Remove] of a key from a tree of any height, when the leaf that
    the descent reaches holds each key once and stays filled (it is the
    root and keeps an entry, or it keeps at least its minimum size): the
    call returns, the entry of the key is gone from that leaf and the
    others stay, the root stays, every pin count is what it was before the
    call, and no other page changes. *)
Theorem Remove_from_leaf_that_stays_filled (t : BPlusTree) (fuel : nat)
    (key leaf : Z) (rpg pg : Page)
    (n : Z) (arr : list (Z * Z)) :
  root_page_id_ t <> INVALID_PAGE_ID ->
  page_at t (root_page_id_ t) = Some rpg ->
  parent_page_id rpg = INVALID_PAGE_ID ->
  find_leaf (S fuel) (pages (buffer_pool_manager_ t)) key (root_page_id_ t)
  = Some leaf ->
  page_at t leaf = Some pg ->
  page_id pg = leaf ->
  body pg = LeafBody n arr ->
  NoDup arr.*1 ->
  (parent_page_id pg = INVALID_PAGE_ID /\ remove_key key arr <> []) \/
  (parent_page_id pg <> INVALID_PAGE_ID /\
   GetMinSize pg <= Z.of_nat (length (remove_key key arr))) ->
  (forall p, 0 <= pins t p) ->
  exists t',
    Remove (S fuel) key t = Ok (tt, t') /\
    root_page_id_ t' = root_page_id_ t /\
    page_at t' leaf
    = Some (set_body pg (LeafBody n (remove_key key arr))) /\
    leaf_Lookup leaf key t' = Ok (None, t') /\
    (forall k', k' <> key ->
       leaf_Lookup leaf k' t' = Ok (assoc k' arr, t')) /\
    (forall p, pins t' p = pins t p) /\
    (forall p, p <> leaf -> page_at t' p = page_at t p).
Proof.
  intros Hroot Hrp Hpar Hfind Hp Hid Hb Hnd Hkeep Hpins.
  destruct (FetchPage_spec t _ rpg Hrp)
    as (t1 & Hfe & (Hpg1 & Hr1 & Hn1 & Hx1) & Hpins1).
  destruct (descend_find_leaf key (S fuel) (root_page_id_ t) leaf t1)
    as (t2 & Hd & (Hpg2 & Hr2 & Hn2 & Hx2) & (lpg & Hlp & Hty) & Hpins2).
  { now rewrite Hpg1. }
  { rewrite Hpins1, bool_decide_eq_true_2 by reflexivity.
    specialize (Hpins (root_page_id_ t)). lia. }
  { intros p. rewrite Hpins1. specialize (Hpins p). case_bool_decide; lia. }
  assert (lpg = pg) as ->.
  { unfold page_at in *. rewrite Hpg1, Hp in Hlp. congruence. }
  assert (Hp2 : page_at t2 leaf = Some pg).
  { unfold page_at in *. now rewrite Hpg2, Hpg1. }
  set (pg' := set_body pg (LeafBody n (remove_key key arr))).
  destruct (store_leaf_spec t2 leaf pg n (remove_key key arr))
    as (t3 & Hst & Hpg3 & Hr3 & Hpins3).
  fold pg' in Hpg3.
  assert (Hp3 : page_at t3 leaf = Some pg').
  { unfold page_at. rewrite Hpg3. apply lookup_insert_eq. }
  destruct (UnpinPage_spec t3 leaf pg' true Hp3)
    as (t4 & Hun & (Hpg4 & Hr4 & Hn4 & Hx4) & Hpins4).
  { rewrite Hpins3, Hpins2, Hpins1. specialize (Hpins leaf).
    rewrite (bool_decide_eq_true_2 (leaf = leaf)) by reflexivity.
    repeat case_bool_decide; lia. }
  assert (Hcor : CoalesceOrRedistribute (S fuel) LeafN leaf t3
                 = Ok (false, t3)).
  { cbn [CoalesceOrRedistribute]. m_run.
    rewrite (load_spec t3 leaf pg' Hp3). unfold IsRootPage.
    destruct Hkeep as [[Hnone Hne]|[Hsome Hmin]].
    - rewrite bool_decide_eq_true_2 by exact Hnone.
      unfold AdjustRoot. m_run. rewrite (load_spec t3 leaf pg' Hp3).
      unfold IsLeafPage. rewrite bool_decide_eq_true_2 by exact Hty.
      unfold GetSize. cbn [body pg' set_body].
      rewrite bool_decide_eq_false_2; [reflexivity|].
      destruct (remove_key key arr); [contradiction|simpl; lia].
    - rewrite bool_decide_eq_false_2 by exact Hsome.
      unfold GetSize. cbn [body pg' set_body].
      rewrite bool_decide_eq_true_2; [reflexivity|].
      change (GetMinSize pg') with (GetMinSize pg). lia. }
  assert (Hrun : Remove (S fuel) key t = Ok (tt, t4)).
  { unfold Remove, IsEmpty, get_root. m_run.
    rewrite bool_decide_eq_false_2 by exact Hroot.
    rewrite Hfe. unfold deref at 1.
    assert (Hrp1 : pages (buffer_pool_manager_ t1) !! root_page_id_ t
                   = Some rpg) by (rewrite Hpg1; exact Hrp).
    rewrite Hrp1. unfold IsRootPage, assert.
    rewrite bool_decide_eq_true_2 by exact Hpar.
    rewrite Hd.
    unfold leaf_RemoveAndDeleteRecord, leaf_of. m_run.
    rewrite (load_spec t2 leaf pg Hp2). unfold leaf_view. rewrite Hb.
    rewrite Hst, Hcor. unfold release, unpin_of. m_run.
    rewrite (load_spec t3 leaf pg' Hp3).
    unfold GetPageId. cbn [page_id pg' set_body]. rewrite Hid, Hun.
    reflexivity. }
  exists t4. split; [exact Hrun|].
  assert (Hp4 : page_at t4 leaf = Some pg').
  { unfold page_at. now rewrite Hpg4. }
  split; [congruence|]. split; [exact Hp4|].
  split.
  { rewrite (leaf_Lookup_leaf t4 leaf key pg' n _ Hp4 eq_refl).
    now rewrite assoc_remove_key. }
  split.
  { intros k' Hk'.
    rewrite (leaf_Lookup_leaf t4 leaf k' pg' n _ Hp4 eq_refl).
    now rewrite assoc_remove_key_ne. }
  split.
  - intros p. rewrite Hpins4, Hpins3, Hpins2, Hpins1.
    repeat case_bool_decide; subst; lia.
  - intros p Hne. unfold page_at. rewrite Hpg4, Hpg3, Hpg2, Hpg1.
    now rewrite lookup_insert_ne by auto.
Qed.

Lemma Remove_from_leaf_that_stays_filled_witness :
  exists t',
    Remove 10 5 (two_level [(1, 10); (2, 20)] [(5, 50); (6, 60); (7, 70)])
    = Ok (tt, t') /\
    root_page_id_ t'
    = root_page_id_
        (two_level [(1, 10); (2, 20)] [(5, 50); (6, 60); (7, 70)]) /\
    page_at t' 3
    = Some (set_body
              (leaf_page 3 1 4 INVALID_PAGE_ID [(5, 50); (6, 60); (7, 70)])
              (LeafBody INVALID_PAGE_ID
                 (remove_key 5 [(5, 50); (6, 60); (7, 70)]))) /\
    leaf_Lookup 3 5 t' = Ok (None, t') /\
    (forall k', k' <> 5 ->
       leaf_Lookup 3 k' t'
       = Ok (assoc k' [(5, 50); (6, 60); (7, 70)], t')) /\
    (forall p,
       pins t' p
       = pins (two_level [(1, 10); (2, 20)] [(5, 50); (6, 60); (7, 70)])
           p) /\
    (forall p, p <> 3 ->
       page_at t' p
       = page_at (two_level [(1, 10); (2, 20)] [(5, 50); (6, 60); (7, 70)])
           p).
Proof.
  apply (Remove_from_leaf_that_stays_filled
           (two_level [(1, 10); (2, 20)] [(5, 50); (6, 60); (7, 70)]) 9 5 3
           (internal_page 1 INVALID_PAGE_ID 4 [(0, 2); (5, 3)])
           (leaf_page 3 1 4 INVALID_PAGE_ID [(5, 50); (6, 60); (7, 70)])
           INVALID_PAGE_ID [(5, 50); (6, 60); (7, 70)]);
    try reflexivity.
  - vm_compute. discriminate.
  - apply (bool_decide_unpack _). vm_compute. exact I.
  - right. split; vm_compute; discriminate.
Defined.

(** [update_record] overwrites the root id of the first record under the
    name and keeps every other record. *)
Lemma update_record_at (name : string) (root v : Z)
    (l1 l2 : list (string * Z)) :
  name ∉ l1.*1 ->
  update_record name root (l1 ++ (name, v) :: l2) = l1 ++ (name, root) :: l2.
Proof.
  induction l1 as [|[n' v'] l1 IH]; intros Hn; cbn [update_record app].
  - now rewrite bool_decide_eq_true_2 by reflexivity.
  - cbn [fmap list_fmap fst] in Hn. apply not_elem_of_cons in Hn as [Hne Hn].
    rewrite bool_decide_eq_false_2 by auto. now rewrite IH by exact Hn.
Qed.

(** The run of [Remove] on a root leaf that the removal leaves empty, with
    the records of the header page rewritten by [update_record]. *)
Lemma Remove_of_last_key_run (t : BPlusTree) (fuel : nat)
    (key : Z) (pg hpg : Page) (n : Z)
    (arr : list (Z * Z)) (recs : list (string * Z)) :
  root_page_id_ t <> INVALID_PAGE_ID ->
  root_page_id_ t <> HEADER_PAGE_ID ->
  page_at t (root_page_id_ t) = Some pg ->
  parent_page_id pg = INVALID_PAGE_ID ->
  page_type pg = LEAF_PAGE ->
  page_id pg = root_page_id_ t ->
  body pg = LeafBody n arr ->
  remove_key key arr = [] ->
  page_at t HEADER_PAGE_ID = Some hpg ->
  header_view hpg = Ok recs ->
  0 <= pins t (root_page_id_ t) ->
  0 <= pins t HEADER_PAGE_ID ->
  exists t',
    Remove (S fuel) key t = Ok (tt, t') /\
    IsEmpty t' = Ok (true, t') /\
    page_at t' HEADER_PAGE_ID
    = Some (set_body hpg
              (HeaderBody
                 (update_record (index_name_ t) INVALID_PAGE_ID recs))) /\
    page_at t' (root_page_id_ t)
    = (if bool_decide (0 < pins t (root_page_id_ t))
       then Some (set_body pg (LeafBody n [])) else None) /\
    pins t' (root_page_id_ t) = pins t (root_page_id_ t) /\
    pins t' HEADER_PAGE_ID = pins t HEADER_PAGE_ID /\
    (forall p, p <> root_page_id_ t -> p <> HEADER_PAGE_ID ->
               page_at t' p = page_at t p /\ pins t' p = pins t p).
Proof.
  destruct t as [name root [pgs pin nxt]].
  unfold page_at, pins. tree_fields.
  intros Hroot Hroot0 Hp Hpar Hty Hid Hb Hrest Hh Hv Hpin Hpin0.
  set (pg' := set_body pg (LeafBody n [])).
  set (hpg' := set_body hpg
                 (HeaderBody (update_record name INVALID_PAGE_ID recs))).
  set (c := default 0 (pin !! root)) in *.
  set (c0 := default 0 (pin !! HEADER_PAGE_ID)) in *.
  set (pin' := <[ root := c + 1 - 1 ]>
                 (<[ HEADER_PAGE_ID := c0 + 1 - 1 ]>
                    (<[ HEADER_PAGE_ID := c0 + 1 ]>
                       (<[ root := c + 1 ]> pin)))).
  set (pgs' := <[ HEADER_PAGE_ID := hpg' ]> (<[ root := pg' ]> pgs)).
  set (t' := mkTree name INVALID_PAGE_ID
               (if bool_decide (0 < c)
                then mkBPM pgs' pin' nxt
                else mkBPM (delete root pgs') (delete root pin') nxt)).
  assert (Hrun : Remove (S fuel) key
                   (mkTree name root (mkBPM pgs pin nxt)) = Ok (tt, t')).
  { unfold Remove, IsEmpty, get_root. m_run.
    cbn [root_page_id_]. rewrite bool_decide_eq_false_2 by exact Hroot.
    unfold FetchPage at 1, with_bpm.
    tree_fields.
    rewrite Hp. unfold deref at 1.
    tree_fields.
    rewrite Hp. unfold IsRootPage, assert.
    rewrite bool_decide_eq_true_2 by exact Hpar.
    fold c.
    assert (Hd : forall t1, pages (buffer_pool_manager_ t1) = pgs ->
                   descend (S fuel) (Some root) key t1 = Ok (root, t1)).
    { intros t1 Ht1. cbn [descend]; unfold deref; m_run;
        rewrite Ht1, Hp; unfold IsLeafPage; rewrite Hty;
        rewrite bool_decide_eq_true_2 by reflexivity; reflexivity. }
    rewrite Hd by reflexivity.
    unfold leaf_RemoveAndDeleteRecord, leaf_of, load, deref. m_run.
    cbn [buffer_pool_manager_ pages]. rewrite Hp.
    unfold leaf_view. rewrite Hb, Hrest.
    unfold store_leaf, store, with_bpm.
    tree_fields.
    fold pg'.
    cbn [CoalesceOrRedistribute]. unfold load, deref. m_run.
    tree_fields.
    rewrite lookup_insert_eq. unfold IsRootPage.
    rewrite bool_decide_eq_true_2 by exact Hpar.
    unfold AdjustRoot, load, deref. m_run.
    tree_fields.
    rewrite lookup_insert_eq. unfold IsLeafPage.
    rewrite bool_decide_eq_true_2 by exact Hty.
    rewrite bool_decide_eq_true_2 by reflexivity.
    unfold set_root. m_run.
    tree_fields.
    unfold UpdateRootPageId, FetchPage, with_bpm. m_run.
    tree_fields.
    assert (Hh1 : <[root:=pg']> pgs !! HEADER_PAGE_ID = Some hpg)
      by (rewrite lookup_insert_ne by auto; exact Hh).
    rewrite Hh1. unfold deref.
    tree_fields.
    rewrite Hh1. unfold get_name, get_root.
    tree_fields.
    unfold UpdateRecord, load, deref. m_run.
    tree_fields.
    rewrite Hh1, Hv. unfold store, with_bpm.
    tree_fields.
    fold hpg'. fold pgs'.
    assert (Hr' : pgs' !! root = Some pg').
    { unfold pgs'. rewrite lookup_insert_ne by auto.
      apply lookup_insert_eq. }
    assert (Hh' : pgs' !! HEADER_PAGE_ID = Some hpg')
      by apply lookup_insert_eq.
    unfold t'. clearbody pgs'.
    unfold UnpinPage at 1, with_bpm.
    tree_fields.
    rewrite Hh'.
    rewrite lookup_insert_eq.
    rewrite (lookup_insert_ne pin) by auto. fold c0. cbn [default id].
    rewrite bool_decide_eq_false_2 by lia.
    unfold release, unpin_of, load, deref. m_run.
    tree_fields.
    rewrite Hr'. unfold GetPageId. cbn [page_id pg' set_body].
    rewrite Hid.
    unfold UnpinPage, with_bpm.
    tree_fields.
    rewrite Hr'. rewrite !(lookup_insert_ne _ HEADER_PAGE_ID root) by auto.
    rewrite lookup_insert_eq. cbn [default id].
    rewrite bool_decide_eq_false_2 by lia.
    tree_fields.
    rewrite Hr'. cbn [page_id pg' set_body]. rewrite Hid.
    unfold DeletePage, with_bpm.
    tree_fields.
    rewrite lookup_insert_eq. cbn [default id].
    replace (c + 1 - 1) with c by lia.
    unfold pin'. replace (c + 1 - 1) with c by lia.
    destruct (bool_decide (0 < c)); reflexivity. }
  exists t'. split; [exact Hrun|].
  split; [reflexivity|].
  unfold t'. destruct (bool_decide (0 < c)) eqn:Hc;
    cbn [buffer_pool_manager_ pages pin_count].
  - split; [apply lookup_insert_eq|].
    split.
    { unfold pgs'. rewrite lookup_insert_ne by auto.
      apply lookup_insert_eq. }
    split; [unfold pin'; rewrite lookup_insert_eq; simpl; lia|].
    split.
    { unfold pin'. rewrite lookup_insert_ne by auto.
      rewrite lookup_insert_eq. simpl. lia. }
    intros p Hp1 Hp2. unfold pgs', pin'.
    rewrite !lookup_insert_ne by auto. auto.
  - apply bool_decide_eq_false_1 in Hc.
    split.
    { rewrite lookup_delete_ne by auto. apply lookup_insert_eq. }
    split; [apply lookup_delete_eq|].
    split; [rewrite lookup_delete_eq; simpl; lia|].
    split.
    { rewrite lookup_delete_ne by auto. unfold pin'.
      rewrite lookup_insert_ne by auto.
      rewrite lookup_insert_eq. simpl. lia. }
    intros p Hp1 Hp2. rewrite !lookup_delete_ne by auto.
    unfold pgs', pin'. rewrite !lookup_insert_ne by auto. auto.
Qed.

(** X26: [Remove] of the key that leaves a root leaf empty, in a tree
    whose header page has a record under the name of the index: the call
    returns, the tree is empty afterwards, and the header page gets its
    pin back and holds the same records as before, except that the record
    of the index now gives [INVALID_PAGE_ID] as the root.  The page of the
    old root is deleted from the buffer pool when nobody else has it
    pinned; otherwise it stays, empty, with the pin count it had. *)
Theorem Remove_of_last_key_empties_the_tree (t : BPlusTree) (fuel : nat)
    (key : Z) (pg hpg : Page) (n : Z)
    (arr : list (Z * Z)) (l1 l2 : list (string * Z)) (v : Z) :
  root_page_id_ t <> INVALID_PAGE_ID ->
  root_page_id_ t <> HEADER_PAGE_ID ->
  page_at t (root_page_id_ t) = Some pg ->
  parent_page_id pg = INVALID_PAGE_ID ->
  page_type pg = LEAF_PAGE ->
  page_id pg = root_page_id_ t ->
  body pg = LeafBody n arr ->
  remove_key key arr = [] ->
  page_at t HEADER_PAGE_ID = Some hpg ->
  header_view hpg = Ok (l1 ++ (index_name_ t, v) :: l2) ->
  index_name_ t ∉ l1.*1 ->
  0 <= pins t (root_page_id_ t) ->
  0 <= pins t HEADER_PAGE_ID ->
  exists t',
    Remove (S fuel) key t = Ok (tt, t') /\
    IsEmpty t' = Ok (true, t') /\
    root_page_id_ t' = INVALID_PAGE_ID /\
    page_at t' HEADER_PAGE_ID
    = Some (set_body hpg
              (HeaderBody (l1 ++ (index_name_ t, INVALID_PAGE_ID) :: l2))) /\
    page_at t' (root_page_id_ t)
    = (if bool_decide (0 < pins t (root_page_id_ t))
       then Some (set_body pg (LeafBody n [])) else None) /\
    pins t' (root_page_id_ t) = pins t (root_page_id_ t) /\
    pins t' HEADER_PAGE_ID = pins t HEADER_PAGE_ID /\
    (forall p, p <> root_page_id_ t -> p <> HEADER_PAGE_ID ->
               page_at t' p = page_at t p /\ pins t' p = pins t p).
Proof.
  intros Hroot Hroot0 Hp Hpar Hty Hid Hb Hrest Hh Hv Hfresh Hpin Hpin0.
  destruct (Remove_of_last_key_run t fuel key pg hpg n arr _
              Hroot Hroot0 Hp Hpar Hty Hid Hb Hrest Hh Hv Hpin Hpin0)
    as (t' & Hrun & Hempty & Hhdr & Hleaf & Hp1 & Hp2 & Hframe).
  rewrite (update_record_at _ _ _ _ _ Hfresh) in Hhdr.
  exists t'. split; [exact Hrun|]. split; [exact Hempty|].
  split.
  { revert Hempty. unfold IsEmpty, get_root. m_run.
    intros [= E]. now apply bool_decide_eq_true_1 in E. }
  split; [exact Hhdr|]. auto.
Qed.

Lemma Remove_of_last_key_empties_the_tree_witness :
  exists t',
    Remove 1 1 one_key_leaf = Ok (tt, t') /\
    IsEmpty t' = Ok (true, t') /\
    root_page_id_ t' = INVALID_PAGE_ID /\
    page_at t' HEADER_PAGE_ID
    = Some (set_body (header_page [(idx, 1)])
              (HeaderBody
                 ([] ++ (index_name_ one_key_leaf, INVALID_PAGE_ID) :: []))) /\
    page_at t' (root_page_id_ one_key_leaf)
    = (if bool_decide (0 < pins one_key_leaf (root_page_id_ one_key_leaf))
       then Some (set_body
                    (leaf_page 1 INVALID_PAGE_ID 4 INVALID_PAGE_ID [(1, 10)])
                    (LeafBody INVALID_PAGE_ID []))
       else None) /\
    pins t' (root_page_id_ one_key_leaf)
    = pins one_key_leaf (root_page_id_ one_key_leaf) /\
    pins t' HEADER_PAGE_ID = pins one_key_leaf HEADER_PAGE_ID /\
    (forall p, p <> root_page_id_ one_key_leaf -> p <> HEADER_PAGE_ID ->
               page_at t' p = page_at one_key_leaf p /\
               pins t' p = pins one_key_leaf p).
Proof.
  apply (Remove_of_last_key_empties_the_tree one_key_leaf 0 1
           (leaf_page 1 INVALID_PAGE_ID 4 INVALID_PAGE_ID [(1, 10)])
           (header_page [(idx, 1)]) INVALID_PAGE_ID [(1, 10)] [] [] 1).
  - vm_compute. discriminate.
  - vm_compute. discriminate.
  - reflexivity.
  - reflexivity.
  - reflexivity.
  - reflexivity.
  - reflexivity.
  - reflexivity.
  - reflexivity.
  - reflexivity.
  - apply not_elem_of_nil.
  - vm_compute. discriminate.
  - vm_compute. discriminate.
Defined.

End TreeEdits.

(** ** Lock manager: the upgrade of a held lock *)

(** X27: [LockUpgrade] (the same in both revisions) by a growing
    transaction whose granted shared request is at the head of the queue
    returns true at once: the head request becomes exclusive, the record
    moves from the shared to the exclusive lock set, and nothing else
    changes.  It does not wait for the other holders of the shared lock:
    the granted requests are compatible afterwards exactly when no request
    behind the head is granted.  [exclusive_cnt] is not incremented, so a
    counter that counted the exclusive requests no longer does. *)
Theorem LockUpgrade_does_not_wait_for_other_holders (lm : Lock.LockManager)
    (t : Lock.Transaction) (rid : Lock.RID) (w : Lock.Waiting)
    (r : Lock.Request) (rest : list Lock.Request) :
  Lock.state t = Lock.GROWING ->
  Lock.lock_table_ lm !! rid = Some w ->
  Lock.w_list w = r :: rest ->
  Lock.r_txn_id r = Lock.txn_id t ->
  Lock.mode r = Lock.SHARED ->
  Lock.granted r = true ->
  exists lm',
    Lock.V1.LockUpgrade lm t rid
    = Ok (Some (true,
                Lock.mkTxn (Lock.txn_id t) Lock.GROWING
                  (Lock.shared_lock_set t ∖ {[ rid ]})
                  ({[ rid ]} ∪ Lock.exclusive_lock_set t),
                lm')) /\
    Lock.lock_table_ lm' !! rid
    = Some (Lock.mkWaiting (Lock.exclusive_cnt w) (Lock.oldest w)
              (Lock.mkReq (Lock.txn_id t) Lock.EXCLUSIVE true :: rest)) /\
    (forall rid', rid' <> rid ->
       Lock.lock_table_ lm' !! rid' = Lock.lock_table_ lm !! rid') /\
    Lock.compatible (Lock.queue lm' rid) = Lock.waiting rest /\
    (Lock.counted w = true ->
     Lock.counted (Lock.at_rid (Lock.lock_table_ lm') rid) = false).
Proof.
  intros Hg Hw Hl Hid Hm Hgr.
  unfold Lock.V1.LockUpgrade, Lock.LockUpgrade_enter, assert.
  rewrite Hg. rewrite bool_decide_eq_false_2 by discriminate.
  rewrite bool_decide_eq_true_2 by reflexivity. cbn [res_bind].
  unfold Lock.finish_upgrade, Lock.finish, Lock.front_ready, Lock.at_rid.
  rewrite Hw. simpl default. rewrite Hl.
  rewrite bool_decide_eq_true_2 by exact Hid. cbn [res_bind].
  unfold Lock.LockUpgrade_grant, Lock.at_rid, assert. rewrite Hw.
  simpl default. rewrite Hl.
  rewrite (bool_decide_eq_true_2 _ Hid), (bool_decide_eq_true_2 _ Hm), Hgr.
  cbn [andb res_bind]. rewrite Hid, Hg.
  eexists. split; [reflexivity|].
  unfold Lock.set_table. cbn [Lock.lock_table_].
  split; [apply lookup_insert_eq|].
  split; [intros rid' Hne; now apply lookup_insert_ne|].
  unfold Lock.queue, Lock.at_rid. cbn [Lock.lock_table_].
  rewrite lookup_insert_eq. simpl default. cbn [Lock.w_list].
  split.
  - unfold Lock.compatible. cbn [Lock.granted Lock.mode andb].
    now rewrite bool_decide_eq_true_2 by reflexivity.
  - unfold Lock.counted. cbn [Lock.exclusive_cnt Lock.w_list].
    rewrite Hl. intros Hc. apply bool_decide_eq_true_1 in Hc.
    apply bool_decide_eq_false_2. rewrite Hc.
    rewrite !count_exclusive_cons. unfold Lock.weight.
    cbn [Lock.mode]. rewrite Hm.
    rewrite bool_decide_eq_false_2 by discriminate.
    rewrite bool_decide_eq_true_2 by reflexivity. lia.
Qed.

Lemma LockUpgrade_does_not_wait_for_other_holders_witness :
  exists lm',
    Lock.V1.LockUpgrade shared_then_waiting txn0 rid0
    = Ok (Some (true,
                Lock.mkTxn (Lock.txn_id txn0) Lock.GROWING
                  (Lock.shared_lock_set txn0 ∖ {[ rid0 ]})
                  ({[ rid0 ]} ∪ Lock.exclusive_lock_set txn0),
                lm')) /\
    Lock.lock_table_ lm' !! rid0
    = Some (Lock.mkWaiting 0 0
              (Lock.mkReq (Lock.txn_id txn0) Lock.EXCLUSIVE true
               :: [Lock.mkReq 1 Lock.SHARED false])) /\
    (forall rid', rid' <> rid0 ->
       Lock.lock_table_ lm' !! rid'
       = Lock.lock_table_ shared_then_waiting !! rid') /\
    Lock.compatible (Lock.queue lm' rid0)
    = Lock.waiting [Lock.mkReq 1 Lock.SHARED false] /\
    (Lock.counted
       (Lock.mkWaiting 0 0 [Lock.mkReq 0 Lock.SHARED true;
                            Lock.mkReq 1 Lock.SHARED false]) = true ->
     Lock.counted (Lock.at_rid (Lock.lock_table_ lm') rid0) = false).
Proof.
  exact (LockUpgrade_does_not_wait_for_other_holders shared_then_waiting
           txn0 rid0
           (Lock.mkWaiting 0 0 [Lock.mkReq 0 Lock.SHARED true;
                                Lock.mkReq 1 Lock.SHARED false])
           (Lock.mkReq 0 Lock.SHARED true)
           [Lock.mkReq 1 Lock.SHARED false]
           eq_refl eq_refl eq_refl eq_refl eq_refl eq_refl).
Defined.

(** X28: wait-die for exclusive requests, in both revisions: when a growing
    transaction calls [LockExclusive] on a record whose queue is headed by
    another transaction, it dies if it is younger than [oldest] (the call
    returns false, the transaction is left in state ABORTED with its id
    and lock sets, and the lock manager is unchanged); otherwise it waits: its request is appended, not granted,
    [oldest] becomes its id, and the call stays blocked. *)
Theorem LockExclusive_younger_dies_older_waits (lm : Lock.LockManager)
    (t : Lock.Transaction) (rid : Lock.RID) (w : Lock.Waiting)
    (r : Lock.Request) (rest : list Lock.Request) :
  Lock.state t = Lock.GROWING ->
  Lock.lock_table_ lm !! rid = Some w ->
  Lock.w_list w = r :: rest ->
  Lock.r_txn_id r <> Lock.txn_id t ->
  forall enter lock,
    (enter = Lock.V1.LockExclusive_enter /\ lock = Lock.V1.LockExclusive) \/
    (enter = Lock.V2.LockExclusive_enter /\ lock = Lock.V2.LockExclusive) ->
  (Lock.txn_id t > Lock.oldest w ->
   exists t' : Lock.Transaction,
     lock lm t rid = Ok (Some (false, t', lm)) /\
     Lock.state t' = Lock.ABORTED /\
     Lock.txn_id t' = Lock.txn_id t /\
     Lock.shared_lock_set t' = Lock.shared_lock_set t /\
     Lock.exclusive_lock_set t' = Lock.exclusive_lock_set t) /\
  (Lock.txn_id t <= Lock.oldest w ->
   lock lm t rid = Ok None /\
   exists lm',
     enter lm t rid = Ok (Lock.Wait t lm') /\
     Lock.queue lm' rid
     = Lock.w_list w ++ [Lock.mkReq (Lock.txn_id t) Lock.EXCLUSIVE false] /\
     Lock.oldest (Lock.at_rid (Lock.lock_table_ lm') rid) = Lock.txn_id t /\
     Lock.front_ready lm' t rid = Ok false).
Proof.
  intros Hg Hw Hl Hhead enter lock Hrev.
  assert (Hfront : forall c o,
    Lock.front_ready
      (Lock.set_table lm
         (<[ rid := Lock.mkWaiting c o
                      (Lock.w_list w
                       ++ [Lock.mkReq (Lock.txn_id t) Lock.EXCLUSIVE false]) ]>
            (Lock.lock_table_ lm))) t rid = Ok false).
  { intros c o. unfold Lock.front_ready, Lock.at_rid, Lock.set_table.
    cbn [Lock.lock_table_]. rewrite lookup_insert_eq. simpl default.
    cbn [Lock.w_list]. rewrite Hl. cbn [app].
    now rewrite bool_decide_eq_false_2 by exact Hhead. }
  destruct Hrev as [[-> ->]|[-> ->]].
  - unfold Lock.V1.LockExclusive, Lock.V1.LockExclusive_enter, assert.
    rewrite Hg, Hw. rewrite bool_decide_eq_false_2 by discriminate.
    rewrite bool_decide_eq_true_2 by reflexivity. cbn [res_bind].
    split; intros Hage.
    + rewrite bool_decide_eq_true_2 by exact Hage.
      exists (Lock.SetState t Lock.ABORTED). auto 6.
    + rewrite bool_decide_eq_false_2 by lia. cbn [res_bind].
      unfold Lock.finish_exclusive, Lock.finish. rewrite Hfront.
      cbn [res_bind]. split; [reflexivity|].
      eexists. split; [reflexivity|].
      split; [|split; [|apply Hfront]];
        unfold Lock.queue, Lock.at_rid, Lock.set_table;
        cbn [Lock.lock_table_]; rewrite lookup_insert_eq; reflexivity.
  - unfold Lock.V2.LockExclusive, Lock.V2.LockExclusive_enter, Lock.V2.enter,
      assert.
    rewrite Hg, Hw. rewrite bool_decide_eq_false_2 by discriminate.
    rewrite bool_decide_eq_true_2 by reflexivity. cbn [res_bind].
    split; intros Hage.
    + rewrite bool_decide_eq_true_2 by exact Hage.
      exists (Lock.SetState t Lock.ABORTED). auto 6.
    + rewrite bool_decide_eq_false_2 by lia. cbn [res_bind].
      unfold Lock.finish_exclusive, Lock.finish. rewrite Hfront.
      cbn [res_bind]. split; [reflexivity|].
      eexists. split; [reflexivity|].
      split; [|split; [|apply Hfront]];
        unfold Lock.queue, Lock.at_rid, Lock.set_table;
        cbn [Lock.lock_table_]; rewrite lookup_insert_eq; reflexivity.
Qed.

Lemma LockExclusive_younger_dies_older_waits_witness :
  (exists t' : Lock.Transaction,
     Lock.V1.LockExclusive (one_shared false) txn1 rid0
     = Ok (Some (false, t', one_shared false)) /\
     Lock.state t' = Lock.ABORTED /\
     Lock.txn_id t' = Lock.txn_id txn1 /\
     Lock.shared_lock_set t' = Lock.shared_lock_set txn1 /\
     Lock.exclusive_lock_set t' = Lock.exclusive_lock_set txn1) /\
  (Lock.V2.LockExclusive shared_by_five txn1 rid0 = Ok None /\
   exists lm',
     Lock.V2.LockExclusive_enter shared_by_five txn1 rid0
     = Ok (Lock.Wait txn1 lm') /\
     Lock.queue lm' rid0
     = [Lock.mkReq 5 Lock.SHARED true]
       ++ [Lock.mkReq (Lock.txn_id txn1) Lock.EXCLUSIVE false] /\
     Lock.oldest (Lock.at_rid (Lock.lock_table_ lm') rid0)
     = Lock.txn_id txn1 /\
     Lock.front_ready lm' txn1 rid0 = Ok false).
Proof.
  split.
  - refine (proj1 (LockExclusive_younger_dies_older_waits
                     (one_shared false) txn1 rid0
                     (Lock.mkWaiting 0 0 [Lock.mkReq 0 Lock.SHARED true])
                     (Lock.mkReq 0 Lock.SHARED true) []
                     eq_refl eq_refl eq_refl _ _ _
                     (or_introl (conj eq_refl eq_refl))) _).
    + vm_compute. discriminate.
    + vm_compute. reflexivity.
  - refine (proj2 (LockExclusive_younger_dies_older_waits
                     shared_by_five txn1 rid0
                     (Lock.mkWaiting 0 5 [Lock.mkReq 5 Lock.SHARED true])
                     (Lock.mkReq 5 Lock.SHARED true) []
                     eq_refl eq_refl eq_refl _ _ _
                     (or_intror (conj eq_refl eq_refl))) _).
    + vm_compute. discriminate.
    + vm_compute. discriminate.
Defined.
